(** * Verification of the DaCe lowering core

    Shallow embedding of
    - [dace/sdfg/analysis/schedule_tree/treenodes.py] (module [Treenodes]) and
    - [dace/codegen/targets/framecode.py] (module [Framecode]),
    with the properties of the lowering specification stated and proved
    over the embedded functions. *)

From Stdlib Require Import List String Ascii Bool Arith ZArith Lia DecimalString.
Import ListNotations.
Open Scope string_scope.
Set Warnings "-register-all".

(* ================================================================== *)
(** ** Python string helpers shared by both modules *)

(** The character [chr(10)]. *)
Definition newline : string := String (ascii_of_nat 10) EmptyString.

(** [n * s] on Python strings. *)
Fixpoint str_mul (n : nat) (s : string) : string :=
  match n with
  | O => ""
  | S k => s ++ str_mul k s
  end.

(** [sep.join(l)]. *)
Fixpoint join (sep : string) (l : list string) : string :=
  match l with
  | [] => ""
  | [x] => x
  | x :: rest => x ++ sep ++ join sep rest
  end.

(** [all or nothing] traversal of a list of fallible results. *)
Fixpoint sequence_option {A : Type} (l : list (option A)) : option (list A) :=
  match l with
  | [] => Some []
  | None :: _ => None
  | Some x :: rest =>
      match sequence_option rest with
      | Some xs => Some (x :: xs)
      | None => None
      end
  end.

(* ================================================================== *)
(** ** treenodes.py *)

Module Treenodes.

Definition INDENTATION : string := "  ".

(** [dace.properties.CodeBlock]: the tree only ever reads [as_string]. *)
Record CodeBlock := { as_string : string }.

(** [dace.sdfg.state.LoopRegion], the fields read by [LoopScope].
    [loop_variable] is a string property whose empty value means no
    loop variable; the statements may be [None]. *)
Record LoopRegion := {
  init_statement : option CodeBlock;
  loop_condition : option CodeBlock;
  update_statement : option CodeBlock;
  loop_variable : string;
  inverted : bool;
  update_before_condition : bool
}.

(** A memlet as the tree nodes print it: [str(memlet)], and the fields
    [CopyNode] inspects. *)
Record Memlet := {
  memlet_str : string;
  memlet_data : string;
  memlet_subset : string;
  (** [other_subset]: its rendering and whether
      [any(s != 0 for s in other_subset.min_element())]. *)
  memlet_other_subset : option (string * bool);
  memlet_wcr : option string
}.

(** Classes deriving [ScheduleTreeNode] without children. *)
Inductive LeafClass :=
| ScheduleTreeNode
| StateLabel (state_name : string)
| GotoNode (target : option string)
| AssignNode (name : string) (value : CodeBlock)
| BreakNode
| ContinueNode
| TaskletNode (in_memlets out_memlets : list Memlet)
| LibraryCall (libname : string) (own_properties : list (string * string))
              (in_memlets out_memlets : list Memlet)
| CopyNode (target : string) (memlet : Memlet)
| DynScopeCopyNode (target : string) (memlet : Memlet)
| ViewNode (target : string) (memlet : Memlet) (view_shape : string)
| NView (target : string) (memlet : Memlet) (view_shape : string)
| RefSetNode (target : string) (memlet : Memlet) (src_codenode : option string).

(** Classes deriving [ScheduleTreeScope]. *)
Inductive ScopeClass :=
| ScheduleTreeScope
| ControlFlowScope
| DataflowScope
| GBlock
| LoopScope (loop : LoopRegion)
| IfScope (condition : CodeBlock)
| StateIfScope (condition : CodeBlock)
| ElifScope (condition : CodeBlock)
| ElseScope
| MapScope (params : list string) (range : list string)
| ConsumeScope (pe_index num_pes : string) (condition : option CodeBlock)
| PipelineScope (params : list string) (range : list string).

(** A schedule tree as [as_string] and [preorder_traversal] read it. *)
Inductive ScheduleTree :=
| Leaf (c : LeafClass)
| Scope (c : ScopeClass) (children : list ScheduleTree).

(** Python truthiness of the values tested by [_check_loop_variant]. *)
Definition truthy_block (c : option CodeBlock) : bool :=
  match c with Some _ => true | None => false end.

Definition truthy_str (s : string) : bool :=
  negb (String.eqb s "").

Inductive LoopVariant :=
| V_for
| V_while
| V_do_while
| V_do_for_uncond_increment
| V_do_for.

(** The literal each variant stands for. *)
Definition variant_name (v : LoopVariant) : string :=
  match v with
  | V_for => "for"
  | V_while => "while"
  | V_do_while => "do-while"
  | V_do_for_uncond_increment => "do-for-uncond-increment"
  | V_do_for => "do-for"
  end.

(** [LoopScope._check_loop_variant]. *)
Definition _check_loop_variant (loop : LoopRegion) : LoopVariant :=
  if truthy_block (update_statement loop) && truthy_block (init_statement loop)
     && truthy_str (loop_variable loop)
  then
    if inverted loop then
      if update_before_condition loop then V_do_for_uncond_increment
      else V_do_for
    else V_for
  else
    if inverted loop then V_do_while
    else V_while.

(** [indent * INDENTATION]. *)
Definition ind (indent : nat) : string := str_mul indent INDENTATION.

(** [x.as_string] where [x] may be [None] (an [AttributeError] then). *)
Definition block_text (c : option CodeBlock) : option string :=
  option_map as_string c.

Definition memlets_text (ms : list Memlet) : string :=
  join ", " (map memlet_str ms).

(** [as_string] of the leaf classes. *)
Definition leaf_as_string (c : LeafClass) (indent : nat) : string :=
  match c with
  | ScheduleTreeNode => ind indent ++ "UNSUPPORTED"
  | StateLabel state_name => ind indent ++ "label " ++ state_name ++ ":"
  | GotoNode target =>
      let name := match target with
                  | Some t => if truthy_str t then t else "exit"
                  | None => "exit"
                  end in
      ind indent ++ "goto " ++ name
  | AssignNode name value =>
      ind indent ++ "assign " ++ name ++ " = " ++ as_string value
  | BreakNode => ind indent ++ "break"
  | ContinueNode => ind indent ++ "continue"
  | TaskletNode ins outs =>
      if truthy_str (memlets_text outs)
      then ind indent ++ memlets_text outs ++ " = tasklet(" ++ memlets_text ins ++ ")"
      else ind indent ++ "tasklet(" ++ memlets_text ins ++ ")"
  | LibraryCall libname props ins outs =>
      ind indent ++ memlets_text outs ++ " = library " ++ libname ++ "["
        ++ join ", " (map (fun kv => fst kv ++ "=" ++ snd kv) props)
        ++ "](" ++ memlets_text ins ++ ")"
  | CopyNode target m =>
      let offset := match memlet_other_subset m with
                    | Some (txt, true) => "[" ++ txt ++ "]"
                    | _ => ""
                    end in
      let wcr := match memlet_wcr m with
                 | Some w => " with " ++ w
                 | None => ""
                 end in
      ind indent ++ target ++ offset ++ " = copy " ++ memlet_data m
        ++ "[" ++ memlet_subset m ++ "]" ++ wcr
  | DynScopeCopyNode target m =>
      ind indent ++ target ++ " = dscopy " ++ memlet_data m
        ++ "[" ++ memlet_subset m ++ "]"
  | ViewNode target m shape =>
      ind indent ++ target ++ " = view " ++ memlet_str m ++ " as " ++ shape
  | NView target m shape =>
      ind indent ++ target ++ " = nview " ++ memlet_str m ++ " as " ++ shape
  | RefSetNode target m src =>
      match src with
      | Some clsname => ind indent ++ target ++ " = refset from " ++ clsname
      | None => ind indent ++ target ++ " = refset to " ++ memlet_str m
      end
  end.

(** [ScheduleTreeScope.as_string], given the rendering of each child at
    [indent + 1]. *)
Definition scope_body (indent : nat) (rendered : list string) : string :=
  match rendered with
  | [] => ind (indent + 1) ++ "pass"
  | _ => join newline rendered
  end.

(** [LoopScope.as_string] once [super().as_string(indent)] is known. *)
Definition loop_as_string (loop : LoopRegion) (indent : nat) (body : string)
  : option string :=
  match _check_loop_variant loop with
  | V_do_for_uncond_increment =>
      match block_text (init_statement loop), block_text (update_statement loop),
            block_text (loop_condition loop) with
      | Some init, Some upd, Some cond =>
          let pre_header := ind indent ++ init ++ newline in
          let header := ind indent ++ "do:" ++ newline in
          let pre_footer := ind (indent + 1) ++ upd ++ newline in
          let footer := ind indent ++ "while " ++ cond in
          Some (pre_header ++ header ++ body ++ newline ++ pre_footer ++ footer)
      | _, _, _ => None
      end
  | V_do_for =>
      match block_text (init_statement loop), block_text (update_statement loop),
            block_text (loop_condition loop) with
      | Some init, Some upd, Some cond =>
          let pre_header := ind indent ++ init ++ newline in
          let header := ind indent ++ "while True:" ++ newline in
          let pre_footer := (ind (indent + 1) ++ "if (not " ++ cond ++ "):" ++ newline)
                              ++ (ind (indent + 2) ++ "break" ++ newline) in
          let footer := ind (indent + 1) ++ upd ++ newline in
          Some (pre_header ++ header ++ body ++ newline ++ pre_footer ++ footer)
      | _, _, _ => None
      end
  | V_for =>
      match block_text (init_statement loop), block_text (update_statement loop),
            block_text (loop_condition loop) with
      | Some init, Some upd, Some cond =>
          let result := ind indent ++ "for " ++ init ++ "; " ++ cond ++ "; "
                          ++ upd ++ ":" ++ newline in
          Some (result ++ body)
      | _, _, _ => None
      end
  | V_while =>
      match block_text (loop_condition loop) with
      | Some cond =>
          let result := ind indent ++ "while " ++ cond ++ ":" ++ newline in
          Some (result ++ body)
      | None => None
      end
  | V_do_while =>
      match block_text (loop_condition loop) with
      | Some cond =>
          let header := ind indent ++ "do:" ++ newline in
          let footer := ind indent ++ "while " ++ cond in
          Some (header ++ body ++ newline ++ footer)
      | None => None
      end
  end.

(** [as_string] of the scope classes, given [super().as_string(indent)]
    of the plain scope. *)
Definition scope_as_string (c : ScopeClass) (indent : nat) (body : string)
  : option string :=
  match c with
  | ScheduleTreeScope | ControlFlowScope | DataflowScope => Some body
  | GBlock => Some ((ind indent ++ "gblock:" ++ newline) ++ body)
  | LoopScope loop => loop_as_string loop indent body
  | IfScope cond =>
      Some ((ind indent ++ "if " ++ as_string cond ++ ":" ++ newline) ++ body)
  | StateIfScope cond =>
      Some ((ind indent ++ "stateif " ++ as_string cond ++ ":" ++ newline) ++ body)
  | ElifScope cond =>
      Some ((ind indent ++ "elif " ++ as_string cond ++ ":" ++ newline) ++ body)
  | ElseScope => Some ((ind indent ++ "else:" ++ newline) ++ body)
  | MapScope params range =>
      Some ((ind indent ++ "map " ++ join ", " params ++ " in ["
               ++ join ", " range ++ "]:" ++ newline) ++ body)
  | ConsumeScope pe_index num_pes condition =>
      let cond := match condition with
                  | None => "stream not empty"
                  | Some c => as_string c
                  end in
      Some ((ind indent ++ "consume (PE " ++ pe_index ++ " out of " ++ num_pes
               ++ ") while " ++ cond ++ ":" ++ newline) ++ body)
  | PipelineScope params range =>
      Some ((ind indent ++ "pipeline " ++ join ", " params ++ " in ["
               ++ join ", " range ++ "]:" ++ newline) ++ body)
  end.

(** [node.as_string(indent)]; [None] is an exception raised while
    rendering (a loop whose condition is [None]). *)
Fixpoint tree_as_string (t : ScheduleTree) (indent : nat) : option string :=
  match t with
  | Leaf c => Some (leaf_as_string c indent)
  | Scope c children =>
      match sequence_option
              (map (fun child => tree_as_string child (indent + 1)) children) with
      | Some rendered => scope_as_string c indent (scope_body indent rendered)
      | None => None
      end
  end.

(** [preorder_traversal]. *)
Fixpoint preorder_traversal (t : ScheduleTree) : list ScheduleTree :=
  match t with
  | Leaf _ => [t]
  | Scope _ children => t :: flat_map preorder_traversal children
  end.

(** *** The object store and [ScheduleNodeTransformer]

    The transformer assigns [parent] and [children] of existing
    objects, so nodes are objects in a store, named by identity.  An
    object's class is fixed when it is created; its [parent] and (for a
    scope) its [children] list are mutable. *)

Definition NodeId := nat.

Record Store := {
  class_of : NodeId -> LeafClass + ScopeClass;
  parent : NodeId -> option NodeId;
  children : NodeId -> list NodeId
}.

(** [isinstance(node, ScheduleTreeScope)]. *)
Definition is_scope (s : Store) (node : NodeId) : bool :=
  match class_of s node with inr _ => true | inl _ => false end.

(** [val.parent = node]. *)
Definition set_parent (s : Store) (val : NodeId) (node : option NodeId) : Store :=
  {| class_of := class_of s;
     parent := fun n => if Nat.eqb n val then node else parent s n;
     children := children s |}.

(** [node.children[:] = new_values]. *)
Definition set_children (s : Store) (node : NodeId) (new_values : list NodeId) : Store :=
  {| class_of := class_of s;
     parent := parent s;
     children := fun n => if Nat.eqb n node then new_values else children s n |}.

(** What a visit method hands back: [None], a node, or a sequence. *)
Inductive VisitResult :=
| RNone
| RNode (n : NodeId)
| RSeq (l : list NodeId).

(** The nodes a result contributes to the new children list. *)
Definition splice (r : VisitResult) : list NodeId :=
  match r with
  | RNone => []
  | RNode n => [n]
  | RSeq l => l
  end.

Section GenericVisit.

(** [self.visit], dynamically dispatched: any method of a subclass.  It
    may mutate the store; [None] stands for a visit that does not
    return. *)
Variable visit : Store -> NodeId -> option (Store * VisitResult).

(** The loop [for value in node.children] of [generic_visit]: the list
    iterator holds an index into the live list, which [visit] may have
    changed in the meantime. *)
Fixpoint visit_children (fuel : nat) (s : Store) (node : NodeId) (i : nat)
  (new_values : list NodeId) : option (Store * list NodeId) :=
  match fuel with
  | O => None
  | S fuel' =>
      match nth_error (children s node) i with
      | None => Some (s, new_values)
      | Some value =>
          match visit s value with
          | None => None
          | Some (s1, RNone) => visit_children fuel' s1 node (S i) new_values
          | Some (s1, RSeq l) => visit_children fuel' s1 node (S i) (new_values ++ l)%list
          | Some (s1, RNode v) => visit_children fuel' s1 node (S i) (new_values ++ [v])%list
          end
      end
  end.

(** [for val in new_values: val.parent = node]. *)
Definition set_parents (s : Store) (new_values : list NodeId) (node : NodeId) : Store :=
  fold_left (fun acc val => set_parent acc val (Some node)) new_values s.

(** [ScheduleNodeTransformer.generic_visit]. *)
Definition generic_visit (fuel : nat) (s : Store) (node : NodeId)
  : option (Store * VisitResult) :=
  if is_scope s node then
    match visit_children fuel s node 0 [] with
    | None => None
    | Some (s1, new_values) =>
        Some (set_children (set_parents s1 new_values node) node new_values,
              RNode node)
    end
  else Some (s, RNode node).

End GenericVisit.

(** [ScheduleNodeTransformer.visit] on a node, for the class as it is
    defined (no [visit_scope], no [visit_<Class>] method): the lookup
    falls through to [generic_visit], whose recursive calls come back
    here. *)
Fixpoint transformer_visit (fuel : nat) (s : Store) (node : NodeId)
  : option (Store * VisitResult) :=
  match fuel with
  | O => None
  | S fuel' => generic_visit (transformer_visit fuel') fuel s node
  end.

(** Same class, parent link and children list for every object. *)
Definition same_links (s1 s2 : Store) : Prop :=
  forall n, class_of s1 n = class_of s2 n /\ parent s1 n = parent s2 n
            /\ children s1 n = children s2 n.

Definition parent_is (s : Store) (node child : NodeId) : bool :=
  match parent s child with
  | Some p => Nat.eqb p node
  | None => false
  end.

(** The object graph below [node] is a tree of height and fan-out
    below [bound] in which every child's [parent] is its scope. *)
Fixpoint is_schedule_tree (bound : nat) (s : Store) (node : NodeId) : bool :=
  match bound with
  | O => false
  | S b =>
      if is_scope s node then
        Nat.leb (List.length (children s node)) b
        && forallb (fun c => parent_is s node c && is_schedule_tree b s c)
                   (children s node)
      else true
  end.

(** *** Properties of the printer *)

(** Text of an optional code block, empty when absent. *)
Definition text_of (c : option CodeBlock) : string :=
  match c with Some b => as_string b | None => "" end.

(** The five printed forms, spelled out over the loop's clauses. *)
Definition printed_form (v : LoopVariant) (indent : nat)
  (init cond upd body : string) : string :=
  match v with
  | V_for =>
      ind indent ++ "for " ++ init ++ "; " ++ cond ++ "; " ++ upd ++ ":"
        ++ newline ++ body
  | V_do_for_uncond_increment =>
      (ind indent ++ init ++ newline) ++ (ind indent ++ "do:" ++ newline)
        ++ body ++ newline ++ (ind (indent + 1) ++ upd ++ newline)
        ++ (ind indent ++ "while " ++ cond)
  | V_do_for =>
      (ind indent ++ init ++ newline) ++ (ind indent ++ "while True:" ++ newline)
        ++ body ++ newline
        ++ ((ind (indent + 1) ++ "if (not " ++ cond ++ "):" ++ newline)
              ++ (ind (indent + 2) ++ "break" ++ newline))
        ++ (ind (indent + 1) ++ upd ++ newline)
  | V_while =>
      ind indent ++ "while " ++ cond ++ ":" ++ newline ++ body
  | V_do_while =>
      (ind indent ++ "do:" ++ newline) ++ body ++ newline
        ++ (ind indent ++ "while " ++ cond)
  end.

(** The decision table of the specification, over its five inputs. *)
Definition decision_table (has_update has_init has_variable inv before : bool)
  : LoopVariant :=
  match has_update && has_init && has_variable, inv, before with
  | true, false, _ => V_for
  | true, true, true => V_do_for_uncond_increment
  | true, true, false => V_do_for
  | false, false, _ => V_while
  | false, true, _ => V_do_while
  end.

(** The loop of the scenario: [i = 0; i < 10; i = i + 1], not inverted. *)
Definition counting_loop (before : bool) : LoopRegion :=
  {| init_statement := Some {| as_string := "i = 0" |};
     loop_condition := Some {| as_string := "i < 10" |};
     update_statement := Some {| as_string := "i = i + 1" |};
     loop_variable := "i";
     inverted := false;
     update_before_condition := before |}.

Lemma string_app_assoc (a b c : string) : (a ++ b) ++ c = a ++ (b ++ c).
Proof.
  induction a as [|ch a IH]; simpl; [reflexivity | now rewrite IH].
Qed.

Lemma check_loop_variant_table (loop : LoopRegion) :
  _check_loop_variant loop =
  decision_table (truthy_block (update_statement loop))
                 (truthy_block (init_statement loop))
                 (truthy_str (loop_variable loop))
                 (inverted loop) (update_before_condition loop).
Proof.
  unfold _check_loop_variant, decision_table.
  destruct (truthy_block (update_statement loop) && truthy_block (init_statement loop)
            && truthy_str (loop_variable loop));
    destruct (inverted loop); destruct (update_before_condition loop); reflexivity.
Qed.

Lemma loop_as_string_form (loop : LoopRegion) (indent : nat) (body : string) :
  loop_as_string loop indent body =
  match loop_condition loop with
  | None => None
  | Some cond =>
      Some (printed_form (_check_loop_variant loop) indent
              (text_of (init_statement loop)) (as_string cond)
              (text_of (update_statement loop)) body)
  end.
Proof.
  unfold loop_as_string, _check_loop_variant, printed_form, block_text, text_of.
  destruct (update_statement loop) as [u|]; destruct (init_statement loop) as [i|];
    destruct (loop_condition loop) as [c|]; simpl;
    destruct (truthy_str (loop_variable loop)); simpl;
    destruct (inverted loop); simpl; try reflexivity;
    destruct (update_before_condition loop); simpl; try reflexivity;
    repeat (rewrite !string_app_assoc; simpl); reflexivity.
Qed.

(** C6. The printed form of a [LoopScope] is selected by the decision
    table over (has update statement, has init statement, has loop
    variable, inverted, update before condition): all three present
    gives [for] when not inverted, the do-loop with unconditional
    increment when inverted and updating before the check, the loop
    with a conditional break when inverted otherwise; anything missing
    gives [while] when not inverted and [do-while] when inverted.  The
    node renders as exactly that form around its children (rendering
    fails only if a child fails or the condition is [None]), and the
    loop [i = 0; i < 10; i = i + 1] prints a [for] header with these
    three clauses. *)
Theorem LoopScope_printed_form_follows_decision_table :
  forall (loop : LoopRegion) (children : list ScheduleTree) (indent : nat),
    _check_loop_variant loop =
      decision_table (truthy_block (update_statement loop))
                     (truthy_block (init_statement loop))
                     (truthy_str (loop_variable loop))
                     (inverted loop) (update_before_condition loop)
    /\ tree_as_string (Scope (LoopScope loop) children) indent =
       match sequence_option
               (map (fun child => tree_as_string child (indent + 1)) children),
             loop_condition loop with
       | Some rendered, Some cond =>
           Some (printed_form (_check_loop_variant loop) indent
                   (text_of (init_statement loop)) (as_string cond)
                   (text_of (update_statement loop))
                   (scope_body indent rendered))
       | _, _ => None
       end
    /\ (forall before,
          _check_loop_variant (counting_loop before) = V_for
          /\ tree_as_string (Scope (LoopScope (counting_loop before)) []) 0 =
               Some ("for i = 0; i < 10; i = i + 1:" ++ newline ++ "  pass")).
Proof.
  intros loop children indent. split; [apply check_loop_variant_table|]. split.
  - simpl.
    destruct (sequence_option
                (map (fun child => tree_as_string child (indent + 1)) children))
      as [rendered|].
    + apply loop_as_string_form.
    + reflexivity.
  - intros before. split; destruct before; reflexivity.
Qed.

(** *** Properties of the transformer *)

Lemma same_links_refl (s : Store) : same_links s s.
Proof. intro n; auto. Qed.

Lemma same_links_trans (s1 s2 s3 : Store) :
  same_links s1 s2 -> same_links s2 s3 -> same_links s1 s3.
Proof.
  intros H12 H23 n. destruct (H12 n) as (A & B & C), (H23 n) as (A' & B' & C').
  repeat split; congruence.
Qed.

Lemma is_scope_same (s1 s2 : Store) (n : NodeId) :
  same_links s1 s2 -> is_scope s1 n = is_scope s2 n.
Proof.
  intros H. unfold is_scope. destruct (H n) as (A & _). now rewrite A.
Qed.

Lemma parent_after_set_parents (vals : list NodeId) (node c : NodeId) :
  forall s, parent (set_parents s vals node) c =
            if existsb (Nat.eqb c) vals then Some node else parent s c.
Proof.
  unfold set_parents.
  induction vals as [|v rest IH]; intros s; simpl; [reflexivity|].
  rewrite IH. simpl.
  destruct (existsb (Nat.eqb c) rest); [now rewrite orb_true_r|].
  rewrite orb_false_r. reflexivity.
Qed.

Lemma children_after_set_parents (vals : list NodeId) (node n : NodeId) :
  forall s, children (set_parents s vals node) n = children s n.
Proof.
  unfold set_parents.
  induction vals as [|v rest IH]; intros s; simpl; [reflexivity|].
  now rewrite IH.
Qed.

Lemma class_after_set_parents (vals : list NodeId) (node n : NodeId) :
  forall s, class_of (set_parents s vals node) n = class_of s n.
Proof.
  unfold set_parents.
  induction vals as [|v rest IH]; intros s; simpl; [reflexivity|].
  now rewrite IH.
Qed.

Lemma existsb_eqb_In (c : NodeId) (l : list NodeId) :
  existsb (Nat.eqb c) l = true <-> In c l.
Proof.
  rewrite existsb_exists. split.
  - intros (x & Hin & Heq). apply Nat.eqb_eq in Heq. now subst.
  - intros Hin. exists c. split; [assumption | apply Nat.eqb_refl].
Qed.

(** Writing back the links that are already there changes nothing. *)
Lemma relink_same (s0 s1 : Store) (node : NodeId) :
  same_links s1 s0 ->
  (forall c, In c (children s0 node) -> parent s0 c = Some node) ->
  same_links
    (set_children (set_parents s1 (children s0 node) node) node (children s0 node))
    s0.
Proof.
  intros Hsame Hpar n. destruct (Hsame n) as (A & B & C).
  simpl. rewrite class_after_set_parents, parent_after_set_parents,
           children_after_set_parents.
  repeat split.
  - assumption.
  - destruct (existsb (Nat.eqb n) (children s0 node)) eqn:E; [|assumption].
    apply existsb_eqb_In in E. symmetry. now apply Hpar.
  - destruct (Nat.eqb n node) eqn:E; [|assumption].
    apply Nat.eqb_eq in E. now subst.
Qed.

Lemma skipn_nth_error {A : Type} (l : list A) (i : nat) (x : A) :
  nth_error l i = Some x -> skipn i l = x :: skipn (S i) l.
Proof.
  revert i. induction l as [|a l IH]; intros [|i] H; simpl in *; try discriminate.
  - now inversion H.
  - now apply IH.
Qed.

(** The children loop under a visit that hands every child back and
    leaves all links as they were. *)
Lemma visit_children_unchanged
  (visit : Store -> NodeId -> option (Store * VisitResult))
  (s0 : Store) (node : NodeId) :
  (forall s1 c, same_links s1 s0 -> In c (children s0 node) ->
      exists s2, visit s1 c = Some (s2, RNode c) /\ same_links s2 s0) ->
  forall k i acc s1 fuel,
    same_links s1 s0 -> i + k = List.length (children s0 node) -> k < fuel ->
    exists s2,
      visit_children visit fuel s1 node i acc
        = Some (s2, (acc ++ skipn i (children s0 node))%list)
      /\ same_links s2 s0.
Proof.
  intros Hvisit. induction k as [|k IH]; intros i acc s1 fuel Hsame Hlen Hfuel.
  - destruct fuel as [|fuel]; [lia|]. simpl.
    destruct (Hsame node) as (_ & _ & Hch). rewrite Hch.
    assert (Hi : i = List.length (children s0 node)) by lia.
    rewrite (proj2 (nth_error_None _ _)) by lia.
    exists s1. split; [|assumption].
    rewrite Hi, skipn_all, app_nil_r. reflexivity.
  - destruct fuel as [|fuel]; [lia|]. simpl.
    destruct (Hsame node) as (_ & _ & Hch). rewrite Hch.
    destruct (nth_error (children s0 node) i) as [c|] eqn:Hnth.
    + destruct (Hvisit s1 c Hsame (nth_error_In _ _ Hnth)) as (s2 & Hv & Hs2).
      rewrite Hv.
      destruct (IH (S i) (acc ++ [c])%list s2 fuel Hs2) as (s3 & Hrec & Hs3);
        [lia | lia |].
      exists s3. split; [|assumption].
      rewrite Hrec, (skipn_nth_error _ _ _ Hnth), <- app_assoc. reflexivity.
    + apply nth_error_None in Hnth. lia.
Qed.

Lemma generic_visit_unchanged
  (visit : Store -> NodeId -> option (Store * VisitResult))
  (s0 s1 : Store) (node : NodeId) (fuel : nat) :
  same_links s1 s0 ->
  (is_scope s0 node = true ->
     List.length (children s0 node) < fuel
     /\ (forall c, In c (children s0 node) -> parent s0 c = Some node)
     /\ (forall s c, same_links s s0 -> In c (children s0 node) ->
           exists s2, visit s c = Some (s2, RNode c) /\ same_links s2 s0)) ->
  exists s2, generic_visit visit fuel s1 node = Some (s2, RNode node)
             /\ same_links s2 s0.
Proof.
  intros Hsame Hscope. unfold generic_visit.
  rewrite (is_scope_same _ _ node Hsame).
  destruct (is_scope s0 node) eqn:E.
  - destruct (Hscope eq_refl) as (Hlen & Hpar & Hvisit).
    destruct (visit_children_unchanged visit s0 node Hvisit
                (List.length (children s0 node)) 0 [] s1 fuel Hsame)
      as (s2 & Hloop & Hs2); [reflexivity | assumption |].
    rewrite Hloop. simpl.
    eexists. split; [reflexivity|]. now apply relink_same.
  - exists s1. split; [reflexivity | assumption].
Qed.

Lemma is_schedule_tree_step (b : nat) (s : Store) (node : NodeId) :
  is_schedule_tree (S b) s node = true -> is_scope s node = true ->
  List.length (children s node) <= b
  /\ forall c, In c (children s node) ->
       parent s c = Some node /\ is_schedule_tree b s c = true.
Proof.
  simpl. intros H E. rewrite E in H. apply andb_true_iff in H as (Hlen & Hall).
  split; [now apply Nat.leb_le|].
  intros c Hin. rewrite forallb_forall in Hall.
  specialize (Hall c Hin). apply andb_true_iff in Hall as (Hp & Ht).
  split; [|assumption].
  unfold parent_is in Hp. destruct (parent s c) as [p|]; [|discriminate].
  apply Nat.eqb_eq in Hp. now subst.
Qed.

Lemma transformer_visit_unchanged (fuel : nat) :
  forall s0 s1 root,
    is_schedule_tree fuel s0 root = true -> same_links s1 s0 ->
    exists s2, transformer_visit fuel s1 root = Some (s2, RNode root)
               /\ same_links s2 s0.
Proof.
  induction fuel as [|b IH]; intros s0 s1 root Htree Hsame; [discriminate|].
  change (transformer_visit (S b) s1 root)
    with (generic_visit (transformer_visit b) (S b) s1 root).
  apply generic_visit_unchanged; [assumption|].
  intros E. destruct (is_schedule_tree_step b s0 root Htree E) as (Hlen & Hch).
  split; [lia|]. split.
  - intros c Hin. apply (Hch c Hin).
  - intros s c Hs Hin. apply IH; [apply (Hch c Hin) | assumption].
Qed.

(** The children loop under a visit that is a pure function of the
    child. *)
Lemma visit_children_pure (f : NodeId -> VisitResult) (s : Store) (node : NodeId) :
  forall k i acc fuel,
    i + k = List.length (children s node) -> k < fuel ->
    visit_children (fun st c => Some (st, f c)) fuel s node i acc
    = Some (s, (acc ++ flat_map (fun c => splice (f c))
                                (skipn i (children s node)))%list).
Proof.
  induction k as [|k IH]; intros i acc fuel Hlen Hfuel.
  - destruct fuel as [|fuel]; [lia|]. simpl.
    rewrite (proj2 (nth_error_None _ _)) by lia.
    rewrite skipn_all2 by lia. simpl. now rewrite app_nil_r.
  - destruct fuel as [|fuel]; [lia|]. simpl.
    destruct (nth_error (children s node) i) as [c|] eqn:Hnth.
    + rewrite (skipn_nth_error _ _ _ Hnth). simpl.
      destruct (f c) as [|v|l]; simpl; rewrite IH by lia.
      * reflexivity.
      * now rewrite <- app_assoc.
      * now rewrite <- app_assoc.
    + apply nth_error_None in Hnth. lia.
Qed.

(** Same class and children list for every object, and every parent
    link either as in [s0] or naming a scope of [s0] that holds the
    node. *)
Definition relinked (s1 s0 : Store) : Prop :=
  forall n,
    class_of s1 n = class_of s0 n
    /\ children s1 n = children s0 n
    /\ (parent s1 n = parent s0 n
        \/ exists m, In n (children s0 m) /\ parent s1 n = Some m).

(** The object graph below [node] is finite: height and fan-out stay
    below [bound].  Nothing is asked of the parent links. *)
Fixpoint is_finite_tree (bound : nat) (s : Store) (node : NodeId) : bool :=
  match bound with
  | O => false
  | S b =>
      if is_scope s node then
        Nat.leb (List.length (children s node)) b
        && forallb (is_finite_tree b s) (children s node)
      else true
  end.

Lemma relinked_refl (s : Store) : relinked s s.
Proof. intro n; auto. Qed.

Lemma is_scope_relinked (s1 s0 : Store) (n : NodeId) :
  relinked s1 s0 -> is_scope s1 n = is_scope s0 n.
Proof.
  intros H. unfold is_scope. destruct (H n) as (A & _). now rewrite A.
Qed.

(** Assigning the parent of the children of a scope keeps the stores
    related. *)
Lemma relink_relinked (s0 s1 : Store) (node : NodeId) :
  relinked s1 s0 ->
  relinked
    (set_children (set_parents s1 (children s0 node) node) node (children s0 node))
    s0.
Proof.
  intros Hrel n. destruct (Hrel n) as (A & B & C).
  simpl. rewrite class_after_set_parents, parent_after_set_parents,
           children_after_set_parents.
  split; [assumption|]. split.
  - destruct (Nat.eqb n node) eqn:E; [|assumption].
    apply Nat.eqb_eq in E. now subst.
  - destruct (existsb (Nat.eqb n) (children s0 node)) eqn:E; [|assumption].
    apply existsb_eqb_In in E. right. now exists node.
Qed.

Lemma visit_children_relinked
  (visit : Store -> NodeId -> option (Store * VisitResult))
  (s0 : Store) (node : NodeId) :
  (forall s1 c, relinked s1 s0 -> In c (children s0 node) ->
      exists s2, visit s1 c = Some (s2, RNode c) /\ relinked s2 s0) ->
  forall k i acc s1 fuel,
    relinked s1 s0 -> i + k = List.length (children s0 node) -> k < fuel ->
    exists s2,
      visit_children visit fuel s1 node i acc
        = Some (s2, (acc ++ skipn i (children s0 node))%list)
      /\ relinked s2 s0.
Proof.
  intros Hvisit. induction k as [|k IH]; intros i acc s1 fuel Hrel Hlen Hfuel.
  - destruct fuel as [|fuel]; [lia|]. simpl.
    destruct (Hrel node) as (_ & Hch & _). rewrite Hch.
    assert (Hi : i = List.length (children s0 node)) by lia.
    rewrite (proj2 (nth_error_None _ _)) by lia.
    exists s1. split; [|assumption].
    rewrite Hi, skipn_all, app_nil_r. reflexivity.
  - destruct fuel as [|fuel]; [lia|]. simpl.
    destruct (Hrel node) as (_ & Hch & _). rewrite Hch.
    destruct (nth_error (children s0 node) i) as [c|] eqn:Hnth.
    + destruct (Hvisit s1 c Hrel (nth_error_In _ _ Hnth)) as (s2 & Hv & Hs2).
      rewrite Hv.
      destruct (IH (S i) (acc ++ [c])%list s2 fuel Hs2) as (s3 & Hrec & Hs3);
        [lia | lia |].
      exists s3. split; [|assumption].
      rewrite Hrec, (skipn_nth_error _ _ _ Hnth), <- app_assoc. reflexivity.
    + apply nth_error_None in Hnth. lia.
Qed.

Lemma transformer_visit_relinked (fuel : nat) :
  forall s0 s1 root,
    is_finite_tree fuel s0 root = true -> relinked s1 s0 ->
    exists s2, transformer_visit fuel s1 root = Some (s2, RNode root)
               /\ relinked s2 s0.
Proof.
  induction fuel as [|b IH]; intros s0 s1 root Htree Hrel; [discriminate|].
  change (transformer_visit (S b) s1 root)
    with (generic_visit (transformer_visit b) (S b) s1 root).
  unfold generic_visit. rewrite (is_scope_relinked _ _ root Hrel).
  simpl in Htree. destruct (is_scope s0 root) eqn:E.
  - apply andb_true_iff in Htree as (Hlen & Hall). apply Nat.leb_le in Hlen.
    rewrite forallb_forall in Hall.
    destruct (visit_children_relinked (transformer_visit b) s0 root
                (fun s c Hs Hin => IH s0 s c (Hall c Hin) Hs)
                (List.length (children s0 root)) 0 [] s1 (S b) Hrel)
      as (s2 & Hloop & Hs2); [reflexivity | lia |].
    rewrite Hloop. simpl. eexists. split; [reflexivity|].
    now apply relink_relinked.
  - exists s1. split; [reflexivity | assumption].
Qed.

(** C7 (as amended: the parent links stay as they were only where they
    agreed with containment).  A transformer whose visit hands every
    node back unchanged, the class as defined, run on any finite tree
    returns the root and leaves the class and the children list (same
    children, same order) of every object as they were; a parent link
    is left as it was or is assigned a scope that holds the node.  Run
    on a tree whose parent links agree with containment it leaves every
    parent link as it was; the same holds at one scope for any visit
    method that returns its argument and touches no link.  After any
    [generic_visit] of a scope, whatever the visit methods did, every
    node in the resulting children list has the scope as its [parent];
    and for visit methods that only compute a result, the new children
    list is the old one with each child deleted ([None]), replaced (a
    node) or spliced (a sequence) in place. *)
Theorem transformer_keeps_links_consistent :
  (forall fuel s root,
      is_finite_tree fuel s root = true ->
      exists s', transformer_visit fuel s root = Some (s', RNode root)
                 /\ relinked s' s)
  /\ (forall fuel s root,
        is_schedule_tree fuel s root = true ->
        exists s', transformer_visit fuel s root = Some (s', RNode root)
                   /\ same_links s' s)
  /\ (forall visit fuel s node,
        (forall st c, visit st c = Some (st, RNode c)) ->
        List.length (children s node) < fuel ->
        (forall c, In c (children s node) -> parent s c = Some node) ->
        exists s', generic_visit visit fuel s node = Some (s', RNode node)
                   /\ same_links s' s)
  /\ (forall visit fuel s node s' r,
        is_scope s node = true ->
        generic_visit visit fuel s node = Some (s', r) ->
        r = RNode node
        /\ forall c, In c (children s' node) -> parent s' c = Some node)
  /\ (forall f fuel s node,
        is_scope s node = true ->
        List.length (children s node) < fuel ->
        exists s', generic_visit (fun st c => Some (st, f c)) fuel s node
                   = Some (s', RNode node)
                   /\ children s' node
                      = flat_map (fun c => splice (f c)) (children s node)).
Proof.
  split; [|split; [|split; [|split]]].
  - intros fuel s root Htree.
    apply (transformer_visit_relinked fuel s s root Htree (relinked_refl s)).
  - intros fuel s root Htree.
    apply (transformer_visit_unchanged fuel s s root Htree (same_links_refl s)).
  - intros visit fuel s node Hvisit Hlen Hpar.
    apply generic_visit_unchanged; [apply same_links_refl|].
    intros _. split; [assumption|]. split; [assumption|].
    intros st c Hst _. exists st. split; [apply Hvisit | assumption].
  - intros visit fuel s node s' r Hscope Hgv.
    unfold generic_visit in Hgv. rewrite Hscope in Hgv.
    destruct (visit_children visit fuel s node 0 []) as [[s1 vals]|];
      [|discriminate].
    inversion Hgv; subst. split; [reflexivity|].
    intros c Hin. simpl in *. rewrite Nat.eqb_refl in Hin.
    rewrite parent_after_set_parents.
    now rewrite (proj2 (existsb_eqb_In c vals) Hin).
  - intros f fuel s node Hscope Hlen.
    unfold generic_visit. rewrite Hscope.
    rewrite (visit_children_pure f s node (List.length (children s node)) 0 [] fuel)
      by (try reflexivity; assumption).
    eexists. split; [reflexivity|].
    simpl. now rewrite Nat.eqb_refl.
Qed.

(** A [gblock] holding one [break], as the constructors build it:
    [GBlock([BreakNode()])].  The class [GBlock] is a dataclass, whose
    generated constructor assigns [children] and leaves every [parent]
    at its default [None]; only [ScheduleTreeScope.__init__], which the
    generated constructor replaces, assigns the parent of the
    children. *)
Definition built_store : Store :=
  {| class_of := fun n =>
       match n with
       | 0 => inr GBlock
       | _ => inl BreakNode
       end;
     parent := fun _ => None;
     children := fun n =>
       match n with
       | 0 => [1]
       | _ => []
       end |}.

(** C7 (as claimed, it fails).  On the tree the constructors build, the
    transformer that hands every node back changes a parent link: the
    [break] node had no parent and has the [gblock] afterwards, so the
    tree is not left with the same parent links. *)
Lemma identity_transformer_assigns_missing_parent_links :
  exists s',
    transformer_visit 3 built_store 0 = Some (s', RNode 0)
    /\ children s' 0 = children built_store 0
    /\ parent built_store 1 = None
    /\ parent s' 1 = Some 0
    /\ ~ same_links s' built_store.
Proof.
  eexists. split; [reflexivity|]. split; [reflexivity|]. split; [reflexivity|].
  split; [reflexivity|].
  intros H. destruct (H 1) as (_ & Hparent & _). discriminate Hparent.
Qed.

(** A small tree: a [gblock] holding [break] and an [else] scope that
    holds [continue]. *)
Definition sample_store : Store :=
  {| class_of := fun n =>
       match n with
       | 0 => inr GBlock
       | 1 => inl BreakNode
       | 2 => inr ElseScope
       | 3 => inl ContinueNode
       | _ => inl ScheduleTreeNode
       end;
     parent := fun n =>
       match n with
       | 1 => Some 0
       | 2 => Some 0
       | 3 => Some 2
       | _ => None
       end;
     children := fun n =>
       match n with
       | 0 => [1; 2]
       | 2 => [3]
       | _ => []
       end |}.

(** A visit that deletes [break] and splices two nodes in place of the
    [else] scope. *)
Definition sample_rewrite (c : NodeId) : VisitResult :=
  match c with
  | 1 => RNone
  | 2 => RSeq [3; 4]
  | _ => RNode c
  end.

Definition rewritten_store : Store :=
  match generic_visit (fun st c => Some (st, sample_rewrite c)) 3 sample_store 0 with
  | Some (s', _) => s'
  | None => sample_store
  end.

Lemma transformer_keeps_links_consistent_witness :
  (is_finite_tree 3 built_store 0 = true
   /\ exists s', transformer_visit 3 built_store 0 = Some (s', RNode 0)
                 /\ relinked s' built_store)
  /\ (is_schedule_tree 3 sample_store 0 = true
      /\ exists s', transformer_visit 3 sample_store 0 = Some (s', RNode 0)
                    /\ same_links s' sample_store)
  /\ (exists s', generic_visit (fun st c => Some (st, RNode c)) 3 sample_store 0
                 = Some (s', RNode 0)
                 /\ same_links s' sample_store)
  /\ (children rewritten_store 0 = [3; 4]
      /\ parent rewritten_store 3 = Some 0 /\ parent rewritten_store 4 = Some 0)
  /\ (exists s', generic_visit (fun st c => Some (st, sample_rewrite c)) 3 sample_store 0
                 = Some (s', RNode 0)
                 /\ children s' 0 = [3; 4]).
Proof.
  destruct transformer_keeps_links_consistent
    as (Hany_tree & Hid & Hone & Hany & Hsplice).
  split; [|split; [|split; [|split]]].
  - split; [reflexivity|]. apply Hany_tree. reflexivity.
  - split; [reflexivity|]. apply Hid. reflexivity.
  - apply Hone.
    + intros st c. reflexivity.
    + simpl. lia.
    + simpl. intros c [H|[H|[]]]; subst; reflexivity.
  - split; [reflexivity|].
    destruct (Hany (fun st c => Some (st, sample_rewrite c)) 3 sample_store 0
                rewritten_store (RNode 0) eq_refl eq_refl) as (_ & Hpar).
    split; apply Hpar; simpl; auto.
  - apply (Hsplice sample_rewrite 3 sample_store 0); [reflexivity | simpl; lia].
Defined.

(** *** Whole trees: printing, traversal, validation *)

Section ScheduleTree_induction.

Variable P : ScheduleTree -> Prop.
Hypothesis P_Leaf : forall c, P (Leaf c).
Hypothesis P_Scope :
  forall c children, Forall P children -> P (Scope c children).

Fixpoint ScheduleTree_nested_ind (t : ScheduleTree) : P t :=
  match t with
  | Leaf c => P_Leaf c
  | Scope c children =>
      P_Scope c children
        ((fix all (l : list ScheduleTree) : Forall P l :=
            match l with
            | [] => Forall_nil P
            | x :: rest => Forall_cons x (ScheduleTree_nested_ind x) (all rest)
            end) children)
  end.

End ScheduleTree_induction.

Lemma sequence_option_none {A : Type} (l : list (option A)) :
  sequence_option l = None <-> In None l.
Proof.
  induction l as [|[x|] rest IH]; simpl.
  - split; [discriminate | intros []].
  - destruct (sequence_option rest).
    + split; [discriminate|]. intros [H|H]; [discriminate|].
      apply IH in H. discriminate.
    + split; [|reflexivity]. intros _. right. now apply IH.
  - split; auto.
Qed.

Lemma loop_as_string_none (loop : LoopRegion) (indent : nat) (body : string) :
  loop_as_string loop indent body = None <-> loop_condition loop = None.
Proof.
  rewrite loop_as_string_form.
  destruct (loop_condition loop); split; congruence.
Qed.

Lemma scope_as_string_none (c : ScopeClass) (indent : nat) (body : string) :
  scope_as_string c indent body = None <->
  exists loop, c = LoopScope loop /\ loop_condition loop = None.
Proof.
  destruct c; simpl;
    try (split; [discriminate | intros (l & H & _); discriminate]).
  rewrite loop_as_string_none. split.
  - intros H. now exists loop.
  - intros (l & H & Hc). now inversion H; subst.
Qed.

(** X2. [as_string] of a tree raises exactly when the tree holds, at
    any depth, a loop scope whose region has no condition
    ([loop_condition] is [None], whose [as_string] the loop header
    reads); every other tree is printed, whatever the indentation. *)
Theorem as_string_fails_only_for_a_loop_without_condition (t : ScheduleTree) :
  forall indent,
    tree_as_string t indent = None <->
    exists loop children,
      In (Scope (LoopScope loop) children) (preorder_traversal t)
      /\ loop_condition loop = None.
Proof.
  induction t as [c|c children IH] using ScheduleTree_nested_ind; intros indent.
  - simpl. split; [discriminate|].
    intros (loop & cs & [H|[]] & _). discriminate.
  - simpl.
    destruct (sequence_option
                (map (fun child => tree_as_string child (indent + 1)) children))
      as [rendered|] eqn:E.
    + rewrite scope_as_string_none. split.
      * intros (loop & -> & Hc). exists loop, children. auto.
      * intros (loop & cs & [H|H] & Hc).
        -- inversion H; subst. now exists loop.
        -- exfalso. apply in_flat_map in H as (child & Hchild & Hin).
           rewrite Forall_forall in IH.
           assert (Hnone : tree_as_string child (indent + 1) = None).
           { apply (IH child Hchild). now exists loop, cs. }
           assert (sequence_option
                     (map (fun child => tree_as_string child (indent + 1)) children)
                   = None); [|congruence].
           apply sequence_option_none. rewrite <- Hnone.
           now apply (in_map (fun child => tree_as_string child (indent + 1))).
    + split; [intros _|reflexivity].
      apply sequence_option_none in E.
      apply in_map_iff in E as (child & Hnone & Hchild).
      rewrite Forall_forall in IH.
      apply (IH child Hchild) in Hnone as (loop & cs & Hin & Hc).
      exists loop, cs. split; [|assumption].
      right. apply in_flat_map. now exists child.
Qed.

Lemma flat_map_blocks (children : list ScheduleTree) :
  Forall (fun t => forall u, In u (preorder_traversal t) ->
            exists before after,
              preorder_traversal t = (before ++ preorder_traversal u ++ after)%list)
         children ->
  forall u, In u (flat_map preorder_traversal children) ->
    exists before after,
      flat_map preorder_traversal children
      = (before ++ preorder_traversal u ++ after)%list.
Proof.
  induction 1 as [|child rest Hchild Hrest IH]; intros u Hin; [destruct Hin|].
  simpl in *. apply in_app_or in Hin as [Hin|Hin].
  - destruct (Hchild u Hin) as (b & a & Heq).
    exists b, (a ++ flat_map preorder_traversal rest)%list.
    rewrite Heq. now rewrite <- !app_assoc.
  - destruct (IH u Hin) as (b & a & Heq).
    exists (preorder_traversal child ++ b)%list, a.
    rewrite Heq. now rewrite <- !app_assoc.
Qed.

(** X3. [preorder_traversal] yields the node itself first, and every
    node it yields is followed at once by that node's whole subtree:
    the traversal of any yielded node is a contiguous block of the
    traversal of the root. *)
Theorem preorder_traversal_yields_subtrees_as_blocks (t : ScheduleTree) :
  (exists rest, preorder_traversal t = t :: rest)
  /\ (forall u, In u (preorder_traversal t) ->
        exists before after,
          preorder_traversal t = (before ++ preorder_traversal u ++ after)%list).
Proof.
  split; [destruct t; simpl; eauto|].
  induction t as [c|c children IH] using ScheduleTree_nested_ind; intros u Hin.
  - destruct Hin as [<-|[]]. exists [], []. reflexivity.
  - destruct Hin as [<-|Hin].
    + exists [], []. now rewrite app_nil_r.
    + destruct (flat_map_blocks children IH u Hin) as (b & a & Heq).
      exists (Scope c children :: b), a. simpl. now rewrite Heq.
Qed.

(** **** [validate_has_no_other_node_types] *)

(** An object found in the [children] list of a scope: a node of a
    class without children, a scope with its own [children] list, or
    an object of some other type, known by [type(child).__name__]. *)
Inductive Child :=
| ChildNode (c : LeafClass)
| ChildScope (c : ScopeClass) (children : list Child)
| ChildOther (type_name : string).

(** How the validation ends: it returns, or raises [RuntimeError(msg)]. *)
Inductive Validation :=
| Validated
| RuntimeError (msg : string).

(** The loop [for child in stree.children], given what its body does
    for one child: it stops at the first exception. *)
Definition for_each_child (body : Child -> Validation)
  : list Child -> Validation :=
  fix loop (children : list Child) : Validation :=
    match children with
    | [] => Validated
    | child :: rest =>
        match body child with
        | Validated => loop rest
        | raised => raised
        end
    end.

(** The body of the loop for one child: the two [isinstance] tests,
    the second with the recursive call. *)
Fixpoint validate_child (child : Child) : Validation :=
  match child with
  | ChildOther type_name => RuntimeError ("Unsupported node type: " ++ type_name)
  | ChildNode _ => Validated
  | ChildScope _ children => for_each_child validate_child children
  end.

(** [validate_has_no_other_node_types(stree)], given [stree.children]. *)
Definition validate_has_no_other_node_types (children : list Child) : Validation :=
  for_each_child validate_child children.

(** A schedule tree as a child object. *)
Fixpoint as_child (t : ScheduleTree) : Child :=
  match t with
  | Leaf c => ChildNode c
  | Scope c children => ChildScope c (map as_child children)
  end.

(** The type names of the objects at or below a child that are no
    schedule tree nodes, in pre-order. *)
Fixpoint other_types (child : Child) : list string :=
  match child with
  | ChildOther type_name => [type_name]
  | ChildNode _ => []
  | ChildScope _ children => flat_map other_types children
  end.

Section Child_induction.

Variable P : Child -> Prop.
Hypothesis P_node : forall c, P (ChildNode c).
Hypothesis P_other : forall type_name, P (ChildOther type_name).
Hypothesis P_scope : forall c children, Forall P children -> P (ChildScope c children).

Fixpoint Child_nested_ind (child : Child) : P child :=
  match child with
  | ChildNode c => P_node c
  | ChildOther type_name => P_other type_name
  | ChildScope c children =>
      P_scope c children
        ((fix all (l : list Child) : Forall P l :=
            match l with
            | [] => Forall_nil P
            | x :: rest => Forall_cons x (Child_nested_ind x) (all rest)
            end) children)
  end.

End Child_induction.

Definition verdict (others : list string) : Validation :=
  match others with
  | [] => Validated
  | type_name :: _ => RuntimeError ("Unsupported node type: " ++ type_name)
  end.

Lemma for_each_child_verdict (children : list Child) :
  Forall (fun child => validate_child child = verdict (other_types child)) children ->
  for_each_child validate_child children = verdict (flat_map other_types children).
Proof.
  induction 1 as [|child rest Hchild _ IH]; simpl; [reflexivity|].
  rewrite Hchild, IH.
  destruct (other_types child); reflexivity.
Qed.

Lemma validate_child_verdict (child : Child) :
  validate_child child = verdict (other_types child).
Proof.
  induction child as [c|type_name|c children IH] using Child_nested_ind;
    simpl; try reflexivity.
  now apply for_each_child_verdict.
Qed.

Lemma other_types_as_child (t : ScheduleTree) : other_types (as_child t) = [].
Proof.
  induction t as [c|c children IH] using ScheduleTree_nested_ind; simpl;
    [reflexivity|].
  induction IH as [|child rest Hchild _ IHrest]; simpl; [reflexivity|].
  now rewrite Hchild.
Qed.

(** X4. [validate_has_no_other_node_types] returns when every object
    below the scope, through any nesting of scopes, is a schedule tree
    node, and otherwise raises [RuntimeError] naming the type of the
    first object in pre-order that is none; the nodes after it are not
    looked at.  On a tree made of schedule tree nodes only it always
    returns. *)
Theorem validation_reports_the_first_foreign_object (children : list Child) :
  validate_has_no_other_node_types children
  = match flat_map other_types children with
    | [] => Validated
    | type_name :: _ => RuntimeError ("Unsupported node type: " ++ type_name)
    end
  /\ (forall trees : list ScheduleTree,
        validate_has_no_other_node_types (map as_child trees) = Validated).
Proof.
  split.
  - unfold validate_has_no_other_node_types.
    apply for_each_child_verdict, Forall_forall.
    intros child _. apply validate_child_verdict.
  - intros trees. unfold validate_has_no_other_node_types.
    rewrite for_each_child_verdict
      by (apply Forall_forall; intros child _; apply validate_child_verdict).
    replace (flat_map other_types (map as_child trees)) with (@nil string);
      [reflexivity|].
    induction trees as [|t rest IH]; simpl; [reflexivity|].
    now rewrite other_types_as_child.
Qed.

(** **** Relative indentation of the printer *)

Definition is_line_break (c : ascii) : bool := Nat.eqb (nat_of_ascii c) 10.

(** The text holds no line break. *)
Fixpoint single_line (s : string) : bool :=
  match s with
  | EmptyString => true
  | String c rest => negb (is_line_break c) && single_line rest
  end.

(** The text with [INDENTATION] put after each of its line breaks. *)
Fixpoint indent_lines (s : string) : string :=
  match s with
  | EmptyString => EmptyString
  | String c rest =>
      if is_line_break c then String c (INDENTATION ++ indent_lines rest)
      else String c (indent_lines rest)
  end.

(** The text with every line moved one level to the right:
    [newline.join(INDENTATION + line for line in s.split(newline))]. *)
Definition indented (s : string) : string := INDENTATION ++ indent_lines s.

(** The texts a scope class puts into its header and footer lines. *)
Definition header_texts (c : ScopeClass) : list string :=
  match c with
  | ScheduleTreeScope | ControlFlowScope | DataflowScope | GBlock | ElseScope => []
  | LoopScope loop =>
      [text_of (init_statement loop); text_of (loop_condition loop);
       text_of (update_statement loop)]
  | IfScope cond | StateIfScope cond | ElifScope cond => [as_string cond]
  | MapScope params range | PipelineScope params range => (params ++ range)%list
  | ConsumeScope pe_index num_pes condition => [pe_index; num_pes; text_of condition]
  end.

(** The loop is printed in the form with a conditional [break]. *)
Definition is_do_for (c : ScopeClass) : bool :=
  match c with
  | LoopScope loop =>
      match _check_loop_variant loop with V_do_for => true | _ => false end
  | _ => false
  end.

(** Every leaf prints on one line, no header text holds a line break,
    and no loop is of the [do-for] form. *)
Fixpoint line_per_node (t : ScheduleTree) : bool :=
  match t with
  | Leaf c => single_line (leaf_as_string c 0)
  | Scope c children =>
      forallb single_line (header_texts c) && negb (is_do_for c)
      && forallb line_per_node children
  end.

Lemma indent_lines_app (a b : string) :
  indent_lines (a ++ b) = indent_lines a ++ indent_lines b.
Proof.
  induction a as [|c a IH]; simpl; [reflexivity|].
  destruct (is_line_break c); simpl; rewrite IH; [|reflexivity].
  reflexivity.
Qed.

Lemma indent_lines_single (s : string) : single_line s = true -> indent_lines s = s.
Proof.
  induction s as [|c s IH]; simpl; [reflexivity|].
  destruct (is_line_break c); simpl; [discriminate|].
  intros H. now rewrite IH.
Qed.

Lemma single_line_app (a b : string) :
  single_line (a ++ b) = single_line a && single_line b.
Proof.
  induction a as [|c a IH]; simpl; [reflexivity|].
  rewrite IH. now rewrite andb_assoc.
Qed.

Lemma single_line_join (sep : string) (l : list string) :
  single_line sep = true -> forallb single_line l = true ->
  single_line (join sep l) = true.
Proof.
  intros Hsep. induction l as [|x rest IH]; simpl; [reflexivity|].
  intros H. apply andb_true_iff in H as (Hx & Hrest).
  destruct rest as [|y rest]; [assumption|].
  rewrite !single_line_app, Hx, Hsep. simpl. now apply IH.
Qed.

Lemma ind_succ (n : nat) : ind (n + 1) = INDENTATION ++ ind n.
Proof.
  unfold ind. induction n as [|n IH]; simpl; [reflexivity|].
  rewrite IH. reflexivity.
Qed.

Lemma single_line_ind (n : nat) : single_line (ind n) = true.
Proof. unfold ind. induction n as [|n IH]; simpl; [reflexivity | assumption]. Qed.

Lemma indent_lines_ind (n : nat) : indent_lines (ind n) = ind n.
Proof. apply indent_lines_single, single_line_ind. Qed.

Lemma leaf_as_string_indent (c : LeafClass) (indent : nat) :
  leaf_as_string c indent = ind indent ++ leaf_as_string c 0.
Proof.
  destruct c; simpl; try reflexivity.
  - destruct (truthy_str (memlets_text out_memlets)); reflexivity.
  - destruct src_codenode; reflexivity.
Qed.

Lemma join_indented (l : list string) :
  l <> [] -> join newline (map indented l) = indented (join newline l).
Proof.
  induction l as [|x rest IH]; [congruence|]. intros _.
  destruct rest as [|y rest]; [reflexivity|].
  change (join newline (map indented (x :: y :: rest)))
    with (indented x ++ newline ++ join newline (map indented (y :: rest))).
  rewrite IH by discriminate.
  change (join newline (x :: y :: rest)) with (x ++ newline ++ join newline (y :: rest)).
  unfold indented. rewrite !indent_lines_app. 
  rewrite !string_app_assoc. reflexivity.
Qed.

Lemma scope_body_indented (indent : nat) (rendered : list string) :
  scope_body (indent + 1) (map indented rendered)
  = indented (scope_body indent rendered).
Proof.
  destruct rendered as [|x rest].
  - simpl. unfold indented. rewrite indent_lines_app, indent_lines_ind.
    rewrite (ind_succ (indent + 1)). now rewrite string_app_assoc.
  - change (scope_body (indent + 1) (map indented (x :: rest)))
      with (join newline (map indented (x :: rest))).
    now rewrite join_indented.
Qed.

Ltac shift_text :=
  unfold indented, newline;
  repeat (simpl;
          rewrite ?indent_lines_app, ?indent_lines_ind, ?ind_succ, ?string_app_assoc);
  repeat match goal with
         | H : single_line ?s = true |- _ =>
             rewrite (indent_lines_single s H)
         end;
  repeat (simpl; rewrite ?string_app_assoc).

Lemma loop_as_string_indented (loop : LoopRegion) (indent : nat) (body : string) :
  forallb single_line (header_texts (LoopScope loop)) = true ->
  is_do_for (LoopScope loop) = false ->
  loop_as_string loop (indent + 1) (indented body)
  = option_map indented (loop_as_string loop indent body).
Proof.
  intros Htexts Hform. rewrite !loop_as_string_form.
  simpl in Htexts, Hform.
  apply andb_true_iff in Htexts as (Hi & Htexts).
  apply andb_true_iff in Htexts as (Hc & Htexts).
  apply andb_true_iff in Htexts as (Hu & _).
  destruct (loop_condition loop) as [cond|]; [|reflexivity].
  simpl in Hc. simpl option_map. f_equal.
  destruct (_check_loop_variant loop); try discriminate; unfold printed_form;
    shift_text; reflexivity.
Qed.

Lemma scope_as_string_indented (c : ScopeClass) (indent : nat) (body : string) :
  forallb single_line (header_texts c) = true -> is_do_for c = false ->
  scope_as_string c (indent + 1) (indented body)
  = option_map indented (scope_as_string c indent body).
Proof.
  intros Htexts Hform.
  destruct c; try (now apply loop_as_string_indented).
  all: simpl in Htexts; rewrite ?forallb_app in Htexts;
    repeat match goal with
           | H : _ && _ = true |- _ => apply andb_true_iff in H as (? & H)
           end.
  all: try match goal with
       | Hp : forallb single_line ?p = true, Hr : forallb single_line ?r = true |- _ =>
           pose proof (single_line_join ", " p eq_refl Hp);
           pose proof (single_line_join ", " r eq_refl Hr)
       end.
  all: try (destruct condition as [cnd|]; simpl in * ).
  all: unfold scope_as_string, option_map; try reflexivity; f_equal; shift_text;
    try reflexivity.
Qed.

Lemma children_as_string_indented (children : list ScheduleTree) (indent : nat) :
  Forall (fun child => forall indent,
            tree_as_string child (indent + 1)
            = option_map indented (tree_as_string child indent)) children ->
  sequence_option (map (fun child => tree_as_string child (indent + 1 + 1)) children)
  = option_map (map indented)
      (sequence_option (map (fun child => tree_as_string child (indent + 1)) children)).
Proof.
  induction 1 as [|child rest Hchild _ IH]; simpl; [reflexivity|].
  rewrite Hchild, IH.
  destruct (tree_as_string child (indent + 1)); simpl; [|reflexivity].
  destruct (sequence_option
              (map (fun child => tree_as_string child (indent + 1)) rest));
    reflexivity.
Qed.

(** X5. Indentation is relative.  For a tree in which every leaf
    prints on one line, no header text (condition, statement, map
    parameter or range, consume clause) holds a line break, and no loop
    is printed in the [do-for] form (whose text, unlike all others,
    ends with a line break), [as_string(indent + 1)] is
    [as_string(indent)] with [INDENTATION] put in front of every
    line. *)
Theorem as_string_indents_every_line (t : ScheduleTree) :
  line_per_node t = true ->
  forall indent,
    tree_as_string t (indent + 1) = option_map indented (tree_as_string t indent).
Proof.
  induction t as [c|c children IH] using ScheduleTree_nested_ind;
    intros Hlines indent.
  - simpl in *. f_equal.
    rewrite (leaf_as_string_indent c (indent + 1)), (leaf_as_string_indent c indent).
    unfold indented.
    rewrite indent_lines_app, indent_lines_ind, (indent_lines_single _ Hlines),
      ind_succ, string_app_assoc. reflexivity.
  - simpl in Hlines. apply andb_true_iff in Hlines as (Hhead & Hchildren).
    apply andb_true_iff in Hhead as (Htexts & Hform).
    apply negb_true_iff in Hform.
    assert (Hall : Forall (fun child => forall indent,
                     tree_as_string child (indent + 1)
                     = option_map indented (tree_as_string child indent)) children).
    { rewrite Forall_forall in *. rewrite forallb_forall in Hchildren.
      intros child Hin. apply (IH child Hin). now apply Hchildren. }
    simpl. rewrite (children_as_string_indented children indent Hall).
    destruct (sequence_option
                (map (fun child => tree_as_string child (indent + 1)) children))
      as [rendered|]; simpl; [|reflexivity].
    rewrite scope_body_indented.
    now apply scope_as_string_indented.
Qed.

(** [if i > 3:] holding [break] and an empty [else:]. *)
Definition guarded_break : ScheduleTree :=
  Scope (IfScope {| as_string := "i > 3" |})
        [Leaf BreakNode; Scope ElseScope []].

Lemma as_string_indents_every_line_witness :
  tree_as_string guarded_break 1
  = option_map indented (tree_as_string guarded_break 0).
Proof. apply (as_string_indents_every_line guarded_break eq_refl 0). Defined.

End Treenodes.

(* ================================================================== *)
(** ** framecode.py *)

Module Framecode.

(** *** Exceptions and results *)

(** The exceptions of the module's own code, and [OtherError] for an
    exception of any other class, by the name of the class, that a call
    into another module raises. *)
Inductive Exception :=
| TypeError (msg : string)
| NotImplementedError (msg : string)
| KeyError
| IndexError
| AttributeError
| OtherError (name : string).

(** The outcome of running a piece of the generator: a value, a raised
    exception, or no outcome within the number of loop iterations
    granted. *)
Inductive Result (A : Type) :=
| Ok (a : A)
| Raise (e : Exception)
| Diverge.

Arguments Ok {A} a.
Arguments Raise {A} e.
Arguments Diverge {A}.

Definition bind {A B : Type} (r : Result A) (k : A -> Result B) : Result B :=
  match r with
  | Ok a => k a
  | Raise e => Raise e
  | Diverge => Diverge
  end.

Notation "x <- r ;; k" := (bind r (fun x => k))
  (at level 61, r at next level, right associativity).

(** *** Text clean-up at the end of [generate_code]

    Text is a sequence of code points below 256. *)

Definition code (c : ascii) : nat := nat_of_ascii c.

(** [\s] of [re] on [str], and the characters [str.strip()] removes:
    the code points for which [str.isspace] holds. *)
Definition is_space (c : ascii) : bool :=
  let n := code c in
  (Nat.leb 9 n && Nat.leb n 13) || (Nat.leb 28 n && Nat.leb n 32)
  || Nat.eqb n 133 || Nat.eqb n 160.

Definition is_newline (c : ascii) : bool := Nat.eqb (code c) 10.

(** [[a-zA-Z_]]. *)
Definition is_ident_start (c : ascii) : bool :=
  let n := code c in
  (Nat.leb 97 n && Nat.leb n 122) || (Nat.leb 65 n && Nat.leb n 90) || Nat.eqb n 95.

(** [[a-zA-Z_0-9]]. *)
Definition is_ident_char (c : ascii) : bool :=
  is_ident_start c || (Nat.leb 48 (code c) && Nat.leb (code c) 57).

Definition is_char (x : string) (c : ascii) : bool :=
  match x with
  | String y EmptyString => Ascii.eqb y c
  | _ => false
  end.

(** [s.split(chr(10))]. *)
Fixpoint split_lines (s : string) : list string :=
  match s with
  | EmptyString => [""]
  | String c rest =>
      if is_newline c then "" :: split_lines rest
      else match split_lines rest with
           | [] => [String c ""]
           | line :: more => String c line :: more
           end
  end.

(** [\s*] at the head of the text: what follows it. *)
Fixpoint skip_spaces (s : string) : string :=
  match s with
  | String c rest => if is_space c then skip_spaces rest else s
  | EmptyString => s
  end.

(** [line.strip()] is the empty string. *)
Definition strip_is_empty (line : string) : bool :=
  match skip_spaces line with
  | EmptyString => true
  | _ => false
  end.

(** [re.match(r'^\s*;\s*', line)] finds a match. *)
Definition matches_semicolon (line : string) : bool :=
  match skip_spaces line with
  | String c _ => is_char ";" c
  | EmptyString => false
  end.

(** [s] with the prefix [p] removed, when it starts with it. *)
Fixpoint strip_prefix (p s : string) : option string :=
  match p, s with
  | EmptyString, _ => Some s
  | String a p', String b s' => if Ascii.eqb a b then strip_prefix p' s' else None
  | String _ _, EmptyString => None
  end.

(** [[a-zA-Z_0-9]*], greedy: the characters taken and the rest. *)
Fixpoint take_ident (s : string) : string * string :=
  match s with
  | String c rest =>
      if is_ident_char c then
        let (taken, r) := take_ident rest in (String c taken, r)
      else ("", s)
  | EmptyString => ("", s)
  end.

(** The label search of the clean-up, [re.findall] on one line with the
    pattern: start of text, white space, a captured identifier (a
    letter or underscore, then letters, digits, underscores), a colon,
    white space, an optional semicolon, white space, four slashes, and
    anything up to the end.  The result is the captured label, or
    nothing.  Character classes that follow one another are disjoint,
    so the match is found without backtracking. *)
Definition find_label (line : string) : option string :=
  match skip_spaces line with
  | String c rest =>
      if is_ident_start c then
        let (taken, after) := take_ident rest in
        match after with
        | String colon after_colon =>
            if is_char ":" colon then
              let s1 := skip_spaces after_colon in
              let s2 := match s1 with
                        | String semi r => if is_char ";" semi then r else s1
                        | EmptyString => s1
                        end in
              match strip_prefix "////" (skip_spaces s2) with
              | Some _ => Some (String c taken)
              | None => None
              end
            else None
        | EmptyString => None
        end
      else None
  | EmptyString => None
  end.

(** [(.*?);] at the head of the text: the shortest run of characters
    other than a line break that a semicolon follows, and its length. *)
Fixpoint until_semicolon (s : string) : option (string * nat) :=
  match s with
  | EmptyString => None
  | String c rest =>
      if is_char ";" c then Some ("", 0)
      else if is_newline c then None
      else match until_semicolon rest with
           | Some (captured, n) => Some (String c captured, S n)
           | None => None
           end
  end.

(** [re.findall(r'goto (.*?);', text)]: matches are taken left to
    right and do not overlap; [skip] counts the characters of the
    current match still to pass. *)
Fixpoint findall_goto (skip : nat) (s : string) : list string :=
  match s with
  | EmptyString => []
  | String _ rest =>
      match skip with
      | S k => findall_goto k rest
      | O =>
          match strip_prefix "goto " s with
          | Some after =>
              match until_semicolon after with
              | Some (captured, n) => captured :: findall_goto (5 + n) rest
              | None => findall_goto 0 rest
              end
          | None => findall_goto 0 rest
          end
      end
  end.

(** [x in l] on a list of strings. *)
Definition str_in (x : string) (l : list string) : bool :=
  existsb (String.eqb x) l.

(** [collections.Counter(l)[x]]. *)
Definition counter (l : list string) (x : string) : nat :=
  List.length (filter (String.eqb x) l).

(** [needle in hay] on strings. *)
Fixpoint str_contains (needle hay : string) : bool :=
  match strip_prefix needle hay with
  | Some _ => true
  | None =>
      match hay with
      | String _ rest => str_contains needle rest
      | EmptyString => false
      end
  end.

(** [s[:-k]] for [k >= 1]. *)
Definition drop_last (k : nat) (s : string) : string :=
  substring 0 (String.length s - k) s.

(** One iteration of the clean-up loop over the lines; the loop state
    is [(clean_code, last_line)]. *)
Definition clean_line (gotos : list string) (st : string * string) (line : string)
  : string * string :=
  let (clean_code, last_line) := st in
  if strip_is_empty line then st
  else if matches_semicolon line then st
  else
    let keep := (clean_code ++ line ++ newline, line) in
    match find_label line with
    | Some label =>
        if negb (str_in label gotos) then (clean_code, "")
        else if str_contains ("goto " ++ label ++ ";") last_line
                && Nat.eqb (counter gotos label) 1
        then (drop_last (String.length last_line + 1) clean_code, "")
        else keep
    | None => keep
    end.

(** The clean-up of the generated code: [clean_code] as returned. *)
Definition clean_up (generated_code : string) : string :=
  let gotos := findall_goto 0 generated_code in
  fst (fold_left (clean_line gotos) (split_lines generated_code) ("", "")).

(** *** Data types and the custom-type part of [generate_fileheader] *)

(** What the frame code reads of a [dtypes.typeclass] object (the
    classes are declared outside these sources): its C type name, its
    size in bytes, and the text [emit_definition()] returns when the
    object has that method. *)
Record TypeInfo := {
  ctype : string;
  bytes : Z;
  emit_definition : option string
}.

(** [dtypes.pointer] with its [_typeclass], [dtypes.struct] with its
    [fields], and every other type class. *)
Inductive typeclass :=
| plain (info : TypeInfo)
| pointer (info : TypeInfo) (_typeclass : typeclass)
| struct (info : TypeInfo) (fields : list (string * typeclass)).

Definition info_of (t : typeclass) : TypeInfo :=
  match t with
  | plain i => i
  | pointer i _ => i
  | struct i _ => i
  end.

(** The text of a type's definition (empty when it has none). *)
Definition definition_of (t : typeclass) : string :=
  match emit_definition (info_of t) with
  | Some d => d
  | None => ""
  end.

(** The type itself and every type reached through pointer and
    struct-field nesting. *)
Fixpoint nested_types (t : typeclass) : list typeclass :=
  t :: match t with
       | plain _ => []
       | pointer _ base => nested_types base
       | struct _ fields => flat_map (fun f => nested_types (snd f)) fields
       end.

(** The loop state of the custom-type section: what was written to
    [global_stream], and the set [emitted]. *)
Record HeaderState := {
  global_stream : list string;
  emitted : list typeclass
}.

Definition write (st : HeaderState) (text : string) : HeaderState :=
  {| global_stream := global_stream st ++ [text]; emitted := emitted st |}.

Section CustomTypes.

(** How a Python set compares type objects ([__eq__] and [__hash__] of
    the type classes, or identity when a class defines neither). *)
Variable same_type : typeclass -> typeclass -> bool.

(** [t in s]. *)
Definition in_set (t : typeclass) (s : list typeclass) : bool :=
  existsb (same_type t) s.

(** [s.add(t)]. *)
Definition set_add (s : list typeclass) (t : typeclass) : list typeclass :=
  if in_set t s then s else t :: s.

(** The set [datatypes]: the [dtype] of every array that is not
    [None]. *)
Definition datatypes (array_dtypes : list (option typeclass)) : list typeclass :=
  fold_left (fun s a => match a with Some t => set_add s t | None => s end)
            array_dtypes [].

(** The closure [_emit_definitions]. *)
Fixpoint _emit_definitions (dtype : typeclass) (wrote_something : bool)
  (st : HeaderState) : bool * HeaderState :=
  let inner :=
    match dtype with
    | pointer _ base => _emit_definitions base wrote_something st
    | struct _ fields =>
        (fix over_fields (fs : list (string * typeclass)) (w : bool)
             (s : HeaderState) : bool * HeaderState :=
           match fs with
           | [] => (w, s)
           | f :: rest =>
               let (w', s') := _emit_definitions (snd f) w s in
               over_fields rest w' s'
           end) fields wrote_something st
    | plain _ => (wrote_something, st)
    end in
  let (w1, st1) := inner in
  match emit_definition (info_of dtype) with
  | Some definition =>
      let st2 := if w1 then st1 else write st1 "" in
      if in_set dtype (emitted st2) then (w1, st2)
      else (true, {| global_stream := global_stream st2 ++ [definition];
                     emitted := dtype :: emitted st2 |})
  | None => (w1, st1)
  end.

(** The loop [for typ in datatypes] over the set in the order given. *)
Fixpoint emit_each (order : list typeclass) (wrote_something : bool)
  (st : HeaderState) : bool * HeaderState :=
  match order with
  | [] => (wrote_something, st)
  | typ :: rest =>
      let (w, st') := _emit_definitions typ wrote_something st in
      emit_each rest w st'
  end.

(** The custom-type section of [generate_fileheader]; [order] is the
    order in which the set [datatypes] is iterated. *)
Definition emit_custom_types (order : list typeclass) : HeaderState :=
  let (wrote_something, st) :=
    emit_each order false {| global_stream := []; emitted := [] |} in
  if wrote_something then write st "" else st.

End CustomTypes.

(** *** The program representation read by the frame code

    The SDFG classes are declared outside these sources.  Objects are
    named by identity (a number); what the frame code reads of them is
    given by the accessors of [Program] below. *)

(** [dtypes.StorageType]; a member is known by its name. *)
Module StorageType.
Record t := { name : string }.
Definition CPU_ThreadLocal : t := {| name := "CPU_ThreadLocal" |}.
Definition CPU_Heap : t := {| name := "CPU_Heap" |}.
Definition eqb (a b : t) : bool := String.eqb (name a) (name b).
End StorageType.

(** [dtypes.ScheduleType]; a member is known by its name. *)
Module ScheduleType.
Record t := { name : string }.
Definition Sequential : t := {| name := "Sequential" |}.
End ScheduleType.

(** [dtypes.AllocationLifetime]: the six members the frame code
    names, and any member added to the (extensible) enumeration. *)
Module AllocationLifetime.
Inductive t :=
| Scope
| State
| SDFG
| Global
| Persistent
| External
| Other (name : string).
End AllocationLifetime.

(** A data descriptor ([data.Data]).  [total_size] is the value of the
    size expression; [is_View] is [isinstance(desc, data.View)]. *)
Record Data := {
  transient : bool;
  storage : StorageType.t;
  lifetime : AllocationLifetime.t;
  dtype : typeclass;
  total_size : Z;
  is_View : bool
}.

(** An SDFG object, named by its [cfg_id]. *)
Definition SDFG := nat.

(** A state object. *)
Definition SDFGState := nat.

(** [str(n)] for a natural number. *)
Definition str_of_nat (n : nat) : string := NilEmpty.string_of_uint (Nat.to_uint n).

(** Python dictionaries of lists ([collections.defaultdict(list)]) in
    insertion order. *)
Section Dict.

Context {K V : Type}.
Variable key_eqb : K -> K -> bool.

(** [d[k].append(v)]. *)
Fixpoint dict_append (d : list (K * list V)) (k : K) (v : V) : list (K * list V) :=
  match d with
  | [] => [(k, [v])]
  | (k', l) :: rest =>
      if key_eqb k k' then (k', (l ++ [v])%list) :: rest
      else (k', l) :: dict_append rest k v
  end.

(** [d[k]], the empty list for a missing key. *)
Fixpoint dict_get (d : list (K * list V)) (k : K) : list V :=
  match d with
  | [] => []
  | (k', l) :: rest => if key_eqb k k' then l else dict_get rest k
  end.

End Dict.

(** *** [generate_external_memory_management] *)

Section ExternalMemory.

(** [sym2cpp], [mangle_dace_state_struct_name(sdfg)] and the text
    [initparams_comma] computed from [sdfg.init_signature]. *)
Variable sym2cpp : Z -> string.
Variable state_struct_name : string.
Variable initparams_comma : string.

(** [sdfg.arrays_recursive()]. *)
Variable arrays_recursive : list (SDFG * string * Data).











End ExternalMemory.

(** *** Objects of the dataflow graph *)

(** [s.split('.')[0]]. *)
Fixpoint before_dot (s : string) : string :=
  match s with
  | EmptyString => ""
  | String c rest => if is_char "." c then "" else String c (before_dot rest)
  end.

(** An access node: a node of some state's graph ([guid] is its
    identity there), or one made on the spot by [nodes.AccessNode(name)]
    ([guid] is [None]). *)
Record AccessNode := {
  guid : option nat;
  data : string
}.

(** [node.root_data]. *)
Definition root_data (n : AccessNode) : string := before_dot (data n).

(** A scope entry node (map, consume, pipeline entry). *)
Record EntryNode := {
  entry_guid : nat;
  schedule : ScheduleType.t
}.

Inductive Node :=
| N_AccessNode (n : AccessNode)
| N_EntryNode (e : EntryNode)
| N_Other (guid : nat).

(** A control-flow block; states are blocks. *)
Definition ControlFlowBlock := nat.

(** The objects a buffer can be allocated in, and the keys of
    [to_allocate]: an SDFG, a state (a block), or an entry node. *)
Inductive ScopeRef :=
| OfSDFG (g : SDFG)
| OfState (s : SDFGState)
| OfEntry (e : EntryNode).

(** The symbols of an inter-state edge: [e.data.free_symbols], and
    [e.data.used_symbols(all_symbols=False)] when the object has that
    method. *)
Record InterstateEdge := {
  edge_free_symbols : list string;
  edge_used_symbols : option (list string)
}.

(** What the planner reads of the program: for every SDFG and state
    object the values of the attributes and methods named. *)
Record Program := {
  (** [sdfg.arrays], [sdfg.constants_prop] (its keys), [sdfg.states()]. *)
  arrays : SDFG -> list (string * Data);
  constants_prop : SDFG -> list string;
  states : SDFG -> list SDFGState;
  (** [sdfg.all_interstate_edges()]. *)
  all_interstate_edges : SDFG -> list InterstateEdge;
  (** [cfg.used_symbols(all_symbols=True, with_contents=False)] for each
      [cfg] of [sdfg.all_control_flow_regions()]. *)
  region_used_symbols : SDFG -> list (list string);
  (** [sdfg.shared_transients(check_toplevel=False, include_nested_data=True)]. *)
  shared_transients : SDFG -> list string;
  (** [sdfg.parent_nsdfg_node], [sdfg.parent], [sdfg.parent_sdfg]. *)
  parent_nsdfg_node : SDFG -> option Node;
  parent : SDFG -> option SDFGState;
  parent_sdfg : SDFG -> option SDFG;
  (** [state.parent], [state.data_nodes()], [state.nodes()],
      [state.parent_graph.all_edges(state)], [state.scope_dict()[node]],
      [state.entry_node(node)]. *)
  state_parent : SDFGState -> SDFG;
  data_nodes : SDFGState -> list AccessNode;
  nodes : SDFGState -> list Node;
  all_edges : SDFGState -> list InterstateEdge;
  scope_dict : SDFGState -> Node -> option EntryNode;
  entry_node : SDFGState -> Node -> option EntryNode;
  (** [top_sdfg.arrays_recursive(include_nested_data=True)]. *)
  arrays_recursive_nested : list (SDFG * string * Data)
}.

(** The result of [utils.get_control_flow_block_dominators] for one
    SDFG; [alldoms] and [allpostdoms] are [defaultdict]s of sets. *)
Record Dominators := {
  idom : ControlFlowBlock -> option ControlFlowBlock;
  alldoms : ControlFlowBlock -> list ControlFlowBlock;
  ipostdom : ControlFlowBlock -> option ControlFlowBlock;
  allpostdoms : ControlFlowBlock -> list ControlFlowBlock
}.

(** The functions of other modules the planner calls.  The call of
    [common_parent_scope] is kept with every outcome it can have; the
    other functions are read as the values they return. *)
Record Collaborators := {
  (** [dtypes.can_allocate], [dtypes.FPGA_STORAGES], [dtypes.GPU_STORAGES]. *)
  can_allocate : StorageType.t -> ScheduleType.t -> bool;
  FPGA_STORAGES : list StorageType.t;
  GPU_STORAGES : list StorageType.t;
  (** [sdscope.is_devicelevel_fpga], [sdscope.is_devicelevel_gpu]. *)
  is_devicelevel_fpga : option SDFG -> option SDFGState -> option EntryNode -> bool;
  is_devicelevel_gpu : option SDFG -> option SDFGState -> option EntryNode -> bool;
  (** [sdscope.common_parent_scope(state.scope_dict(), a, b)]: the scope
      it returns, the exception it raises, or no outcome when it does
      not come back. *)
  common_parent_scope : SDFGState -> ScopeRef -> ScopeRef -> Result (option ScopeRef);
  (** [utils.is_nonfree_sym_dependent]. *)
  is_nonfree_sym_dependent :
    option AccessNode -> Data -> option SDFGState -> list string -> bool;
  (** [utils.get_control_flow_block_dominators]. *)
  get_control_flow_block_dominators : SDFG -> Dominators;
  (** [StateReachability().apply_pass(top_sdfg, {})[cfg_id][state]]. *)
  reachability : SDFG -> SDFGState -> list SDFGState;
  (** [desc.as_arg(name=...)]. *)
  as_arg : Data -> string -> string;
  (** [self.symbols_and_constants(sdfg)], filled by [__init__]. *)
  symbols_and_constants : SDFG -> list string;
  (** [cfg_analysis.blockorder_topological_sort(sdfg, ignore_nonstate_blocks=True)]. *)
  blockorder_topological_sort : SDFG -> list SDFGState
}.

(** One entry of [to_allocate]:
    [(sdfg, state, node, declare, allocate, deallocate)]. *)
Definition Action : Type :=
  SDFG * option SDFGState * option AccessNode * bool * bool * bool.

Definition declare_flag (a : Action) : bool :=
  match a with (_, _, _, d, _, _) => d end.
Definition allocate_flag (a : Action) : bool :=
  match a with (_, _, _, _, al, _) => al end.
Definition deallocate_flag (a : Action) : bool :=
  match a with (_, _, _, _, _, de) => de end.

(** Identity of the keys of [to_allocate] ([None] is a possible key). *)
Definition scope_eqb (a b : option ScopeRef) : bool :=
  match a, b with
  | None, None => true
  | Some (OfSDFG x), Some (OfSDFG y) => Nat.eqb x y
  | Some (OfState x), Some (OfState y) => Nat.eqb x y
  | Some (OfEntry x), Some (OfEntry y) => Nat.eqb (entry_guid x) (entry_guid y)
  | _, _ => false
  end.

Definition buffer_eqb (a b : SDFG * string) : bool :=
  Nat.eqb (fst a) (fst b) && String.eqb (snd a) (snd b).

(** [d[k] = v] on a dictionary in insertion order. *)
Fixpoint dict_set {K V : Type} (key_eqb : K -> K -> bool) (d : list (K * V))
  (k : K) (v : V) : list (K * V) :=
  match d with
  | [] => [(k, v)]
  | (k', v') :: rest =>
      if key_eqb k k' then (k', v) :: rest
      else (k', v') :: dict_set key_eqb rest k v
  end.

(** [d.get(k)]. *)
Fixpoint dict_lookup {K V : Type} (key_eqb : K -> K -> bool) (d : list (K * V))
  (k : K) : option V :=
  match d with
  | [] => None
  | (k', v) :: rest => if key_eqb k k' then Some v else dict_lookup key_eqb rest k
  end.

(** The fields of the code generator the planner assigns. *)
Record Generator := {
  statestruct : list string;
  to_allocate : list (option ScopeRef * list Action);
  where_allocated : list ((SDFG * string) * option SDFG)
}.

(** [self.to_allocate[scope].append(action)]. *)
Definition add_action (self : Generator) (scope : option ScopeRef) (action : Action)
  : Generator :=
  {| statestruct := statestruct self;
     to_allocate := dict_append scope_eqb (to_allocate self) scope action;
     where_allocated := where_allocated self |}.

(** [self.where_allocated[(sdfg, name)] = where]. *)
Definition set_where (self : Generator) (sdfg : SDFG) (name : string)
  (where_ : option SDFG) : Generator :=
  {| statestruct := statestruct self;
     to_allocate := to_allocate self;
     where_allocated := dict_set buffer_eqb (where_allocated self) (sdfg, name) where_ |}.

(** [self.statestruct.append(definition)]. *)
Definition add_field (self : Generator) (definition : string) : Generator :=
  {| statestruct := (statestruct self ++ [definition])%list;
     to_allocate := to_allocate self;
     where_allocated := where_allocated self |}.

(** The character [chr(34)]. *)
Definition quote : string := String (ascii_of_nat 34) EmptyString.

(** *** [_get_dominator_and_postdominator] *)

Definition block_in (b : ControlFlowBlock) (l : list ControlFlowBlock) : bool :=
  existsb (Nat.eqb b) l.

(** The sets after [alldoms[state].add(state)] for every occurrence
    state. *)
Definition with_self (occurrences : list ControlFlowBlock)
  (doms : ControlFlowBlock -> list ControlFlowBlock) (n : ControlFlowBlock)
  : list ControlFlowBlock :=
  if block_in n occurrences then n :: doms n else doms n.

Definition dominator_message (data_name : string) : string :=
  "Could not find an appropriate dominator for allocation of "
    ++ quote ++ data_name ++ quote.

Definition postdominator_message (data_name : string) : string :=
  "Could not find an appropriate post-dominator for deallocation of "
    ++ quote ++ data_name ++ quote.

(** The two [while] loops of the function have one shape: while some
    occurrence lacks the candidate in its set, move to the candidate's
    immediate (post-)dominator, and raise when that is the candidate
    itself.  [imm] is [idom] or [ipostdom], [sets] the matching sets,
    [msg] the text of the error. *)
Fixpoint common_ancestor_loop (fuel : nat)
  (imm : ControlFlowBlock -> option ControlFlowBlock)
  (sets : ControlFlowBlock -> list ControlFlowBlock)
  (occurrences : list ControlFlowBlock) (msg : string)
  (candidate : ControlFlowBlock) : Result ControlFlowBlock :=
  if existsb (fun n => negb (block_in candidate (sets n))) occurrences then
    match imm candidate with
    | None => Raise KeyError
    | Some next =>
        if Nat.eqb next candidate then Raise (NotImplementedError msg)
        else
          match fuel with
          | O => Diverge
          | S fuel' => common_ancestor_loop fuel' imm sets occurrences msg next
          end
    end
  else Ok candidate.

(** [_get_dominator_and_postdominator(sdfg, accesses)], given the
    dominator information of [sdfg]. *)
Definition _get_dominator_and_postdominator (fuel : nat) (D : Dominators)
  (accesses : list (SDFGState * AccessNode))
  : Result (ControlFlowBlock * ControlFlowBlock) :=
  let occurrences := map fst accesses in
  match accesses with
  | [] => Raise IndexError
  | (first_state, first_node) :: _ =>
      let data_name := data first_node in
      let doms := with_self occurrences (alldoms D) in
      let postdoms := with_self occurrences (allpostdoms D) in
      start_state <- common_ancestor_loop fuel (idom D) doms occurrences
                       (dominator_message data_name) first_state ;;
      end_state <- common_ancestor_loop fuel (ipostdom D) postdoms occurrences
                     (postdominator_message data_name)
                     (last occurrences first_state) ;;
      Ok (start_state, end_state)
  end.

(** *** The lifetime planner: [determine_allocation_lifetime] *)

Section Planner.

Variable G : Program.
Variable X : Collaborators.

(** The argument [top_sdfg]. *)
Variable top_sdfg : SDFG.

Definition TOP_SCHEDULE : ScheduleType.t := ScheduleType.Sequential.

(** [_get_schedule]; [fuel] bounds the number of SDFGs it goes up. *)
Fixpoint _get_schedule (fuel : nat) (scope : option ScopeRef)
  : Result ScheduleType.t :=
  let of_sdfg (sdfg : SDFG) : Result ScheduleType.t :=
    match parent_nsdfg_node G sdfg with
    | None => Ok TOP_SCHEDULE
    | Some nsdfg_node =>
        match parent G sdfg with
        | None => Raise AttributeError
        | Some pstate =>
            match fuel with
            | O => Diverge
            | S fuel' =>
                match entry_node G pstate nsdfg_node with
                | Some pscope => _get_schedule fuel' (Some (OfEntry pscope))
                | None => _get_schedule fuel' (Some (OfState pstate))
                end
            end
        end
    end in
  match scope with
  | None => Ok TOP_SCHEDULE
  | Some (OfEntry e) => Ok (schedule e)
  | Some (OfSDFG g) => of_sdfg g
  | Some (OfState st) => of_sdfg (state_parent G st)
  end.

Definition storage_in (st : StorageType.t) (l : list StorageType.t) : bool :=
  existsb (StorageType.eqb st) l.

(** [_can_allocate]. *)
Definition _can_allocate (fuel : nat) (sdfg : option SDFG) (state : option SDFGState)
  (desc : Data) (scope : option ScopeRef) : Result bool :=
  schedule <- _get_schedule fuel scope ;;
  if can_allocate X (storage desc) schedule then Ok true
  else
    let node := match scope with Some (OfEntry e) => Some e | _ => None end in
    let cstate := match scope with Some (OfState st) => Some st | _ => state end in
    let csdfg := match scope with Some (OfSDFG g) => Some g | _ => sdfg end in
    if storage_in (storage desc) (FPGA_STORAGES X)
    then Ok (is_devicelevel_fpga X csdfg cstate node)
    else if storage_in (storage desc) (GPU_STORAGES X)
    then Ok (is_devicelevel_gpu X csdfg cstate node)
    else Ok false.

(** The keys of [sdfg.arrays]. *)
Definition array_names (sdfg : SDFG) : list string := map fst (arrays G sdfg).

(** [sdfg.arrays[name]]. *)
Definition lookup_array (sdfg : SDFG) (name : string) : option Data :=
  dict_lookup String.eqb (arrays G sdfg) name.

(** What one state contributes to [instances[name]]: its data nodes of
    that name, then one fresh access node if the name is a free symbol
    of an edge around the state. *)
Definition instances_in_state (sdfg : SDFG) (name : string) (state : SDFGState)
  : list (SDFGState * AccessNode) :=
  (map (fun node => (state, node))
       (filter (fun node => str_in (data node) (array_names sdfg)
                            && String.eqb (data node) name)
               (data_nodes G state))
   ++ (if str_in name (flat_map edge_free_symbols (all_edges G state))
          && str_in name (array_names sdfg)
       then [(state, {| guid := None; data := name |})]
       else []))%list.

(** [access_instances[sdfg.cfg_id][name]], the dictionary read at one
    key: the contributions of the states in topological order. *)
Definition access_instances (sdfg : SDFG) (name : string)
  : list (SDFGState * AccessNode) :=
  flat_map (instances_in_state sdfg name) (blockorder_topological_sort X sdfg).

(** [instances.get(name, [(None, None)])[0]] and [...[-1]]. *)
Definition first_instance (l : list (SDFGState * AccessNode))
  : option SDFGState * option AccessNode :=
  match l with
  | [] => (None, None)
  | (st, node) :: _ => (Some st, Some node)
  end.

Definition last_instance (l : list (SDFGState * AccessNode))
  : option SDFGState * option AccessNode :=
  first_instance (rev l).

(** [self.free_symbols(isedge.data)]. *)
Definition free_symbols (e : InterstateEdge) : list string :=
  match edge_used_symbols e with
  | Some used => used
  | None => edge_free_symbols e
  end.

(** The two loops that set [multistate] for a [Scope] buffer named in
    an inter-state edge or in the symbols of a control-flow region. *)
Definition named_in_control_flow (sdfg : SDFG) (name : string) : bool :=
  existsb (fun isedge => str_in name (free_symbols isedge))
          (all_interstate_edges G sdfg)
  || existsb (fun block_syms => str_in name block_syms)
             (region_used_symbols G sdfg).

(** The loop over the states for [State] lifetime: [(curstate,
    multistate)] at its end. *)
Fixpoint state_lifetime_loop (name : string) (sts : list SDFGState)
  (curstate : option SDFGState) : option SDFGState * bool :=
  match sts with
  | [] => (curstate, false)
  | state :: rest =>
      if existsb (fun n => String.eqb (data n) name) (data_nodes G state) then
        match curstate with
        | Some _ => (curstate, true)
        | None => state_lifetime_loop name rest (Some state)
        end
      else state_lifetime_loop name rest curstate
  end.

Definition node_is_entry (e : EntryNode) (n : Node) : bool :=
  match n with
  | N_EntryNode e' => Nat.eqb (entry_guid e) (entry_guid e')
  | _ => false
  end.

(** The loop over the nodes of one state for [Scope] lifetime:
    [(curscope, curstate, multistate)] at its end. *)
Fixpoint scope_nodes_loop (name : string) (state : SDFGState) (ns : list Node)
  (curscope : option ScopeRef) (curstate : option SDFGState)
  : Result (option ScopeRef * option SDFGState * bool) :=
  match ns with
  | [] => Ok (curscope, curstate, false)
  | N_AccessNode node :: rest =>
      if negb (String.eqb (root_data node) name)
      then scope_nodes_loop name state rest curscope curstate
      else if match curstate with
              | Some cs => negb (Nat.eqb cs state)
              | None => false
              end
      then Ok (curscope, curstate, true)
      else
        let scope := match scope_dict G state (N_AccessNode node) with
                     | Some e => OfEntry e
                     | None => OfState state
                     end in
        match curscope, scope with
        | None, _ => scope_nodes_loop name state rest (Some scope) (Some state)
        | Some _, OfState _ =>
            scope_nodes_loop name state rest (Some scope) (Some state)
        | Some (OfState cur), OfEntry e =>
            if existsb (node_is_entry e) (nodes G cur)
            then scope_nodes_loop name state rest curscope (Some state)
            else
              common <- common_parent_scope X state scope (OfState cur) ;;
              scope_nodes_loop name state rest common (Some state)
        | Some cur, _ =>
            common <- common_parent_scope X state scope cur ;;
            scope_nodes_loop name state rest common (Some state)
        end
  | _ :: rest => scope_nodes_loop name state rest curscope curstate
  end.

(** The loop over the states for [Scope] lifetime. *)
Fixpoint scope_states_loop (name : string) (sts : list SDFGState)
  (curscope : option ScopeRef) (curstate : option SDFGState)
  : Result (option ScopeRef * option SDFGState * bool) :=
  match sts with
  | [] => Ok (curscope, curstate, false)
  | state :: rest =>
      found <- scope_nodes_loop name state (nodes G state) curscope curstate ;;
      match found with
      | (sc, cs, true) => Ok (sc, cs, true)
      | (sc, cs, false) => scope_states_loop name rest sc cs
      end
  end.

Definition lifetime_text (l : AllocationLifetime.t) : string :=
  "AllocationLifetime."
    ++ match l with
       | AllocationLifetime.Scope => "Scope"
       | AllocationLifetime.State => "State"
       | AllocationLifetime.SDFG => "SDFG"
       | AllocationLifetime.Global => "Global"
       | AllocationLifetime.Persistent => "Persistent"
       | AllocationLifetime.External => "External"
       | AllocationLifetime.Other name => name
       end.

(** The result of the case analysis that picks the starting scope:
    [alloc_scope], [alloc_state], and whether the buffer is passed
    over as unused ([continue]). *)
Definition Candidate : Type := option ScopeRef * option SDFGState * bool.

(** The cases after the [Persistent], [External] and [Global] ones:
    shared or [SDFG] lifetime, [State] lifetime, [Scope] lifetime, and
    the final [else]. *)
Definition candidate_scope (sdfg : SDFG) (name : string) (desc : Data)
  (top_lifetime : AllocationLifetime.t)
  (first_state_instance : option SDFGState) (first_node_instance : option AccessNode)
  : Result Candidate :=
  let is_SDFG := match top_lifetime with
                 | AllocationLifetime.SDFG => true
                 | _ => false
                 end in
  if str_in name (shared_transients G sdfg) || is_SDFG then
    Ok (Some (OfSDFG sdfg), first_state_instance,
        match first_node_instance with None => true | Some _ => false end)
  else
    match top_lifetime with
    | AllocationLifetime.State =>
        match state_lifetime_loop name (states G sdfg) None with
        | (_, true) => Ok (Some (OfSDFG sdfg), None, false)
        | (curstate, false) => Ok (option_map OfState curstate, curstate, false)
        end
    | AllocationLifetime.Scope =>
        found <- (if named_in_control_flow sdfg name then Ok (None, None, true)
                  else scope_states_loop name (states G sdfg) None None) ;;
        match found with
        | (_, _, true) => Ok (Some (OfSDFG sdfg), None, false)
        | (curscope, curstate, false) => Ok (curscope, curstate, false)
        end
    | _ =>
        Raise (TypeError ("Unrecognized allocation lifetime "
                            ++ quote ++ lifetime_text (lifetime desc) ++ quote))
    end.

(** One pass through the body of the loop that climbs the scope tree,
    from a scope that cannot hold the descriptor: the next
    [(cursdfg, curstate, curscope)]. *)
Definition climb_once (cursdfg : option SDFG) (curstate : option SDFGState)
  (curscope : ScopeRef)
  : Result (option SDFG * option SDFGState * option ScopeRef) :=
  let one_sdfg_up (g : SDFG) :=
    match parent_nsdfg_node G g with
    | None => Ok (None, None, None)
    | Some nsdfg_node =>
        match parent G g with
        | None => Raise AttributeError
        | Some pstate =>
            Ok (parent_sdfg G g, Some pstate,
                option_map OfEntry (entry_node G pstate nsdfg_node))
        end
    end in
  match curscope with
  | OfEntry e =>
      match curstate with
      | None => Raise AttributeError
      | Some cs =>
          match entry_node G cs (N_EntryNode e) with
          | Some outer => Ok (cursdfg, curstate, Some (OfEntry outer))
          | None => Ok (cursdfg, curstate, Some (OfState cs))
          end
      end
  | OfSDFG g => one_sdfg_up g
  | OfState st => one_sdfg_up (state_parent G st)
  end.

(** The loop climbing the scope tree until the descriptor can be
    allocated: [(cursdfg, curstate, curscope)] at its end. *)
Fixpoint climb (fuel : nat) (desc : Data) (cursdfg : option SDFG)
  (curstate : option SDFGState) (curscope : option ScopeRef)
  : Result (option SDFG * option SDFGState * option ScopeRef) :=
  allocatable <- _can_allocate fuel cursdfg curstate desc curscope ;;
  if allocatable then Ok (cursdfg, curstate, curscope)
  else
    match curscope with
    | None => Ok (cursdfg, curstate, curscope)
    | Some sc =>
        next <- climb_once cursdfg curstate sc ;;
        match fuel with
        | O => Diverge
        | S fuel' => climb fuel' desc (fst (fst next)) (snd (fst next)) (snd next)
        end
    end.

Definition is_entry_scope (sc : ScopeRef) : bool :=
  match sc with
  | OfEntry _ => true
  | _ => false
  end.

Definition state_eqb (a b : option SDFGState) : bool :=
  match a, b with
  | Some x, Some y => Nat.eqb x y
  | None, None => true
  | _, _ => false
  end.

(** [inst in reachability[sdfg.cfg_id][first_state_instance]] where
    [inst] is a [(state, node)] tuple and the set holds states: a tuple
    never equals a state, so the test is false for every instance. *)
Definition instance_in_states (inst : SDFGState * AccessNode)
  (reachable : list SDFGState) : bool :=
  false.

(** The view case: an allocate and a deallocate action at every
    occurrence. *)
Definition allocate_view_everywhere (self : Generator) (sdfg : SDFG)
  (instances : list (SDFGState * AccessNode)) : Generator :=
  fold_left
    (fun acc inst =>
       let s := fst inst in
       let n := snd inst in
       add_action
         (add_action acc (Some (OfState s)) (sdfg, Some s, Some n, false, true, false))
         (Some (OfState s)) (sdfg, Some s, Some n, false, false, true))
    instances self.

(** The last part of the loop body, from the check for non-free symbol
    dependence to the entry in [where_allocated]. *)
Definition record_actions (fuel : nat) (self : Generator) (sdfg : SDFG)
  (name : string) (desc : Data) (instances : list (SDFGState * AccessNode))
  (cursdfg : option SDFG) (curscope : ScopeRef) : Result Generator :=
  let (first_state_instance, first_node_instance) := first_instance instances in
  let (last_state_instance, last_node_instance) := last_instance instances in
  let fsymbols := symbols_and_constants X sdfg in
  if negb (is_entry_scope curscope)
     && is_nonfree_sym_dependent X first_node_instance desc first_state_instance fsymbols
  then
    if negb (state_eqb first_state_instance last_state_instance) then
      if is_View desc then
        Ok (set_where (allocate_view_everywhere self sdfg instances) sdfg name cursdfg)
      else
        declared <-
          (if existsb
                (fun inst =>
                   negb (instance_in_states inst
                           (match first_state_instance with
                            | Some fs => reachability X sdfg fs
                            | None => []
                            end)))
                instances
           then
             doms <- _get_dominator_and_postdominator fuel
                       (get_control_flow_block_dominators X sdfg) instances ;;
             Ok (add_action self (Some curscope)
                   (sdfg, None, Some {| guid := None; data := name |},
                    true, false, false),
                 Some (fst doms), Some (snd doms))
           else
             Ok (add_action self (Some curscope)
                   (sdfg, first_state_instance, first_node_instance,
                    true, false, false),
                 first_state_instance, last_state_instance)) ;;
        let self1 := fst (fst declared) in
        let first_state := snd (fst declared) in
        let last_state := snd declared in
        let self2 := add_action self1 (option_map OfState first_state)
                       (sdfg, first_state, first_node_instance, false, true, false) in
        let self3 := add_action self2 (option_map OfState last_state)
                       (sdfg, last_state, last_node_instance, false, false, true) in
        Ok (set_where self3 sdfg name cursdfg)
    else
      Ok (set_where
            (add_action self (option_map OfState first_state_instance)
               (sdfg, first_state_instance, first_node_instance, true, true, true))
            sdfg name cursdfg)
  else
    Ok (set_where
          (add_action self (Some curscope)
             (sdfg, first_state_instance, first_node_instance, true, true, true))
          sdfg name
          (match curscope with
           | OfSDFG g => Some g
           | _ => cursdfg
           end)).

(** The state-structure field of a buffer. *)
Definition field_definition (sdfg : SDFG) (name : string) (desc : Data) : string :=
  as_arg X desc ("__" ++ str_of_nat sdfg ++ "_" ++ name) ++ ";".

(** The body of the loop [for sdfg, name, desc in
    top_sdfg.arrays_recursive(include_nested_data=True)]. *)
Definition plan_array (fuel : nat) (self : Generator) (entry : SDFG * string * Data)
  : Result Generator :=
  let sdfg := fst (fst entry) in
  let name := snd (fst entry) in
  let desc := snd entry in
  match lookup_array sdfg (before_dot name) with
  | None => Raise KeyError
  | Some top_desc =>
      if negb (transient top_desc) then Ok self
      else if str_in name (constants_prop G sdfg) then Ok self
      else
        let instances := access_instances sdfg name in
        let (first_state_instance, first_node_instance) := first_instance instances in
        match lifetime top_desc with
        | AllocationLifetime.Persistent | AllocationLifetime.External =>
            match first_node_instance with
            | None => Ok self
            | Some _ =>
                let self1 :=
                  if negb (StorageType.eqb (storage top_desc) StorageType.CPU_ThreadLocal)
                  then add_field self (field_definition sdfg name desc)
                  else self in
                Ok (set_where
                      (add_action self1 (Some (OfSDFG top_sdfg))
                         (sdfg, first_state_instance, first_node_instance,
                          true, true, true))
                      sdfg name (Some top_sdfg))
            end
        | AllocationLifetime.Global =>
            match first_node_instance with
            | None => Ok self
            | Some _ =>
                Ok (set_where
                      (add_action (add_field self (field_definition sdfg name desc))
                         (Some (OfSDFG top_sdfg))
                         (sdfg, first_state_instance, first_node_instance,
                          true, true, true))
                      sdfg name (Some top_sdfg))
            end
        | top_lifetime =>
            cand <- candidate_scope sdfg name desc top_lifetime
                      first_state_instance first_node_instance ;;
            match cand with
            | (_, _, true) => Ok self
            | (None, _, false) => Ok self
            | (Some alloc_scope, alloc_state, false) =>
                reached <- climb fuel desc (Some sdfg) alloc_state (Some alloc_scope) ;;
                let cursdfg := fst (fst reached) in
                let curscope := match snd reached with
                                | None => OfSDFG top_sdfg
                                | Some sc => sc
                                end in
                record_actions fuel self sdfg name desc instances cursdfg curscope
            end
        end
  end.

(** The loop over the arrays. *)
Fixpoint plan_arrays (fuel : nat) (self : Generator)
  (entries : list (SDFG * string * Data)) : Result Generator :=
  match entries with
  | [] => Ok self
  | entry :: rest =>
      self' <- plan_array fuel self entry ;;
      plan_arrays fuel self' rest
  end.

(** [determine_allocation_lifetime(top_sdfg)], run on a generator whose
    fields are [self]; [fuel] bounds the number of iterations of each
    [while] loop and the depth of [_get_schedule]. *)
Definition determine_allocation_lifetime (fuel : nat) (self : Generator)
  : Result Generator :=
  plan_arrays fuel self (arrays_recursive_nested G).

End Planner.

(** A generator as [__init__] leaves it. *)
Definition new_generator : Generator :=
  {| statestruct := []; to_allocate := []; where_allocated := [] |}.

(** *** Properties of the custom-type section *)

Section typeclass_induction.

Variable P : typeclass -> Prop.
Hypothesis P_plain : forall i, P (plain i).
Hypothesis P_pointer : forall i base, P base -> P (pointer i base).
Hypothesis P_struct :
  forall i fields, Forall (fun f => P (snd f)) fields -> P (struct i fields).

Fixpoint typeclass_nested_ind (t : typeclass) : P t :=
  match t with
  | plain i => P_plain i
  | pointer i base => P_pointer i base (typeclass_nested_ind base)
  | struct i fields =>
      P_struct i fields
        ((fix all (fs : list (string * typeclass)) : Forall (fun f => P (snd f)) fs :=
            match fs with
            | [] => Forall_nil _
            | f :: rest => Forall_cons f (typeclass_nested_ind (snd f)) (all rest)
            end) fields)
  end.

End typeclass_induction.

Section CustomTypesFacts.

Variable same_type : typeclass -> typeclass -> bool.
Hypothesis same_refl : forall t, same_type t t = true.
Hypothesis same_sym : forall a b, same_type a b = true -> same_type b a = true.
Hypothesis same_trans :
  forall a b c, same_type a b = true -> same_type b c = true -> same_type a c = true.

(** How many members of a set compare equal to [t]. *)
Definition count_same (t : typeclass) (s : list typeclass) : nat :=
  List.length (filter (same_type t) s).

Definition has_definition (t : typeclass) : Prop :=
  emit_definition (info_of t) <> None.

(** No two members compare equal. *)
Fixpoint distinct (s : list typeclass) : Prop :=
  match s with
  | [] => True
  | x :: rest => in_set same_type x rest = false /\ distinct rest
  end.

(** What the loop maintains between any two steps. *)
Record Inv (w : bool) (st : HeaderState) : Prop := {
  inv_wrote : w = match emitted st with [] => false | _ => true end;
  inv_stream : global_stream st =
               if w then "" :: map definition_of (rev (emitted st)) else [];
  inv_distinct : distinct (emitted st);
  inv_defined : forall e, In e (emitted st) -> has_definition e
}.

Lemma in_set_cons (t x : typeclass) (s : list typeclass) :
  in_set same_type t s = true -> in_set same_type t (x :: s) = true.
Proof. unfold in_set. simpl. intros ->. apply orb_true_r. Qed.

Lemma count_same_one (t : typeclass) (s : list typeclass) :
  distinct s -> in_set same_type t s = true -> count_same t s = 1.
Proof.
  unfold count_same. induction s as [|x rest IH]; simpl; [discriminate|].
  intros (Hx & Hd) Hin. destruct (same_type t x) eqn:E; simpl.
  - f_equal. apply length_zero_iff_nil.
    destruct (filter (same_type t) rest) as [|y ys] eqn:F; [reflexivity|].
    exfalso.
    assert (Hy : In y (filter (same_type t) rest)) by (rewrite F; now left).
    apply filter_In in Hy as (Hy & Hty).
    assert (Hxy : same_type x y = true)
      by (apply same_trans with t; [now apply same_sym | assumption]).
    unfold in_set in Hx.
    assert (Hex : existsb (same_type x) rest = true)
      by (apply existsb_exists; now exists y).
    congruence.
  - apply IH; [assumption|]. unfold in_set in *. simpl in Hin.
    rewrite ?E in Hin. exact Hin.
Qed.

(** The part of a step that handles the type itself, after its nested
    types. *)
Definition emit_own (dtype : typeclass) (w1 : bool) (st1 : HeaderState)
  : bool * HeaderState :=
  match emit_definition (info_of dtype) with
  | Some definition =>
      let st2 := if w1 then st1 else write st1 "" in
      if in_set same_type dtype (emitted st2) then (w1, st2)
      else (true, {| global_stream := global_stream st2 ++ [definition];
                     emitted := dtype :: emitted st2 |})
  | None => (w1, st1)
  end.

(** What one call guarantees, as a relation between the state before
    and after, for the types in [visited]. *)
Record Step (visited : list typeclass) (w : bool) (st : HeaderState)
  (w' : bool) (st' : HeaderState) : Prop := {
  step_inv : Inv w' st';
  step_keeps : forall t, in_set same_type t (emitted st) = true ->
                         in_set same_type t (emitted st') = true;
  step_covers : forall t, In t visited -> has_definition t ->
                          in_set same_type t (emitted st') = true;
  step_origin : forall e, In e (emitted st') ->
                          In e (emitted st) \/ (In e visited /\ has_definition e)
}.

Lemma Step_refl (w : bool) (st : HeaderState) : Inv w st -> Step [] w st w st.
Proof.
  intros H. split; auto; intros t [].
Qed.

Lemma Step_trans (v1 v2 : list typeclass) (w0 w1 w2 : bool) (s0 s1 s2 : HeaderState) :
  Step v1 w0 s0 w1 s1 -> Step v2 w1 s1 w2 s2 -> Step (v1 ++ v2)%list w0 s0 w2 s2.
Proof.
  intros [I1 K1 C1 O1] [I2 K2 C2 O2]. split.
  - assumption.
  - auto.
  - intros t Hin Hd. apply in_app_or in Hin as [Hin|Hin]; auto.
  - intros e He. destruct (O2 e He) as [H|[H Hd]].
    + destruct (O1 e H) as [H'|[H' Hd]]; [now left|].
      right. split; [apply in_or_app; now left | assumption].
    + right. split; [apply in_or_app; now right | assumption].
Qed.

Lemma emit_own_step (dtype : typeclass) (w : bool) (st : HeaderState) :
  Inv w st ->
  Step [dtype] w st (fst (emit_own dtype w st)) (snd (emit_own dtype w st)).
Proof.
  intros [Hw Hs Hd Hdef]. unfold emit_own.
  destruct (emit_definition (info_of dtype)) as [definition|] eqn:E.
  - assert (Hem : forall b : bool, emitted (if b then st else write st "") = emitted st)
      by (intros []; reflexivity).
    rewrite Hem.
    destruct (in_set same_type dtype (emitted st)) eqn:Hin; simpl.
    + (* already emitted: then something was written before *)
      destruct w.
      2:{ destruct (emitted st); discriminate. }
      split.
      * split; assumption.
      * auto.
      * intros t [<-|[]] _. assumption.
      * intros e He. now left.
    + split.
      * split; simpl.
        -- reflexivity.
        -- assert (Hthis : definition_of dtype = definition)
             by (unfold definition_of; now rewrite E).
           destruct w; simpl; rewrite Hs.
           ++ rewrite map_app. simpl. now rewrite Hthis.
           ++ assert (emitted st = []) as ->
                by (destruct (emitted st); [reflexivity | discriminate]).
              simpl. now rewrite Hthis.
        -- split; assumption.
        -- intros e [<-|He]; [unfold has_definition; congruence | auto].
      * intros t Ht. now apply in_set_cons.
      * intros t [<-|[]] _. unfold in_set. simpl. now rewrite same_refl.
      * intros e [<-|He]; [|now left].
        right. split; [now left | unfold has_definition; congruence].
  - simpl. split.
    + split; assumption.
    + auto.
    + intros t [<-|[]] Hd'. unfold has_definition in Hd'. congruence.
    + intros e He. now left.
Qed.

Lemma emit_definitions_unfold (dtype : typeclass) (w : bool) (st : HeaderState) :
  _emit_definitions same_type dtype w st =
  let inner :=
    match dtype with
    | pointer _ base => _emit_definitions same_type base w st
    | struct _ fields =>
        fold_left (fun acc f => _emit_definitions same_type (snd f) (fst acc) (snd acc))
                  fields (w, st)
    | plain _ => (w, st)
    end in
  emit_own dtype (fst inner) (snd inner).
Proof.
  destruct dtype as [i|i base|i fields]; simpl.
  - reflexivity.
  - destruct (_emit_definitions same_type base w st); reflexivity.
  - match goal with
    | |- (let (w1, st1) := ?L in _) = emit_own _ (fst ?R) (snd ?R) =>
        assert (HLR : L = R)
    end.
    { generalize w st. induction fields as [|f rest IH]; intros w0 st0; simpl.
      - reflexivity.
      - destruct (_emit_definitions same_type (snd f) w0 st0) as [w' s'].
        simpl. apply IH. }
    rewrite HLR.
    destruct (fold_left _ fields (w, st)); reflexivity.
Qed.

Lemma Step_visited_incl (v v' : list typeclass) w st w' st' :
  (forall t, In t v' -> In t v) -> (forall t, In t v -> In t v') ->
  Step v w st w' st' -> Step v' w st w' st'.
Proof.
  intros H1 H2 [I K C O]. split; auto.
  intros e He. destruct (O e He) as [H|[H Hd]]; auto.
Qed.

Lemma emit_definitions_step (dtype : typeclass) :
  forall w st, Inv w st ->
    Step (nested_types dtype) w st
         (fst (_emit_definitions same_type dtype w st))
         (snd (_emit_definitions same_type dtype w st)).
Proof.
  induction dtype as [i|i base IH|i fields IH] using typeclass_nested_ind;
    intros w st HI; rewrite emit_definitions_unfold; cbv zeta.
  - simpl fst; simpl snd.
    apply (Step_visited_incl [plain i]); [simpl; tauto | simpl; tauto |].
    now apply emit_own_step.
  - pose proof (IH w st HI) as Hbase.
    pose proof (emit_own_step (pointer i base) _ _ (step_inv _ _ _ _ _ Hbase)) as Hown.
    apply (Step_visited_incl (nested_types base ++ [pointer i base])%list).
    + simpl. intros t [<-|Ht]; apply in_or_app; simpl; auto.
    + intros t Ht. apply in_app_or in Ht as [Ht|[<-|[]]]; simpl; auto.
    + exact (Step_trans _ _ _ _ _ _ _ _ Hbase Hown).
  - assert (Hfields :
      forall w0 st0, Inv w0 st0 ->
        let r := fold_left
                   (fun acc f => _emit_definitions same_type (snd f) (fst acc) (snd acc))
                   fields (w0, st0) in
        Step (flat_map (fun f => nested_types (snd f)) fields) w0 st0 (fst r) (snd r)).
    { induction IH as [|f rest Hf Hrest IHrest]; intros w0 st0 HI0; simpl.
      - now apply Step_refl.
      - pose proof (Hf w0 st0 HI0) as Hhead.
        pose proof (IHrest _ _ (step_inv _ _ _ _ _ Hhead)) as Htail.
        simpl in Htail.
        rewrite <- surjective_pairing in Htail.
        exact (Step_trans _ _ _ _ _ _ _ _ Hhead Htail). }
    pose proof (Hfields w st HI) as Hinner. simpl in Hinner.
    pose proof (emit_own_step (struct i fields) _ _ (step_inv _ _ _ _ _ Hinner)) as Hown.
    apply (Step_visited_incl
             (flat_map (fun f => nested_types (snd f)) fields ++ [struct i fields])%list).
    + simpl. intros t [<-|Ht]; apply in_or_app; simpl; auto.
    + intros t Ht. apply in_app_or in Ht as [Ht|[<-|[]]]; simpl; auto.
    + exact (Step_trans _ _ _ _ _ _ _ _ Hinner Hown).
Qed.

Lemma emit_each_step (order : list typeclass) :
  forall w st, Inv w st ->
    Step (flat_map nested_types order) w st
         (fst (emit_each same_type order w st))
         (snd (emit_each same_type order w st)).
Proof.
  induction order as [|typ rest IH]; intros w st HI; simpl.
  - now apply Step_refl.
  - pose proof (emit_definitions_step typ w st HI) as Hhead.
    destruct (_emit_definitions same_type typ w st) as [w' st'] eqn:E.
    simpl in Hhead.
    exact (Step_trans _ _ _ _ _ _ _ _ Hhead (IH w' st' (step_inv _ _ _ _ _ Hhead))).
Qed.

Lemma datatypes_holds_every_dtype (array_dtypes : list (option typeclass)) (t : typeclass) :
  In (Some t) array_dtypes ->
  in_set same_type t (datatypes same_type array_dtypes) = true.
Proof.
  unfold datatypes.
  assert (Hmono : forall l s,
    in_set same_type t s = true ->
    in_set same_type t
      (fold_left (fun s a => match a with Some t => set_add same_type s t | None => s end)
                 l s) = true).
  { induction l as [|a l IH]; intros s Hs; simpl; [assumption|].
    apply IH. destruct a as [u|]; [|assumption].
    unfold set_add. destruct (in_set same_type u s); [assumption|].
    now apply in_set_cons. }
  generalize (@nil typeclass).
  induction array_dtypes as [|a l IH]; intros s Hin; [destruct Hin|].
  destruct Hin as [Heq|Hin]; simpl.
  - subst a. apply Hmono. unfold set_add.
    destruct (in_set same_type t s) eqn:E; [assumption|].
    unfold in_set. simpl. now rewrite same_refl.
  - now apply IH.
Qed.

(** C9 (as amended: types are told apart by the comparison of the
    set, not by identity).  In the file header, of the custom types
    used by a buffer (also those reached through pointer or
    struct-field nesting) that compare equal to one another, exactly
    one has its definition written, once, however many buffers or
    sub-programs refer to them and in whatever order the set of types
    is walked: for every such type with a definition the set [emitted]
    holds exactly one member equal to it, only types with a definition
    that some buffer reaches are emitted, and the stream receives the
    definitions of the members of [emitted] once each, in the order
    they were added, between two empty writes. *)
Theorem custom_type_definitions_emitted_once
  (array_dtypes : list (option typeclass)) (order : list typeclass) :
  (forall t, In t order <-> In t (datatypes same_type array_dtypes)) ->
  let st := emit_custom_types same_type order in
  (forall root t, In root order -> In t (nested_types root) -> has_definition t ->
     count_same t (emitted st) = 1)
  /\ (forall e, In e (emitted st) ->
        has_definition e /\ exists root, In root order /\ In e (nested_types root))
  /\ global_stream st =
       match emitted st with
       | [] => []
       | _ => ("" :: map definition_of (rev (emitted st)) ++ [""])%list
       end
  /\ (forall t, In (Some t) array_dtypes -> in_set same_type t order = true).
Proof.
  intros Horder st.
  assert (HI0 : Inv false {| global_stream := []; emitted := [] |}).
  { split; simpl; auto. intros e []. }
  pose proof (emit_each_step order _ _ HI0) as Hstep.
  assert (Hem : emitted st = emitted (snd (emit_each same_type order false
                                            {| global_stream := []; emitted := [] |}))).
  { unfold st, emit_custom_types.
    destruct (emit_each same_type order false _) as [w s0]. simpl.
    destruct w; reflexivity. }
  destruct Hstep as [[Hw Hs Hd Hdef] Hkeep Hcover Horigin].
  split; [|split; [|split]].
  - intros root t Hroot Ht Hdt. rewrite Hem. apply count_same_one; [assumption|].
    apply Hcover; [|assumption]. apply in_flat_map. now exists root.
  - intros e He. rewrite Hem in He.
    destruct (Horigin e He) as [[]|[Hin Hde]].
    split; [assumption|]. apply in_flat_map in Hin as (root & Hroot & Hin).
    now exists root.
  - rewrite Hem. unfold st, emit_custom_types.
    destruct (emit_each same_type order false _) as [w s0]. simpl in *.
    destruct w; simpl.
    + rewrite Hs. destruct (emitted s0); [discriminate | reflexivity].
    + rewrite Hs. destruct (emitted s0); [reflexivity | discriminate].
  - intros t Ht.
    pose proof (datatypes_holds_every_dtype array_dtypes t Ht) as Hin.
    unfold in_set in *. apply existsb_exists in Hin as (x & Hx & Htx).
    apply existsb_exists. exists x. split; [now apply Horder | assumption].
Qed.

End CustomTypesFacts.

(** Type objects compared by their C type name. *)
Definition same_ctype (a b : typeclass) : bool :=
  String.eqb (ctype (info_of a)) (ctype (info_of b)).

Definition float64 : typeclass :=
  plain {| ctype := "double"; bytes := 8; emit_definition := None |}.

Definition vec3 : typeclass :=
  struct {| ctype := "vec3"; bytes := 24;
            emit_definition := Some "struct vec3 { double x; double y; double z; };" |}
         [("x", float64); ("y", float64); ("z", float64)].

Definition particle : typeclass :=
  struct {| ctype := "particle"; bytes := 32;
            emit_definition := Some "struct particle { vec3 pos; double mass; };" |}
         [("pos", vec3); ("mass", float64)].

(** Four buffers: two of type [particle*], one [vec3], one [double]. *)
Definition sample_dtypes : list (option typeclass) :=
  [ Some (pointer {| ctype := "particle *"; bytes := 8; emit_definition := None |} particle);
    Some vec3;
    Some (pointer {| ctype := "particle *"; bytes := 8; emit_definition := None |} particle);
    Some float64 ].

Lemma custom_type_definitions_emitted_once_witness :
  let st := emit_custom_types same_ctype (datatypes same_ctype sample_dtypes) in
  count_same same_ctype vec3 (emitted st) = 1
  /\ count_same same_ctype particle (emitted st) = 1
  /\ global_stream st =
       [""; "struct vec3 { double x; double y; double z; };";
        "struct particle { vec3 pos; double mass; };"; ""].
Proof.
  assert (Hsym : forall a b, same_ctype a b = true -> same_ctype b a = true).
  { unfold same_ctype. intros a b H. now rewrite String.eqb_sym. }
  assert (Htrans : forall a b c,
             same_ctype a b = true -> same_ctype b c = true -> same_ctype a c = true).
  { unfold same_ctype. intros a b c H1 H2.
    apply String.eqb_eq in H1. apply String.eqb_eq in H2.
    apply String.eqb_eq. congruence. }
  destruct (custom_type_definitions_emitted_once same_ctype
              (fun t => String.eqb_refl _) Hsym Htrans sample_dtypes
              (datatypes same_ctype sample_dtypes) (fun t => conj (fun H => H) (fun H => H)))
    as (Honce & _ & _ & _).
  split; [|split].
  - apply (Honce vec3 vec3); [simpl; auto | simpl; auto | discriminate].
  - apply (Honce (pointer {| ctype := "particle *"; bytes := 8;
                             emit_definition := None |} particle) particle);
      [simpl; auto | simpl; auto | discriminate].
  - reflexivity.
Defined.

(** Two different structures that share the C type name [vec]. *)
Definition vec_of_doubles : typeclass :=
  struct {| ctype := "vec"; bytes := 16;
            emit_definition := Some "struct vec { double x; double y; };" |}
         [("x", float64); ("y", float64)].

Definition vec_of_three : typeclass :=
  struct {| ctype := "vec"; bytes := 24;
            emit_definition := Some "struct vec { double x; double y; double z; };" |}
         [("x", float64); ("y", float64); ("z", float64)].

(** C9 (as claimed, it fails).  Type objects compare equal when their C
    type names are equal (the comparison of the type classes, declared
    outside these sources).  Two buffers of two different structures
    with one name: the set of types keeps the first, and the
    definition of the second is never written. *)
Lemma type_named_like_another_gets_no_definition :
  let st := emit_custom_types same_ctype
              (datatypes same_ctype [Some vec_of_doubles; Some vec_of_three]) in
  vec_of_doubles <> vec_of_three
  /\ definition_of vec_of_doubles <> definition_of vec_of_three
  /\ global_stream st = [""; "struct vec { double x; double y; };"; ""]
  /\ ~ In (definition_of vec_of_three) (global_stream st).
Proof.
  split; [discriminate|]. split; [discriminate|]. split; [reflexivity|].
  simpl. intros [H|[H|[H|[]]]]; discriminate.
Qed.

(** **** Definitions are written after the definitions they use *)

Section CustomTypesOrder.

Variable same_type : typeclass -> typeclass -> bool.
Hypothesis same_refl : forall t, same_type t t = true.

(** [emitted] lists the types latest first: every member has the
    types nested in it that have a definition among the members added
    before it, or is one itself. *)
Definition nested_first (emitted_types : list typeclass) : Prop :=
  forall later e earlier,
    emitted_types = (later ++ e :: earlier)%list ->
    forall u, In u (nested_types e) -> has_definition u ->
      in_set same_type u (e :: earlier) = true.

Lemma emit_fields_step (fields : list (string * typeclass)) :
  forall w st, Inv same_type w st ->
    let r := fold_left
               (fun acc f => _emit_definitions same_type (snd f) (fst acc) (snd acc))
               fields (w, st) in
    Step same_type (flat_map (fun f => nested_types (snd f)) fields)
         w st (fst r) (snd r).
Proof.
  induction fields as [|f rest IH]; intros w st HI; simpl.
  - now apply Step_refl.
  - pose proof (emit_definitions_step same_type same_refl
                  (snd f) w st HI) as Hhead.
    pose proof (IH _ _ (step_inv _ _ _ _ _ _ Hhead)) as Htail.
    simpl in Htail. rewrite <- surjective_pairing in Htail.
    exact (Step_trans same_type _ _ _ _ _ _ _ _ Hhead Htail).
Qed.

Lemma emit_own_nested_first (dtype : typeclass) (w : bool) (st : HeaderState) :
  nested_first (emitted st) ->
  (forall u, In u (nested_types dtype) -> has_definition u ->
     in_set same_type u (emitted st) = true \/ u = dtype) ->
  nested_first (emitted (snd (emit_own same_type dtype w st))).
Proof.
  intros Hclosed Hcover. unfold emit_own.
  destruct (emit_definition (info_of dtype)) as [definition|]; [|assumption].
  cbv zeta.
  assert (Hem : forall b : bool, emitted (if b then st else write st "") = emitted st)
    by (intros []; reflexivity).
  rewrite Hem.
  destruct (in_set same_type dtype (emitted st)) eqn:Hin; cbn [snd emitted];
    rewrite ?Hem; [assumption|].
  intros later e earlier Heq u Hu Hdef.
  destruct later as [|x later]; simpl in Heq; inversion Heq; subst.
  - destruct (Hcover u Hu Hdef) as [H| ->].
    + now apply in_set_cons.
    + unfold in_set. simpl. now rewrite same_refl.
  - now apply (Hclosed later e earlier).
Qed.

Lemma emit_definitions_nested_first (dtype : typeclass) :
  forall w st, Inv same_type w st -> nested_first (emitted st) ->
    nested_first (emitted (snd (_emit_definitions same_type dtype w st))).
Proof.
  induction dtype as [i|i base IH|i fields IH] using typeclass_nested_ind;
    intros w st HI Hclosed; rewrite emit_definitions_unfold; cbv zeta.
  - apply emit_own_nested_first; [assumption|].
    intros u [<-|[]] _. now right.
  - pose proof (emit_definitions_step same_type same_refl
                  base w st HI) as Hbase.
    apply emit_own_nested_first; [now apply IH|].
    intros u [<-|Hu] Hdef; [now right|]. left.
    now apply (step_covers _ _ _ _ _ _ Hbase).
  - pose proof (emit_fields_step fields w st HI) as Hfields. simpl in Hfields.
    apply emit_own_nested_first.
    + clear Hfields. revert w st HI Hclosed.
      induction IH as [|f rest Hf _ IHrest]; intros w st HI Hclosed; simpl;
        [assumption|].
      pose proof (emit_definitions_step same_type same_refl
                    (snd f) w st HI) as Hhead.
      rewrite (surjective_pairing (_emit_definitions same_type (snd f) w st)).
      apply IHrest; [exact (step_inv _ _ _ _ _ _ Hhead) | now apply Hf].
    + intros u [<-|Hu] Hdef; [now right|]. left.
      now apply (step_covers _ _ _ _ _ _ Hfields).
Qed.

Lemma emit_each_nested_first (order : list typeclass) :
  forall w st, Inv same_type w st -> nested_first (emitted st) ->
    nested_first (emitted (snd (emit_each same_type order w st))).
Proof.
  induction order as [|typ rest IH]; intros w st HI Hclosed; simpl; [assumption|].
  pose proof (emit_definitions_step same_type same_refl
                typ w st HI) as Hhead.
  pose proof (emit_definitions_nested_first typ w st HI Hclosed) as Hnext.
  destruct (_emit_definitions same_type typ w st) as [w' st']. simpl in *.
  apply IH; [exact (step_inv _ _ _ _ _ _ Hhead) | assumption].
Qed.

Lemma existsb_rev {A : Type} (f : A -> bool) (l : list A) :
  existsb f (rev l) = existsb f l.
Proof.
  induction l as [|x l IH]; simpl; [reflexivity|].
  rewrite existsb_app, IH. simpl. now rewrite orb_false_r, orb_comm.
Qed.

(** X17. In the file header every definition comes after the
    definitions it uses: wherever the definition of a type stands in
    the stream, each type nested in it (through pointers and struct
    fields) that has a definition has (a type equal to) it written
    before, or is that type itself.  The set compares types by any
    reflexive relation. *)
Theorem definitions_follow_the_definitions_they_use (order : list typeclass) :
  let st := emit_custom_types same_type order in
  forall before e after,
    rev (emitted st) = (before ++ e :: after)%list ->
    global_stream st
    = ("" :: map definition_of before ++ definition_of e
          :: map definition_of after ++ [""])%list
    /\ forall u, In u (nested_types e) -> has_definition u ->
         in_set same_type u (before ++ [e]) = true.
Proof.
  intros st before e after Hrev.
  assert (HI0 : Inv same_type false {| global_stream := []; emitted := [] |}).
  { split; simpl; auto. intros x []. }
  assert (H0 : nested_first (@nil typeclass)).
  { intros later x earlier Heq. destruct later; discriminate. }
  pose proof (emit_each_step same_type same_refl order _ _ HI0)
    as [[Hw Hs Hd Hdef] _ _ _].
  pose proof (emit_each_nested_first order _ _ HI0 H0) as Hclosed.
  assert (Hem : emitted st = emitted (snd (emit_each same_type order false
                                            {| global_stream := []; emitted := [] |}))).
  { unfold st, emit_custom_types.
    destruct (emit_each same_type order false _) as [w s0]. simpl.
    destruct w; reflexivity. }
  split.
  - unfold st, emit_custom_types in *.
    destruct (emit_each same_type order false _) as [w s0]. simpl in *.
    assert (Hne : emitted s0 <> []).
    { intros Hnil. rewrite Hem, Hnil in Hrev. destruct before; discriminate. }
    destruct w; [|destruct (emitted s0); congruence].
    simpl. rewrite Hs. rewrite Hem in Hrev. rewrite Hrev.
    rewrite map_app. simpl. rewrite <- app_assoc. reflexivity.
  - intros u Hu Hdefu. rewrite <- Hem in Hclosed.
    assert (Hsplit : emitted st = (rev after ++ e :: rev before)%list).
    { rewrite <- (rev_involutive (emitted st)), Hrev, rev_app_distr. simpl.
      now rewrite <- app_assoc. }
    pose proof (Hclosed _ _ _ Hsplit u Hu Hdefu) as Hin.
    unfold in_set in *. rewrite existsb_app. simpl in *.
    rewrite existsb_rev in Hin. rewrite orb_false_r.
    now rewrite orb_comm.
Qed.

End CustomTypesOrder.

Lemma definitions_follow_the_definitions_they_use_witness :
  let st := emit_custom_types same_ctype (datatypes same_ctype sample_dtypes) in
  global_stream st
  = [""; definition_of vec3; definition_of particle; ""]
  /\ forall u, In u (nested_types particle) -> has_definition u ->
       in_set same_ctype u [vec3; particle] = true.
Proof.
  apply (definitions_follow_the_definitions_they_use same_ctype
           (fun t => String.eqb_refl _) (datatypes same_ctype sample_dtypes)
           [vec3] particle [] eq_refl).
Defined.

(** *** Properties of the dominator search *)

Lemma bind_raise {A B : Type} (r : Result A) (k : A -> Result B) (e : Exception) :
  r = Raise e -> bind r k = Raise e.
Proof. now intros ->. Qed.

(** An exception raised by the loop body for one array ends the loop
    over the arrays with that exception. *)
Lemma plan_arrays_raise (G : Program) (X : Collaborators) (top_sdfg : SDFG)
  (fuel : nat) (before after : list (SDFG * string * Data))
  (entry : SDFG * string * Data) (e : Exception) :
  forall self self1,
    plan_arrays G X top_sdfg fuel self before = Ok self1 ->
    plan_array G X top_sdfg fuel self1 entry = Raise e ->
    plan_arrays G X top_sdfg fuel self (before ++ entry :: after) = Raise e.
Proof.
  induction before as [|b rest IH]; intros self self1 Hbefore Hentry; simpl in *.
  - inversion Hbefore; subst. now rewrite Hentry.
  - destruct (plan_array G X top_sdfg fuel self b) as [self'| |]; simpl in *;
      try discriminate.
    now apply (IH self' self1).
Qed.

(** In the branch that asks for the dominators, their failure is the
    failure of the rest of the loop body. *)
Lemma record_actions_raise (X : Collaborators) (fuel : nat) (self : Generator)
  (sdfg : SDFG) (name : string) (desc : Data)
  (first_state : SDFGState) (first_node : AccessNode)
  (rest : list (SDFGState * AccessNode)) (cursdfg : option SDFG)
  (curscope : ScopeRef) (e : Exception) :
  let accesses := (first_state, first_node) :: rest in
  is_entry_scope curscope = false ->
  is_nonfree_sym_dependent X (Some first_node) desc (Some first_state)
    (symbols_and_constants X sdfg) = true ->
  state_eqb (Some first_state) (fst (last_instance accesses)) = false ->
  is_View desc = false ->
  _get_dominator_and_postdominator fuel (get_control_flow_block_dominators X sdfg)
    accesses = Raise e ->
  record_actions X fuel self sdfg name desc accesses cursdfg curscope = Raise e.
Proof.
  intros accesses Hentry Hnonfree Hdiff Hview Hdoms.
  unfold record_actions.
  change (first_instance accesses) with (Some first_state, Some first_node).
  destruct (last_instance accesses) as [ls ln]. simpl fst in Hdiff.
  rewrite Hentry, Hnonfree, Hdiff, Hview. simpl negb. simpl andb. cbv iota.
  change (existsb _ accesses) with true. cbv iota.
  now rewrite Hdoms.
Qed.

(** Two branch states 1 and 2 of a program whose graph analysis gives
    state 1 itself as its immediate dominator, and state 2 no dominator
    but itself. *)
Definition stuck_dominators : Dominators :=
  {| idom := fun b => Some b;
     alldoms := fun _ => [];
     ipostdom := fun b => Some b;
     allpostdoms := fun _ => [] |}.

Definition branch_accesses : list (SDFGState * AccessNode) :=
  [ (1, {| guid := Some 7; data := "y" |}); (2, {| guid := Some 8; data := "y" |}) ].

(** **** The dominator search finds the closest common ancestor *)

(** The block reached from [b] by [k] steps to the immediate
    (post-)dominator. *)
Fixpoint ancestor (imm : ControlFlowBlock -> option ControlFlowBlock) (k : nat)
  (b : ControlFlowBlock) : option ControlFlowBlock :=
  match k with
  | O => Some b
  | S k' =>
      match imm b with
      | Some next => ancestor imm k' next
      | None => None
      end
  end.

(** The block is in the set of every occurrence. *)
Definition common_to_all (sets : ControlFlowBlock -> list ControlFlowBlock)
  (occurrences : list ControlFlowBlock) (b : ControlFlowBlock) : bool :=
  forallb (fun n => block_in b (sets n)) occurrences.

Lemma some_lacks_iff (sets : ControlFlowBlock -> list ControlFlowBlock)
  (occurrences : list ControlFlowBlock) (b : ControlFlowBlock) :
  existsb (fun n => negb (block_in b (sets n))) occurrences
  = negb (common_to_all sets occurrences b).
Proof.
  unfold common_to_all. induction occurrences as [|n rest IH]; simpl; [reflexivity|].
  rewrite IH. now rewrite negb_andb.
Qed.

Lemma common_ancestor_loop_sound (imm : ControlFlowBlock -> option ControlFlowBlock)
  (sets : ControlFlowBlock -> list ControlFlowBlock)
  (occurrences : list ControlFlowBlock) (msg : string) :
  forall fuel candidate found,
    common_ancestor_loop fuel imm sets occurrences msg candidate = Ok found ->
    exists k,
      k <= fuel
      /\ ancestor imm k candidate = Some found
      /\ common_to_all sets occurrences found = true
      /\ forall j b, j < k -> ancestor imm j candidate = Some b ->
           common_to_all sets occurrences b = false.
Proof.
  induction fuel as [|fuel IH]; intros candidate found; simpl;
    rewrite some_lacks_iff;
    destruct (common_to_all sets occurrences candidate) eqn:Hc; simpl.
  - intros H; inversion H; subst. exists 0. repeat split; auto. intros j b Hj; lia.
  - destruct (imm candidate) as [next|]; [|discriminate].
    destruct (Nat.eqb next candidate); discriminate.
  - intros H; inversion H; subst. exists 0. repeat split; auto; [lia|].
    intros j b Hj; lia.
  - destruct (imm candidate) as [next|] eqn:Himm; [|discriminate].
    destruct (Nat.eqb next candidate); [discriminate|].
    intros H. destruct (IH next found H) as (k & Hk & Hanc & Hcommon & Hfirst).
    exists (S k). split; [lia|]. split; [simpl; now rewrite Himm|].
    split; [assumption|].
    intros [|j] b Hj Hb; simpl in Hb.
    + inversion Hb; subst. assumption.
    + rewrite Himm in Hb. apply (Hfirst j b); [lia | assumption].
Qed.

Lemma common_ancestor_loop_complete (imm : ControlFlowBlock -> option ControlFlowBlock)
  (sets : ControlFlowBlock -> list ControlFlowBlock)
  (occurrences : list ControlFlowBlock) (msg : string) :
  forall k fuel candidate found,
    k <= fuel ->
    ancestor imm k candidate = Some found ->
    common_to_all sets occurrences found = true ->
    (forall j b, j < k -> ancestor imm j candidate = Some b ->
       common_to_all sets occurrences b = false) ->
    common_ancestor_loop fuel imm sets occurrences msg candidate = Ok found.
Proof.
  induction k as [|k IH]; intros fuel candidate found Hfuel Hanc Hcommon Hfirst.
  - simpl in Hanc. inversion Hanc; subst.
    destruct fuel; simpl; rewrite some_lacks_iff, Hcommon; reflexivity.
  - destruct fuel as [|fuel]; [lia|]. simpl in *.
    rewrite some_lacks_iff.
    rewrite (Hfirst 0 candidate) by (try lia; reflexivity). simpl.
    destruct (imm candidate) as [next|] eqn:Himm; [|discriminate].
    destruct (Nat.eqb next candidate) eqn:Hself.
    + (* a candidate that is its own immediate dominator is every ancestor *)
      exfalso. apply Nat.eqb_eq in Hself. subst next.
      assert (Hstay : forall j, ancestor imm j candidate = Some candidate).
      { induction j as [|j IHj]; simpl; [reflexivity | now rewrite Himm]. }
      rewrite Hstay in Hanc. inversion Hanc; subst.
      rewrite (Hfirst 0 found) in Hcommon by (try lia; reflexivity). discriminate.
    + apply (IH fuel next found); [lia | assumption | assumption |].
      intros j b Hj Hb. apply (Hfirst (S j) b); [lia|]. simpl. now rewrite Himm.
Qed.

Lemma with_self_has_self (occurrences : list ControlFlowBlock)
  (doms : ControlFlowBlock -> list ControlFlowBlock) (n : ControlFlowBlock) :
  In n occurrences -> block_in n (with_self occurrences doms n) = true.
Proof.
  intros Hin. unfold with_self.
  assert (Hb : block_in n occurrences = true).
  { unfold block_in. apply existsb_exists. exists n. split; [assumption|].
    apply Nat.eqb_refl. }
  rewrite Hb. unfold block_in. simpl. now rewrite Nat.eqb_refl.
Qed.

(** X9. When [_get_dominator_and_postdominator] returns, the start
    state is the closest block, going from the first access state up
    the immediate dominators, that is among the dominators of every
    access state (each state counting as its own dominator), and the
    end state is the closest such block going from the last access
    state up the immediate post-dominators.  Conversely, whenever such
    closest blocks exist within the number of iterations granted they
    are what the function returns.  When all accesses lie in one state
    the function returns that state twice, whatever the dominator
    information says. *)
Theorem dominator_search_returns_the_closest_common_ancestors
  (fuel : nat) (D : Dominators) (accesses : list (SDFGState * AccessNode))
  (first_state : SDFGState) (first_node : AccessNode)
  (rest : list (SDFGState * AccessNode)) :
  accesses = (first_state, first_node) :: rest ->
  let occurrences := map fst accesses in
  let last_state := last occurrences first_state in
  let doms := with_self occurrences (alldoms D) in
  let postdoms := with_self occurrences (allpostdoms D) in
  (forall start_state end_state,
      _get_dominator_and_postdominator fuel D accesses = Ok (start_state, end_state) ->
      (exists k, k <= fuel
         /\ ancestor (idom D) k first_state = Some start_state
         /\ common_to_all doms occurrences start_state = true
         /\ forall j b, j < k -> ancestor (idom D) j first_state = Some b ->
              common_to_all doms occurrences b = false)
      /\ (exists k, k <= fuel
            /\ ancestor (ipostdom D) k last_state = Some end_state
            /\ common_to_all postdoms occurrences end_state = true
            /\ forall j b, j < k -> ancestor (ipostdom D) j last_state = Some b ->
                 common_to_all postdoms occurrences b = false))
  /\ (forall k k' start_state end_state,
        k <= fuel -> k' <= fuel ->
        ancestor (idom D) k first_state = Some start_state ->
        common_to_all doms occurrences start_state = true ->
        (forall j b, j < k -> ancestor (idom D) j first_state = Some b ->
           common_to_all doms occurrences b = false) ->
        ancestor (ipostdom D) k' last_state = Some end_state ->
        common_to_all postdoms occurrences end_state = true ->
        (forall j b, j < k' -> ancestor (ipostdom D) j last_state = Some b ->
           common_to_all postdoms occurrences b = false) ->
        _get_dominator_and_postdominator fuel D accesses = Ok (start_state, end_state))
  /\ ((forall access, In access accesses -> fst access = first_state) ->
      _get_dominator_and_postdominator fuel D accesses = Ok (first_state, first_state)).
Proof.
  intros Hacc occurrences last_state doms postdoms.
  assert (Hunfold :
    _get_dominator_and_postdominator fuel D accesses
    = bind (common_ancestor_loop fuel (idom D) doms occurrences
              (dominator_message (data first_node)) first_state)
        (fun start_state =>
           bind (common_ancestor_loop fuel (ipostdom D) postdoms occurrences
                   (postdominator_message (data first_node)) last_state)
             (fun end_state => Ok (start_state, end_state)))).
  { subst accesses. reflexivity. }
  assert (Hcomplete : forall k k' start_state end_state,
        k <= fuel -> k' <= fuel ->
        ancestor (idom D) k first_state = Some start_state ->
        common_to_all doms occurrences start_state = true ->
        (forall j b, j < k -> ancestor (idom D) j first_state = Some b ->
           common_to_all doms occurrences b = false) ->
        ancestor (ipostdom D) k' last_state = Some end_state ->
        common_to_all postdoms occurrences end_state = true ->
        (forall j b, j < k' -> ancestor (ipostdom D) j last_state = Some b ->
           common_to_all postdoms occurrences b = false) ->
        _get_dominator_and_postdominator fuel D accesses = Ok (start_state, end_state)).
  { intros k k' start_state end_state Hk Hk' Ha Hc Hf Ha' Hc' Hf'.
    rewrite Hunfold.
    rewrite (common_ancestor_loop_complete _ _ _ _ k fuel _ _ Hk Ha Hc Hf). simpl.
    now rewrite (common_ancestor_loop_complete _ _ _ _ k' fuel _ _ Hk' Ha' Hc' Hf'). }
  split; [|split; [exact Hcomplete|]].
  - intros start_state end_state. rewrite Hunfold.
    destruct (common_ancestor_loop fuel (idom D) doms occurrences _ first_state)
      as [s| |] eqn:Hs; simpl; try discriminate.
    destruct (common_ancestor_loop fuel (ipostdom D) postdoms occurrences _ last_state)
      as [e| |] eqn:He; simpl; try discriminate.
    intros H; inversion H; subst.
    split; eapply common_ancestor_loop_sound; eassumption.
  - intros Hsame.
    assert (Hocc : forall n, In n occurrences -> n = first_state).
    { intros n Hn. apply in_map_iff in Hn as (a & <- & Ha). now apply Hsame. }
    assert (Hlast : last_state = first_state).
    { unfold last_state.
      assert (Hl : forall (l : list ControlFlowBlock) (d : ControlFlowBlock),
                 (forall n, In n l -> n = d) -> last l d = d).
      { clear. induction l as [|x l IH]; intros d H; [reflexivity|].
        simpl. destruct l as [|y l]; [apply H; now left|].
        apply IH. intros n Hn. apply H. now right. }
      now apply Hl. }
    assert (Hin : In first_state occurrences).
    { unfold occurrences. subst accesses. simpl. now left. }
    assert (Hc : forall sets,
      common_to_all (with_self occurrences sets) occurrences first_state = true).
    { intros sets. unfold common_to_all. apply forallb_forall. intros n Hn.
      rewrite (Hocc n Hn). now apply with_self_has_self. }
    apply (Hcomplete 0 0); try lia; try (intros j b Hj; lia);
      rewrite ?Hlast; try reflexivity; apply Hc.
Qed.

(** A branch: entry block 0, branch blocks 1 and 2, exit block 3. *)
Definition diamond : Dominators :=
  {| idom := fun b => Some 0;
     alldoms := fun b => match b with 0 => [0] | _ => [0; b] end;
     ipostdom := fun b => Some 3;
     allpostdoms := fun b => match b with 3 => [3] | _ => [3; b] end |}.

Lemma dominator_search_returns_the_closest_common_ancestors_witness :
  _get_dominator_and_postdominator 5 diamond branch_accesses = Ok (0, 3).
Proof.
  destruct (dominator_search_returns_the_closest_common_ancestors 5 diamond
              branch_accesses 1 {| guid := Some 7; data := "y" |}
              [(2, {| guid := Some 8; data := "y" |})] eq_refl)
    as (_ & Hfound & _).
  apply (Hfound 1 1); try lia; try reflexivity.
  - intros [|j] b Hj Hb; [|lia]. inversion Hb; subst. reflexivity.
  - intros [|j] b Hj Hb; [|lia]. inversion Hb; subst. reflexivity.
Defined.

Lemma common_ancestor_loop_ends (imm : ControlFlowBlock -> option ControlFlowBlock)
  (sets : ControlFlowBlock -> list ControlFlowBlock)
  (occurrences : list ControlFlowBlock) (msg : string)
  (depth : ControlFlowBlock -> nat) :
  (forall b next, imm b = Some next -> next <> b -> depth next < depth b) ->
  forall fuel candidate,
    depth candidate <= fuel ->
    common_ancestor_loop fuel imm sets occurrences msg candidate <> Diverge.
Proof.
  intros Hdepth. induction fuel as [|fuel IH]; intros candidate Hfuel; simpl;
    destruct (existsb _ occurrences); try discriminate;
    destruct (imm candidate) as [next|] eqn:Himm; try discriminate;
    destruct (Nat.eqb next candidate) eqn:Hself; try discriminate;
    apply Nat.eqb_neq in Hself; pose proof (Hdepth _ _ Himm Hself).
  - lia.
  - apply IH. lia.
Qed.

(** The search ends when the immediate (post-)dominators rise in a
    tree. *)
Lemma dominator_search_ends
  (fuel : nat) (D : Dominators) (accesses : list (SDFGState * AccessNode))
  (depth postdepth : ControlFlowBlock -> nat) :
  (forall b next, idom D b = Some next -> next <> b -> depth next < depth b) ->
  (forall b next, ipostdom D b = Some next -> next <> b ->
     postdepth next < postdepth b) ->
  (forall access, In access accesses ->
     depth (fst access) <= fuel /\ postdepth (fst access) <= fuel) ->
  _get_dominator_and_postdominator fuel D accesses <> Diverge.
Proof.
  intros Hdom Hpost Hfuel. unfold _get_dominator_and_postdominator.
  destruct accesses as [|[first_state first_node] rest]; [discriminate|].
  set (occurrences := map fst ((first_state, first_node) :: rest)).
  pose proof (common_ancestor_loop_ends (idom D)
                (with_self occurrences (alldoms D)) occurrences
                (dominator_message (data first_node)) depth Hdom fuel first_state)
    as Hstart.
  destruct (common_ancestor_loop fuel (idom D) _ occurrences _ first_state)
    as [start_state| |]; simpl; try discriminate.
  - assert (Hlast : In (last occurrences first_state) occurrences).
    { unfold occurrences. simpl map.
      generalize (map fst rest). generalize first_state at 1 3.
      intros x l. revert x. induction l as [|y l IH]; intros x; [now left|].
      right. apply (IH y). }
    assert (Hle : postdepth (last occurrences first_state) <= fuel).
    { apply in_map_iff in Hlast as (a & Ha & Hin). rewrite <- Ha.
      apply (Hfuel a Hin). }
    pose proof (common_ancestor_loop_ends (ipostdom D)
                  (with_self occurrences (allpostdoms D)) occurrences
                  (postdominator_message (data first_node)) postdepth Hpost fuel
                  (last occurrences first_state) Hle) as Hend.
    destruct (common_ancestor_loop fuel (ipostdom D) _ occurrences _ _)
      as [end_state| |]; simpl; try discriminate; congruence.
  - exfalso. apply Hstart; [|reflexivity].
    apply (Hfuel (first_state, first_node)). now left.
Qed.

(** X10. The two loops of [_get_dominator_and_postdominator] end:
    when every step to a different immediate dominator, and to a
    different immediate post-dominator, lowers a depth, the function
    returns or raises within as many iterations as the depth of the
    access states; it never runs on. *)
Theorem dominator_search_ends_when_dominators_form_a_tree
  (fuel : nat) (D : Dominators) (accesses : list (SDFGState * AccessNode))
  (depth postdepth : ControlFlowBlock -> nat) :
  (forall b next, idom D b = Some next -> next <> b -> depth next < depth b) ->
  (forall b next, ipostdom D b = Some next -> next <> b ->
     postdepth next < postdepth b) ->
  (forall access, In access accesses ->
     depth (fst access) <= fuel /\ postdepth (fst access) <= fuel) ->
  _get_dominator_and_postdominator fuel D accesses <> Diverge.
Proof.
  intros Hdom Hpost Hfuel.
  exact (dominator_search_ends fuel D accesses depth postdepth Hdom Hpost Hfuel).
Qed.

Lemma dominator_search_ends_when_dominators_form_a_tree_witness :
  _get_dominator_and_postdominator 1 diamond branch_accesses <> Diverge.
Proof.
  apply (dominator_search_ends_when_dominators_form_a_tree 1 diamond branch_accesses
           (fun b => match b with 0 => 0 | _ => 1 end)
           (fun b => match b with 3 => 0 | _ => 1 end)).
  - intros b next H Hne. inversion H; subst. destruct b; lia.
  - intros b next H Hne. inversion H; subst.
    destruct b as [|[|[|[|b]]]]; lia.
  - intros access [<-|[<-|[]]]; simpl; lia.
Defined.

(** *** Properties of the lifetime planner *)

(** The number of actions of the plan for which [flag] holds. *)
Definition count_flag (flag : Action -> bool)
  (plan : list (option ScopeRef * list Action)) : nat :=
  fold_right (fun item acc => List.length (filter flag (snd item)) + acc) 0 plan.

Definition allocations (self : Generator) : nat :=
  count_flag allocate_flag (to_allocate self).

Definition deallocations (self : Generator) : nat :=
  count_flag deallocate_flag (to_allocate self).

Lemma count_flag_append (flag : Action -> bool)
  (plan : list (option ScopeRef * list Action)) (k : option ScopeRef) (a : Action) :
  count_flag flag (dict_append scope_eqb plan k a)
  = count_flag flag plan + (if flag a then 1 else 0).
Proof.
  induction plan as [|[k0 l] rest IH]; simpl.
  - destruct (flag a); reflexivity.
  - destruct (scope_eqb k k0); simpl.
    + rewrite filter_app, length_app. simpl. destruct (flag a); simpl; lia.
    + rewrite IH. lia.
Qed.

Lemma allocations_add_action (self : Generator) (k : option ScopeRef) (a : Action) :
  allocations (add_action self k a)
  = allocations self + (if allocate_flag a then 1 else 0).
Proof. apply count_flag_append. Qed.

Lemma deallocations_add_action (self : Generator) (k : option ScopeRef) (a : Action) :
  deallocations (add_action self k a)
  = deallocations self + (if deallocate_flag a then 1 else 0).
Proof. apply count_flag_append. Qed.

Lemma allocations_set_where (self : Generator) sdfg name w :
  allocations (set_where self sdfg name w) = allocations self.
Proof. reflexivity. Qed.

Lemma deallocations_set_where (self : Generator) sdfg name w :
  deallocations (set_where self sdfg name w) = deallocations self.
Proof. reflexivity. Qed.

Lemma allocations_add_field (self : Generator) definition :
  allocations (add_field self definition) = allocations self.
Proof. reflexivity. Qed.

Lemma deallocations_add_field (self : Generator) definition :
  deallocations (add_field self definition) = deallocations self.
Proof. reflexivity. Qed.

Lemma view_everywhere_counts (sdfg : SDFG) (instances : list (SDFGState * AccessNode)) :
  forall self,
    allocations (allocate_view_everywhere self sdfg instances)
    = allocations self + List.length instances
    /\ deallocations (allocate_view_everywhere self sdfg instances)
       = deallocations self + List.length instances.
Proof.
  unfold allocate_view_everywhere.
  induction instances as [|inst rest IH]; intros self; simpl; [lia|].
  destruct (IH (add_action
                  (add_action self (Some (OfState (fst inst)))
                     (sdfg, Some (fst inst), Some (snd inst), false, true, false))
                  (Some (OfState (fst inst)))
                  (sdfg, Some (fst inst), Some (snd inst), false, false, true)))
    as (Ha & Hd).
  rewrite Ha, Hd.
  rewrite !allocations_add_action, !deallocations_add_action. simpl. lia.
Qed.

(** Dictionaries whose keys are compared by an equivalence. *)
Section DictEquiv.

Context {K : Type}.
Variable key_eqb : K -> K -> bool.
Hypothesis key_sym : forall a b, key_eqb a b = true -> key_eqb b a = true.
Hypothesis key_trans :
  forall a b c, key_eqb a b = true -> key_eqb b c = true -> key_eqb a c = true.

Lemma key_eqb_congr (k k0 k' : K) :
  key_eqb k k0 = true -> key_eqb k' k = key_eqb k' k0.
Proof.
  intros H. destruct (key_eqb k' k0) eqn:E.
  - apply key_trans with k0; [assumption | now apply key_sym].
  - destruct (key_eqb k' k) eqn:E'; [|reflexivity].
    rewrite <- E. symmetry. now apply key_trans with k.
Qed.

Lemma dict_get_after_append {V : Type} (d : list (K * list V)) (k k' : K) (v : V) :
  dict_get key_eqb (dict_append key_eqb d k v) k' =
  if key_eqb k' k then (dict_get key_eqb d k' ++ [v])%list
  else dict_get key_eqb d k'.
Proof.
  induction d as [|[k0 l] rest IH]; simpl.
  - destruct (key_eqb k' k); reflexivity.
  - destruct (key_eqb k k0) eqn:E; simpl.
    + rewrite (key_eqb_congr k k0 k' E).
      destruct (key_eqb k' k0); reflexivity.
    + destruct (key_eqb k' k0) eqn:E'; [|apply IH].
      destruct (key_eqb k' k) eqn:E''; [|reflexivity].
      rewrite (key_trans k k' k0) in E; [discriminate | now apply key_sym | assumption].
Qed.

Lemma dict_lookup_after_set {V : Type} (d : list (K * V)) (k k' : K) (v : V) :
  dict_lookup key_eqb (dict_set key_eqb d k v) k' =
  if key_eqb k' k then Some v else dict_lookup key_eqb d k'.
Proof.
  induction d as [|[k0 v0] rest IH]; simpl.
  - destruct (key_eqb k' k); reflexivity.
  - destruct (key_eqb k k0) eqn:E; simpl.
    + rewrite (key_eqb_congr k k0 k' E).
      destruct (key_eqb k' k0); reflexivity.
    + destruct (key_eqb k' k0) eqn:E'; [|apply IH].
      destruct (key_eqb k' k) eqn:E''; [|reflexivity].
      rewrite (key_trans k k' k0) in E; [discriminate | now apply key_sym | assumption].
Qed.

End DictEquiv.

Lemma scope_eqb_refl (a : option ScopeRef) : scope_eqb a a = true.
Proof. destruct a as [[g|st|e]|]; simpl; auto using Nat.eqb_refl. Qed.

Lemma scope_eqb_sym (a b : option ScopeRef) :
  scope_eqb a b = true -> scope_eqb b a = true.
Proof.
  destruct a as [[g|st|e]|], b as [[g'|st'|e']|]; simpl; try discriminate; auto;
    rewrite Nat.eqb_sym; auto.
Qed.

Lemma scope_eqb_trans (a b c : option ScopeRef) :
  scope_eqb a b = true -> scope_eqb b c = true -> scope_eqb a c = true.
Proof.
  destruct a as [[g|st|e]|], b as [[g'|st'|e']|], c as [[g''|st''|e'']|]; simpl;
    try discriminate; auto; rewrite !Nat.eqb_eq; congruence.
Qed.

Lemma buffer_eqb_eq (a b : SDFG * string) : buffer_eqb a b = true <-> a = b.
Proof.
  unfold buffer_eqb. destruct a as [g n], b as [g' n']. simpl.
  rewrite andb_true_iff, Nat.eqb_eq, String.eqb_eq.
  split; [intros [-> ->]; reflexivity | now inversion 1].
Qed.

Lemma buffer_eqb_refl (a : SDFG * string) : buffer_eqb a a = true.
Proof. now apply buffer_eqb_eq. Qed.

Lemma buffer_eqb_sym (a b : SDFG * string) :
  buffer_eqb a b = true -> buffer_eqb b a = true.
Proof. rewrite !buffer_eqb_eq. auto. Qed.

Lemma buffer_eqb_trans (a b c : SDFG * string) :
  buffer_eqb a b = true -> buffer_eqb b c = true -> buffer_eqb a c = true.
Proof. rewrite !buffer_eqb_eq. congruence. Qed.

(** [to_allocate[scope]] after an action was added. *)
Lemma get_after_add_action (self : Generator) (k k' : option ScopeRef) (a : Action) :
  dict_get scope_eqb (to_allocate (add_action self k a)) k' =
  if scope_eqb k' k then (dict_get scope_eqb (to_allocate self) k' ++ [a])%list
  else dict_get scope_eqb (to_allocate self) k'.
Proof.
  apply dict_get_after_append;
    first [apply scope_eqb_refl | apply scope_eqb_sym | apply scope_eqb_trans].
Qed.

(** [where_allocated.get(key)] after an assignment. *)
Lemma lookup_after_set_where (self : Generator) (sdfg : SDFG) (name : string)
  (w : option SDFG) (key : SDFG * string) :
  dict_lookup buffer_eqb (where_allocated (set_where self sdfg name w)) key =
  if buffer_eqb key (sdfg, name) then Some w
  else dict_lookup buffer_eqb (where_allocated self) key.
Proof.
  apply dict_lookup_after_set;
    first [apply buffer_eqb_refl | apply buffer_eqb_sym | apply buffer_eqb_trans].
Qed.

(** [b] is [a] with actions appended and at most the entry of [key] in
    [where_allocated] assigned. *)
Definition extends (key : SDFG * string) (a b : Generator) : Prop :=
  (forall k act, In act (dict_get scope_eqb (to_allocate a) k) ->
                 In act (dict_get scope_eqb (to_allocate b) k))
  /\ (forall k, buffer_eqb k key = false ->
        dict_lookup buffer_eqb (where_allocated b) k
        = dict_lookup buffer_eqb (where_allocated a) k).

Lemma extends_refl key a : extends key a a.
Proof. split; auto. Qed.

Lemma extends_trans key a b c : extends key a b -> extends key b c -> extends key a c.
Proof.
  intros [A1 W1] [A2 W2]. split; auto.
  intros k Hk. rewrite W2, W1; auto.
Qed.

Lemma extends_add_action key a k act : extends key a (add_action a k act).
Proof.
  split; [|reflexivity].
  intros k' act' H. rewrite get_after_add_action.
  destruct (scope_eqb k' k); [apply in_or_app; now left | assumption].
Qed.

Lemma extends_add_field key a definition : extends key a (add_field a definition).
Proof. split; auto. Qed.

Lemma extends_set_where a sdfg name w : extends (sdfg, name) a (set_where a sdfg name w).
Proof.
  split; [auto|]. intros k Hk. rewrite lookup_after_set_where. now rewrite Hk.
Qed.

Lemma extends_view key sdfg instances :
  forall a, extends key a (allocate_view_everywhere a sdfg instances).
Proof.
  unfold allocate_view_everywhere.
  induction instances as [|inst rest IH]; intros a; simpl; [apply extends_refl|].
  eapply extends_trans; [|apply IH].
  eapply extends_trans; apply extends_add_action.
Qed.

Lemma extends_add_action_r key a b k act :
  extends key a b -> extends key a (add_action b k act).
Proof. intros H. eapply extends_trans; [exact H | apply extends_add_action]. Qed.

Lemma extends_add_field_r key a b definition :
  extends key a b -> extends key a (add_field b definition).
Proof. intros H. eapply extends_trans; [exact H | apply extends_add_field]. Qed.

Lemma extends_set_where_r a b sdfg name w :
  extends (sdfg, name) a b -> extends (sdfg, name) a (set_where b sdfg name w).
Proof. intros H. eapply extends_trans; [exact H | apply extends_set_where]. Qed.

Lemma extends_view_r key a b sdfg instances :
  extends key a b -> extends key a (allocate_view_everywhere b sdfg instances).
Proof. intros H. eapply extends_trans; [exact H | apply extends_view]. Qed.

Ltac extends_step :=
  repeat first [ apply extends_set_where_r
               | apply extends_add_action_r
               | apply extends_add_field_r
               | apply extends_view_r ];
  apply extends_refl.

Section PlannerFacts.

Variable G : Program.
Variable X : Collaborators.
Variable top_sdfg : SDFG.

(** The view case of the code: the scope reached is not an entry
    node, the descriptor depends on a non-free symbol, first and last
    occurrence lie in different states, and the descriptor is a view. *)
Definition view_case (sdfg : SDFG) (desc : Data)
  (instances : list (SDFGState * AccessNode)) (curscope : ScopeRef) : bool :=
  negb (is_entry_scope curscope)
  && is_nonfree_sym_dependent X (snd (first_instance instances)) desc
       (fst (first_instance instances)) (symbols_and_constants X sdfg)
  && negb (state_eqb (fst (first_instance instances)) (fst (last_instance instances)))
  && is_View desc.

Lemma record_actions_counts (fuel : nat) (self self' : Generator) (sdfg : SDFG)
  (name : string) (desc : Data) (instances : list (SDFGState * AccessNode))
  (cursdfg : option SDFG) (curscope : ScopeRef) :
  record_actions X fuel self sdfg name desc instances cursdfg curscope = Ok self' ->
  let k := if view_case sdfg desc instances curscope
           then List.length instances else 1 in
  allocations self' = allocations self + k
  /\ deallocations self' = deallocations self + k.
Proof.
  unfold record_actions, view_case.
  destruct (first_instance instances) as [fs fn].
  destruct (last_instance instances) as [ls ln]. simpl fst; simpl snd.
  destruct (negb (is_entry_scope curscope)
            && is_nonfree_sym_dependent X fn desc fs (symbols_and_constants X sdfg));
    simpl andb.
  - destruct (negb (state_eqb fs ls)); simpl andb.
    + destruct (is_View desc).
      * intros H. inversion H; subst. simpl.
        rewrite allocations_set_where, deallocations_set_where.
        apply view_everywhere_counts.
      * destruct (existsb _ instances).
        -- destruct (_get_dominator_and_postdominator fuel _ instances)
             as [[d pd]| |]; simpl; intros H; inversion H; subst.
           rewrite allocations_set_where, deallocations_set_where,
             !allocations_add_action, !deallocations_add_action. simpl. lia.
        -- simpl. intros H; inversion H; subst.
           rewrite allocations_set_where, deallocations_set_where,
             !allocations_add_action, !deallocations_add_action. simpl. lia.
    + intros H; inversion H; subst.
      rewrite allocations_set_where, deallocations_set_where,
        !allocations_add_action, !deallocations_add_action. simpl. lia.
  - intros H; inversion H; subst.
    rewrite allocations_set_where, deallocations_set_where,
      !allocations_add_action, !deallocations_add_action. simpl. lia.
Qed.

Lemma str_in_In (x : string) (l : list string) : str_in x l = true <-> In x l.
Proof.
  unfold str_in. rewrite existsb_exists. split.
  - intros (y & Hy & Heq). apply String.eqb_eq in Heq. now subst.
  - intros H. exists x. split; [assumption | apply String.eqb_refl].
Qed.

(** The name is a free symbol of an inter-state edge of the SDFG or
    among the region-level symbols of one of its control-flow
    regions. *)
Definition names_symbol (sdfg : SDFG) (name : string) : Prop :=
  (exists isedge, In isedge (all_interstate_edges G sdfg)
                  /\ In name (free_symbols isedge))
  \/ (exists block_syms, In block_syms (region_used_symbols G sdfg)
                         /\ In name block_syms).

Lemma named_in_control_flow_iff (sdfg : SDFG) (name : string) :
  named_in_control_flow G sdfg name = true <-> names_symbol sdfg name.
Proof.
  unfold named_in_control_flow, names_symbol.
  rewrite orb_true_iff, !existsb_exists. split.
  - intros [(e & He & Hn)|(b & Hb & Hn)]; [left; exists e | right; exists b];
      (split; [assumption | now apply str_in_In]).
  - intros [(e & He & Hn)|(b & Hb & Hn)]; [left; exists e | right; exists b];
      (split; [assumption | now apply str_in_In]).
Qed.

(** No state of the SDFG holds an access node of the buffer, and no
    edge or region names it. *)
Definition never_accessed (sdfg : SDFG) (name : string) : Prop :=
  access_instances G X sdfg name = []
  /\ (forall state node, In state (states G sdfg) ->
        In node (data_nodes G state) -> data node <> name)
  /\ (forall state node, In state (states G sdfg) ->
        In (N_AccessNode node) (nodes G state) -> root_data node <> name)
  /\ ~ names_symbol sdfg name.

(** The case analysis on the lifetime finds a scope to start from. *)
Definition scope_selected (sdfg : SDFG) (name : string) (desc top_desc : Data) : Prop :=
  match lifetime top_desc with
  | AllocationLifetime.Persistent
  | AllocationLifetime.External
  | AllocationLifetime.Global => True
  | top_lifetime =>
      exists alloc_scope alloc_state,
        candidate_scope G X sdfg name desc top_lifetime
          (fst (first_instance (access_instances G X sdfg name)))
          (snd (first_instance (access_instances G X sdfg name)))
        = Ok (Some alloc_scope, alloc_state, false)
  end.

Lemma state_lifetime_loop_none (name : string) (sts : list SDFGState) :
  (forall state node, In state sts -> In node (data_nodes G state) -> data node <> name) ->
  forall cur, state_lifetime_loop G name sts cur = (cur, false).
Proof.
  induction sts as [|state rest IH]; intros H cur; simpl; [reflexivity|].
  destruct (existsb (fun n => String.eqb (data n) name) (data_nodes G state)) eqn:E.
  - apply existsb_exists in E as (n & Hn & Heq). apply String.eqb_eq in Heq.
    exfalso. apply (H state n); simpl; auto.
  - apply IH. intros st n Hst. apply H. now right.
Qed.

Lemma state_lifetime_loop_some (name : string) (sts : list SDFGState) :
  (exists state node, In state sts /\ In node (data_nodes G state) /\ data node = name) ->
  forall cur, snd (state_lifetime_loop G name sts cur) = true
              \/ fst (state_lifetime_loop G name sts cur) <> None.
Proof.
  induction sts as [|state rest IH]; intros (st & n & Hst & Hn & Hd) cur;
    [destruct Hst|]. simpl.
  destruct (existsb (fun n => String.eqb (data n) name) (data_nodes G state)) eqn:E.
  - destruct cur as [c|]; [left; reflexivity|].
    destruct (existsb (fun state' =>
                existsb (fun n => String.eqb (data n) name) (data_nodes G state'))
                rest) eqn:Erest.
    + apply existsb_exists in Erest as (st' & Hst' & Hex).
      apply existsb_exists in Hex as (n' & Hn' & Heq). apply String.eqb_eq in Heq.
      apply IH. exists st', n'. auto.
    + right. rewrite state_lifetime_loop_none; [discriminate|].
      intros st' n' Hst' Hn' Heq.
      assert (existsb (fun state' =>
                existsb (fun n => String.eqb (data n) name) (data_nodes G state'))
                rest = true); [|congruence].
      apply existsb_exists. exists st'. split; [assumption|].
      apply existsb_exists. exists n'. split; [assumption|].
      now apply String.eqb_eq.
  - destruct Hst as [<-|Hst].
    + assert (existsb (fun n => String.eqb (data n) name) (data_nodes G state) = true);
        [|congruence].
      apply existsb_exists. exists n. split; [assumption | now apply String.eqb_eq].
    + apply IH. exists st, n. auto.
Qed.

Lemma scope_nodes_loop_none (name : string) (state : SDFGState) (ns : list Node) :
  (forall node, In (N_AccessNode node) ns -> root_data node <> name) ->
  forall sc cs, scope_nodes_loop G X name state ns sc cs = Ok (sc, cs, false).
Proof.
  induction ns as [|n rest IH]; intros H sc cs; simpl; [reflexivity|].
  destruct n as [node|e|g]; try (apply IH; intros; apply H; now right).
  destruct (String.eqb (root_data node) name) eqn:E; simpl.
  - apply String.eqb_eq in E. exfalso. apply (H node); simpl; auto.
  - apply IH. intros; apply H; now right.
Qed.

Lemma scope_states_loop_none (name : string) (sts : list SDFGState) :
  (forall state node, In state sts -> In (N_AccessNode node) (nodes G state) ->
     root_data node <> name) ->
  forall sc cs, scope_states_loop G X name sts sc cs = Ok (sc, cs, false).
Proof.
  induction sts as [|state rest IH]; intros H sc cs; simpl; [reflexivity|].
  rewrite scope_nodes_loop_none by (intros node; apply H; now left).
  simpl. apply IH. intros st node Hst. apply H. now right.
Qed.

Lemma first_instance_some (l : list (SDFGState * AccessNode)) :
  l <> [] -> exists st node, first_instance l = (Some st, Some node).
Proof.
  destruct l as [|[st node] rest]; [congruence|]. intros _. now exists st, node.
Qed.

Lemma first_instance_none (l : list (SDFGState * AccessNode)) :
  l = [] -> first_instance l = (None, None).
Proof. now intros ->. Qed.

Lemma record_actions_extends (fuel : nat) (self self' : Generator) (sdfg : SDFG)
  (name : string) (desc : Data) (instances : list (SDFGState * AccessNode))
  (cursdfg : option SDFG) (curscope : ScopeRef) :
  record_actions X fuel self sdfg name desc instances cursdfg curscope = Ok self' ->
  extends (sdfg, name) self self'.
Proof.
  unfold record_actions.
  destruct (first_instance instances) as [fs fn].
  destruct (last_instance instances) as [ls ln].
  destruct (negb (is_entry_scope curscope)
            && is_nonfree_sym_dependent X fn desc fs (symbols_and_constants X sdfg)).
  - destruct (negb (state_eqb fs ls)).
    + destruct (is_View desc).
      * intros H. inversion H; subst. extends_step.
      * destruct (existsb _ instances).
        -- destruct (_get_dominator_and_postdominator fuel _ instances)
             as [[d pd]| |]; simpl; intros H; inversion H; subst.
           extends_step.
        -- simpl. intros H; inversion H; subst. extends_step.
    + intros H; inversion H; subst. extends_step.
  - intros H; inversion H; subst. extends_step.
Qed.

Lemma plan_array_extends (fuel : nat) (self self' : Generator) (sdfg : SDFG)
  (name : string) (desc : Data) :
  plan_array G X top_sdfg fuel self (sdfg, name, desc) = Ok self' ->
  extends (sdfg, name) self self'.
Proof.
  unfold plan_array. simpl fst; simpl snd.
  destruct (lookup_array G sdfg (before_dot name)) as [top_desc|]; [|discriminate].
  destruct (negb (transient top_desc));
    [intros H; inversion H; apply extends_refl|].
  destruct (str_in name (constants_prop G sdfg));
    [intros H; inversion H; apply extends_refl|].
  destruct (first_instance (access_instances G X sdfg name)) as [fs fn].
  assert (Hrest : forall l,
    bind (candidate_scope G X sdfg name desc l fs fn)
      (fun cand =>
         match cand with
         | (_, _, true) => Ok self
         | (None, _, false) => Ok self
         | (Some alloc_scope, alloc_state, false) =>
             bind (climb G X fuel desc (Some sdfg) alloc_state (Some alloc_scope))
               (fun reached =>
                  record_actions X fuel self sdfg name desc
                    (access_instances G X sdfg name) (fst (fst reached))
                    (match snd reached with
                     | None => OfSDFG top_sdfg
                     | Some sc => sc
                     end))
         end) = Ok self' ->
    extends (sdfg, name) self self').
  { intros l. destruct (candidate_scope G X sdfg name desc l fs fn)
      as [[[alloc_scope alloc_state] skip]| |]; simpl; try discriminate.
    destruct alloc_scope as [alloc_scope|], skip;
      try (intros H; inversion H; apply extends_refl).
    destruct (climb G X fuel desc (Some sdfg) alloc_state (Some alloc_scope))
      as [reached| |]; simpl; try discriminate.
    apply record_actions_extends. }
  destruct (lifetime top_desc); try apply Hrest.
  - destruct fn; intros H; inversion H; subst; extends_step.
  - destruct fn; intros H; inversion H; subst;
      destruct (negb (StorageType.eqb (storage top_desc) StorageType.CPU_ThreadLocal));
      extends_step.
  - destruct fn; intros H; inversion H; subst;
      destruct (negb (StorageType.eqb (storage top_desc) StorageType.CPU_ThreadLocal));
      extends_step.
Qed.

(** The lifetimes allocated with the program. *)
Definition program_wide (l : AllocationLifetime.t) : Prop :=
  l = AllocationLifetime.Persistent \/ l = AllocationLifetime.External
  \/ l = AllocationLifetime.Global.

(** What the loop body does for a used, non-constant transient with a
    program-wide lifetime. *)
Lemma plan_array_program_wide (fuel : nat) (self : Generator) (sdfg : SDFG)
  (name : string) (desc top_desc : Data) :
  lookup_array G sdfg (before_dot name) = Some top_desc ->
  transient top_desc = true ->
  str_in name (constants_prop G sdfg) = false ->
  program_wide (lifetime top_desc) ->
  access_instances G X sdfg name <> [] ->
  let first := first_instance (access_instances G X sdfg name) in
  let in_struct :=
    match lifetime top_desc with
    | AllocationLifetime.Global => true
    | _ => negb (StorageType.eqb (storage top_desc) StorageType.CPU_ThreadLocal)
    end in
  plan_array G X top_sdfg fuel self (sdfg, name, desc)
  = Ok (set_where
          (add_action
             (if in_struct then add_field self (field_definition X sdfg name desc)
              else self)
             (Some (OfSDFG top_sdfg))
             (sdfg, fst first, snd first, true, true, true))
          sdfg name (Some top_sdfg)).
Proof.
  intros Hlook Htr Hconst Hlife Hused first in_struct.
  unfold plan_array. simpl fst; simpl snd.
  rewrite Hlook, Htr, Hconst. simpl negb. cbv iota.
  destruct (first_instance_some _ Hused) as (st & node & Hfirst).
  unfold first, in_struct. rewrite Hfirst. simpl fst; simpl snd.
  destruct Hlife as [H|[H|H]]; rewrite H; try reflexivity;
    destruct (negb (StorageType.eqb (storage top_desc) StorageType.CPU_ThreadLocal));
    reflexivity.
Qed.

(** The buffer is on record as allocated with the top-level SDFG. *)
Definition recorded_at_top (sdfg : SDFG) (name : string) (self : Generator) : Prop :=
  dict_lookup buffer_eqb (where_allocated self) (sdfg, name) = Some (Some top_sdfg)
  /\ In (sdfg,
         fst (first_instance (access_instances G X sdfg name)),
         snd (first_instance (access_instances G X sdfg name)),
         true, true, true)
        (dict_get scope_eqb (to_allocate self) (Some (OfSDFG top_sdfg))).

Lemma plan_array_records_at_top (fuel : nat) (self self' : Generator) (sdfg : SDFG)
  (name : string) (desc top_desc : Data) :
  lookup_array G sdfg (before_dot name) = Some top_desc ->
  transient top_desc = true ->
  str_in name (constants_prop G sdfg) = false ->
  program_wide (lifetime top_desc) ->
  access_instances G X sdfg name <> [] ->
  plan_array G X top_sdfg fuel self (sdfg, name, desc) = Ok self' ->
  recorded_at_top sdfg name self'.
Proof.
  intros Hlook Htr Hconst Hlife Hused Hplan.
  rewrite (plan_array_program_wide fuel self sdfg name desc top_desc
             Hlook Htr Hconst Hlife Hused) in Hplan.
  inversion Hplan; subst. split.
  - rewrite lookup_after_set_where. now rewrite buffer_eqb_refl.
  - change (to_allocate (set_where ?g _ _ _)) with (to_allocate g).
    rewrite get_after_add_action, scope_eqb_refl.
    apply in_or_app. right. now left.
Qed.

Lemma plan_array_keeps_record (fuel : nat) (self self' : Generator) (sdfg : SDFG)
  (name : string) (top_desc : Data) (entry : SDFG * string * Data) :
  lookup_array G sdfg (before_dot name) = Some top_desc ->
  transient top_desc = true ->
  str_in name (constants_prop G sdfg) = false ->
  program_wide (lifetime top_desc) ->
  access_instances G X sdfg name <> [] ->
  recorded_at_top sdfg name self ->
  plan_array G X top_sdfg fuel self entry = Ok self' ->
  recorded_at_top sdfg name self'.
Proof.
  intros Hlook Htr Hconst Hlife Hused [Hw Ha] Hplan.
  destruct entry as [[sdfg' name'] desc'].
  destruct (buffer_eqb (sdfg, name) (sdfg', name')) eqn:E.
  - apply buffer_eqb_eq in E. inversion E; subst sdfg' name'.
    eapply plan_array_records_at_top; eassumption.
  - destruct (plan_array_extends fuel self self' sdfg' name' desc' Hplan) as [HA HW].
    split; [rewrite HW; assumption | now apply HA].
Qed.

Lemma plan_arrays_keep_record (fuel : nat) (sdfg : SDFG) (name : string)
  (top_desc : Data) (entries : list (SDFG * string * Data)) :
  lookup_array G sdfg (before_dot name) = Some top_desc ->
  transient top_desc = true ->
  str_in name (constants_prop G sdfg) = false ->
  program_wide (lifetime top_desc) ->
  access_instances G X sdfg name <> [] ->
  forall self final,
    recorded_at_top sdfg name self ->
    plan_arrays G X top_sdfg fuel self entries = Ok final ->
    recorded_at_top sdfg name final.
Proof.
  intros Hlook Htr Hconst Hlife Hused.
  induction entries as [|entry rest IH]; intros self final Hrec Hrun; simpl in Hrun.
  - now inversion Hrun; subst.
  - destruct (plan_array G X top_sdfg fuel self entry) as [self1| |] eqn:E;
      simpl in Hrun; try discriminate.
    apply (IH self1 final); [|assumption].
    eapply plan_array_keeps_record; eassumption.
Qed.

(** C2 (as amended: the buffer is not a constant).  Every transient
    buffer whose lifetime is [Persistent], [External] or [Global], that
    is not a constant and has at least one access instance, is recorded
    as allocated with the top-level SDFG, whichever SDFG owns it: the
    loop body for it always returns, with [where_allocated] mapping the
    buffer to [top_sdfg] and its action (declare, allocate and
    deallocate set) among those keyed to [top_sdfg]; and both still
    hold when the planner returns. *)
Theorem program_wide_buffers_are_allocated_at_top_sdfg
  (fuel : nat) (sdfg : SDFG) (name : string) (desc top_desc : Data) :
  lookup_array G sdfg (before_dot name) = Some top_desc ->
  transient top_desc = true ->
  str_in name (constants_prop G sdfg) = false ->
  program_wide (lifetime top_desc) ->
  access_instances G X sdfg name <> [] ->
  (forall self, exists self',
      plan_array G X top_sdfg fuel self (sdfg, name, desc) = Ok self'
      /\ recorded_at_top sdfg name self')
  /\ (forall self final,
        determine_allocation_lifetime G X top_sdfg fuel self = Ok final ->
        In (sdfg, name, desc) (arrays_recursive_nested G) ->
        dict_lookup buffer_eqb (where_allocated final) (sdfg, name)
        = Some (Some top_sdfg)
        /\ In (sdfg,
               fst (first_instance (access_instances G X sdfg name)),
               snd (first_instance (access_instances G X sdfg name)),
               true, true, true)
              (dict_get scope_eqb (to_allocate final) (Some (OfSDFG top_sdfg)))).
Proof.
  intros Hlook Htr Hconst Hlife Hused. split.
  - intros self. eexists. split.
    + apply (plan_array_program_wide fuel self sdfg name desc top_desc
               Hlook Htr Hconst Hlife Hused).
    + eapply plan_array_records_at_top; try eassumption.
      apply (plan_array_program_wide fuel self sdfg name desc top_desc
               Hlook Htr Hconst Hlife Hused).
  - unfold determine_allocation_lifetime. intros self final Hrun Hin.
    change (recorded_at_top sdfg name final).
    revert self Hrun.
    induction (arrays_recursive_nested G) as [|entry rest IH]; [destruct Hin|].
    intros self Hrun. simpl in Hrun.
    destruct (plan_array G X top_sdfg fuel self entry) as [self1| |] eqn:E;
      simpl in Hrun; try discriminate.
    destruct Hin as [Heq|Hin].
    + subst entry.
      eapply plan_arrays_keep_record; try eassumption.
      eapply plan_array_records_at_top; eassumption.
    + apply (IH Hin self1 Hrun).
Qed.

(** C10 (as amended: the buffer is not a constant).  A used transient
    buffer with [Persistent] (or [External]) lifetime and storage
    [CPU_ThreadLocal] that is not a constant gets no field in the state
    structure, yet its action with declare, allocate and deallocate set
    is appended to the actions keyed to the top-level SDFG and
    [where_allocated] maps it there, as for every other such buffer;
    with any other storage the same happens and the field is
    appended. *)
Theorem thread_local_buffer_gets_no_state_field
  (fuel : nat) (self : Generator) (sdfg : SDFG) (name : string)
  (desc top_desc : Data) :
  lookup_array G sdfg (before_dot name) = Some top_desc ->
  transient top_desc = true ->
  str_in name (constants_prop G sdfg) = false ->
  lifetime top_desc = AllocationLifetime.Persistent
  \/ lifetime top_desc = AllocationLifetime.External ->
  access_instances G X sdfg name <> [] ->
  exists self',
    plan_array G X top_sdfg fuel self (sdfg, name, desc) = Ok self'
    /\ statestruct self' =
         (if StorageType.eqb (storage top_desc) StorageType.CPU_ThreadLocal
          then statestruct self
          else statestruct self ++ [field_definition X sdfg name desc])%list
    /\ dict_get scope_eqb (to_allocate self') (Some (OfSDFG top_sdfg)) =
         (dict_get scope_eqb (to_allocate self) (Some (OfSDFG top_sdfg))
            ++ [(sdfg,
                 fst (first_instance (access_instances G X sdfg name)),
                 snd (first_instance (access_instances G X sdfg name)),
                 true, true, true)])%list
    /\ dict_lookup buffer_eqb (where_allocated self') (sdfg, name)
       = Some (Some top_sdfg).
Proof.
  intros Hlook Htr Hconst Hlife Hused.
  assert (Hwide : program_wide (lifetime top_desc)).
  { unfold program_wide. destruct Hlife; auto. }
  eexists. split;
    [apply (plan_array_program_wide fuel self sdfg name desc top_desc
              Hlook Htr Hconst Hwide Hused)|].
  split; [|split].
  - destruct Hlife as [H|H]; rewrite H; simpl;
      destruct (StorageType.eqb (storage top_desc) StorageType.CPU_ThreadLocal);
      reflexivity.
  - change (to_allocate (set_where ?g _ _ _)) with (to_allocate g).
    rewrite get_after_add_action, scope_eqb_refl.
    destruct Hlife as [H|H]; rewrite H;
      destruct (negb (StorageType.eqb (storage top_desc) StorageType.CPU_ThreadLocal));
      reflexivity.
  - rewrite lookup_after_set_where. now rewrite buffer_eqb_refl.
Qed.

(** C4. For every buffer of [Scope] lifetime whose name is a free
    symbol of an inter-state edge of its SDFG or among the region-level
    symbols of one of its control-flow regions, the case analysis sets
    the starting scope to the SDFG that owns the buffer, never to a
    state or an entry node.  (The buffer is then passed over only if it
    is shared and has no access instance.) *)
Theorem scope_buffer_named_in_control_flow_starts_at_its_sdfg
  (sdfg : SDFG) (name : string) (desc : Data)
  (first_state_instance : option SDFGState) (first_node_instance : option AccessNode) :
  names_symbol sdfg name ->
  exists alloc_state skip,
    candidate_scope G X sdfg name desc AllocationLifetime.Scope
      first_state_instance first_node_instance
    = Ok (Some (OfSDFG sdfg), alloc_state, skip)
    /\ (skip = true ->
        str_in name (shared_transients G sdfg) = true /\ first_node_instance = None).
Proof.
  intros Hnamed. apply named_in_control_flow_iff in Hnamed.
  unfold candidate_scope. rewrite Hnamed, orb_false_r.
  destruct (str_in name (shared_transients G sdfg)).
  - eexists _, _. split; [reflexivity|].
    destruct first_node_instance; [discriminate | auto].
  - exists None, false. split; [reflexivity | discriminate].
Qed.

Lemma shared_or_sdfg_lifetime_selected (sdfg : SDFG) (name : string)
  (desc top_desc : Data) :
  access_instances G X sdfg name <> [] ->
  str_in name (shared_transients G sdfg) = true
  \/ lifetime top_desc = AllocationLifetime.SDFG ->
  scope_selected sdfg name desc top_desc.
Proof.
  intros Hused Hcase. unfold scope_selected.
  destruct (first_instance_some _ Hused) as (st & node & Hfirst). rewrite Hfirst.
  simpl fst; simpl snd. unfold candidate_scope.
  destruct Hcase as [Hshared|Hsdfg].
  - rewrite Hshared. simpl orb.
    destruct (lifetime top_desc); try exact I; eexists _, _; reflexivity.
  - rewrite Hsdfg, orb_true_r. eexists _, _; reflexivity.
Qed.

Lemma state_lifetime_selected (sdfg : SDFG) (name : string) (desc top_desc : Data) :
  access_instances G X sdfg name <> [] ->
  lifetime top_desc = AllocationLifetime.State ->
  (exists state node, In state (states G sdfg) /\ In node (data_nodes G state)
                      /\ data node = name) ->
  scope_selected sdfg name desc top_desc.
Proof.
  intros Hused Hlife Hnode.
  destruct (str_in name (shared_transients G sdfg)) eqn:Hshared.
  - apply shared_or_sdfg_lifetime_selected; auto.
  - unfold scope_selected. rewrite Hlife. unfold candidate_scope.
    rewrite Hshared. simpl orb. cbv iota.
    destruct (state_lifetime_loop_some name (states G sdfg) Hnode None) as [H|H];
      destruct (state_lifetime_loop G name (states G sdfg) None) as [cur multi];
      simpl in H; subst.
    + eexists _, _; reflexivity.
    + destruct multi; [eexists _, _; reflexivity|].
      destruct cur as [c|]; [|congruence]. eexists _, _; reflexivity.
Qed.

(** X1.  Take a transient, non-constant buffer and a run
    of the loop body for it that returns.  If the buffer has an access
    instance and the case analysis on its lifetime finds a scope to
    start from, the plan gains exactly one action with the allocate
    flag and exactly one with the deallocate flag; the one exception is
    a view whose descriptor depends on a non-free symbol and whose
    first and last occurrence lie in different states, which gains one
    of each per access instance.  A buffer that no state accesses and
    no edge or region names leaves the generator as it was.  A scope is
    found, by design, for every buffer with an access instance that is
    shared or has a program-wide or [SDFG] lifetime, and for every
    [State]-lifetime buffer with a data node in some state. *)
Theorem one_allocate_and_one_deallocate_per_planned_buffer
  (fuel : nat) (self self' : Generator) (sdfg : SDFG) (name : string)
  (desc top_desc : Data) :
  lookup_array G sdfg (before_dot name) = Some top_desc ->
  transient top_desc = true ->
  str_in name (constants_prop G sdfg) = false ->
  plan_array G X top_sdfg fuel self (sdfg, name, desc) = Ok self' ->
  let instances := access_instances G X sdfg name in
  (instances <> [] -> scope_selected sdfg name desc top_desc ->
     exists k,
       allocations self' = allocations self + k
       /\ deallocations self' = deallocations self + k
       /\ (k = 1
           \/ (k = List.length instances
               /\ is_View desc = true
               /\ state_eqb (fst (first_instance instances))
                            (fst (last_instance instances)) = false
               /\ is_nonfree_sym_dependent X (snd (first_instance instances)) desc
                    (fst (first_instance instances))
                    (symbols_and_constants X sdfg) = true)))
  /\ (never_accessed sdfg name -> self' = self)
  /\ (forall self0 self1 cursdfg curscope,
        record_actions X fuel self0 sdfg name desc instances cursdfg curscope
        = Ok self1 ->
        let k := if view_case sdfg desc instances curscope
                 then List.length instances else 1 in
        allocations self1 = allocations self0 + k
        /\ deallocations self1 = deallocations self0 + k)
  /\ (instances <> [] ->
      str_in name (shared_transients G sdfg) = true
      \/ program_wide (lifetime top_desc)
      \/ lifetime top_desc = AllocationLifetime.SDFG
      \/ (lifetime top_desc = AllocationLifetime.State
          /\ exists state node, In state (states G sdfg)
                                /\ In node (data_nodes G state) /\ data node = name) ->
      scope_selected sdfg name desc top_desc).
Proof.
  intros Hlook Htr Hconst Hplan instances.
  unfold plan_array in Hplan. simpl fst in Hplan; simpl snd in Hplan.
  rewrite Hlook, Htr, Hconst in Hplan. simpl negb in Hplan. cbv iota in Hplan.
  fold instances in Hplan.
  split; [|split; [|split]].
  - (* used and selected *)
    intros Hused Hsel.
    destruct (first_instance_some _ Hused) as (st & node & Hfirst).
    unfold scope_selected in Hsel. fold instances in Hsel.
    rewrite Hfirst in Hplan, Hsel. simpl fst in Hsel; simpl snd in Hsel.
    assert (Hrest : forall l,
      (exists alloc_scope alloc_state,
          candidate_scope G X sdfg name desc l (Some st) (Some node)
          = Ok (Some alloc_scope, alloc_state, false)) ->
      bind (candidate_scope G X sdfg name desc l (Some st) (Some node))
        (fun cand =>
           match cand with
           | (_, _, true) => Ok self
           | (None, _, false) => Ok self
           | (Some alloc_scope, alloc_state, false) =>
               bind (climb G X fuel desc (Some sdfg) alloc_state (Some alloc_scope))
                 (fun reached =>
                    record_actions X fuel self sdfg name desc instances
                      (fst (fst reached))
                      (match snd reached with
                       | None => OfSDFG top_sdfg
                       | Some sc => sc
                       end))
           end) = Ok self' ->
      exists k,
        allocations self' = allocations self + k
        /\ deallocations self' = deallocations self + k
        /\ (k = 1
            \/ (k = List.length instances
                /\ is_View desc = true
                /\ state_eqb (fst (first_instance instances))
                             (fst (last_instance instances)) = false
                /\ is_nonfree_sym_dependent X (snd (first_instance instances)) desc
                     (fst (first_instance instances))
                     (symbols_and_constants X sdfg) = true))).
    { intros l (alloc_scope & alloc_state & Hcand) Hrun.
      rewrite Hcand in Hrun. simpl in Hrun.
      destruct (climb G X fuel desc (Some sdfg) alloc_state (Some alloc_scope))
        as [reached| |]; simpl in Hrun; try discriminate.
      destruct (record_actions_counts _ _ _ _ _ _ _ _ _ Hrun) as (Ha & Hd).
      eexists. split; [exact Ha|]. split; [exact Hd|].
      destruct (view_case sdfg desc instances _) eqn:Hv; [|now left].
      right. unfold view_case in Hv.
      apply andb_true_iff in Hv as (Hv & Hview).
      apply andb_true_iff in Hv as (Hv & Hdiff).
      apply andb_true_iff in Hv as (_ & Hnonfree).
      apply negb_true_iff in Hdiff. auto. }
    destruct (lifetime top_desc); try (apply (Hrest _ Hsel Hplan));
      inversion Hplan; subst; exists 1;
      rewrite allocations_set_where, deallocations_set_where,
        allocations_add_action, deallocations_add_action;
      try destruct (negb (StorageType.eqb (storage top_desc) StorageType.CPU_ThreadLocal));
      rewrite ?allocations_add_field, ?deallocations_add_field; simpl; auto.
  - (* never accessed *)
    intros (Hinst & Hdata & Hnodes & Hsym).
    fold instances in Hinst. rewrite Hinst in Hplan. simpl in Hplan.
    assert (Hnamed : named_in_control_flow G sdfg name = false).
    { destruct (named_in_control_flow G sdfg name) eqn:E; [|reflexivity].
      exfalso. apply Hsym. now apply named_in_control_flow_iff. }
    unfold candidate_scope in Hplan.
    destruct (lifetime top_desc); simpl in Hplan;
      try (inversion Hplan; reflexivity);
      destruct (str_in name (shared_transients G sdfg)); simpl in Hplan;
      try (inversion Hplan; reflexivity).
    + rewrite Hnamed in Hplan.
      rewrite (scope_states_loop_none name (states G sdfg) Hnodes) in Hplan.
      simpl in Hplan. now inversion Hplan.
    + rewrite (state_lifetime_loop_none name (states G sdfg) Hdata) in Hplan.
      simpl in Hplan. now inversion Hplan.
  - intros self0 self1 cursdfg curscope. apply record_actions_counts.
  - intros Hused [Hshared|[Hwide|[Hsdfg|(Hstate & Hnode)]]].
    + apply shared_or_sdfg_lifetime_selected; auto.
    + unfold scope_selected. destruct Hwide as [H|[H|H]]; rewrite H; exact I.
    + apply shared_or_sdfg_lifetime_selected; auto.
    + apply state_lifetime_selected; auto.
Qed.

End PlannerFacts.

(** *** A sample program

    A top-level SDFG 0 with one state 10 that holds a nested SDFG 1
    with two states 20 and 21 joined by an edge whose condition reads
    [flag]. *)

Definition host_type : typeclass :=
  plain {| ctype := "double"; bytes := 8; emit_definition := None |}.

Definition buffer (st : StorageType.t) (l : AllocationLifetime.t) : Data :=
  {| transient := true; storage := st; lifetime := l; dtype := host_type;
     total_size := 16; is_View := false |}.

Definition access (id : nat) (name : string) : AccessNode :=
  {| guid := Some id; data := name |}.

Definition flag_edge : InterstateEdge :=
  {| edge_free_symbols := ["flag"]; edge_used_symbols := Some ["flag"] |}.

Definition sample_program : Program :=
  {| arrays := fun g =>
       match g with
       | 0 => [("A", buffer StorageType.CPU_Heap AllocationLifetime.Scope)]
       | _ => [("P", buffer StorageType.CPU_Heap AllocationLifetime.Persistent);
               ("T", buffer StorageType.CPU_ThreadLocal AllocationLifetime.Persistent);
               ("flag", buffer StorageType.CPU_Heap AllocationLifetime.Scope);
               ("K", buffer StorageType.CPU_Heap AllocationLifetime.Persistent);
               ("L", buffer StorageType.CPU_ThreadLocal AllocationLifetime.Persistent)]
       end;
     constants_prop := fun g => match g with 0 => [] | _ => ["K"; "L"] end;
     states := fun g => match g with 0 => [10] | _ => [20; 21] end;
     all_interstate_edges := fun g => match g with 0 => [] | _ => [flag_edge] end;
     region_used_symbols := fun _ => [];
     shared_transients := fun g => match g with 0 => [] | _ => ["P"; "flag"] end;
     parent_nsdfg_node := fun g => match g with 0 => None | _ => Some (N_Other 99) end;
     parent := fun g => match g with 0 => None | _ => Some 10 end;
     parent_sdfg := fun g => match g with 0 => None | _ => Some 0 end;
     state_parent := fun st => match st with 10 => 0 | _ => 1 end;
     data_nodes := fun st =>
       match st with
       | 10 => [access 1 "A"]
       | 20 => [access 2 "P"; access 3 "T"; access 4 "K"; access 5 "L"; access 6 "flag"]
       | 21 => [access 7 "P"]
       | _ => []
       end;
     nodes := fun st =>
       match st with
       | 10 => [N_AccessNode (access 1 "A"); N_Other 99]
       | 20 => [N_AccessNode (access 2 "P"); N_AccessNode (access 3 "T");
                N_AccessNode (access 4 "K"); N_AccessNode (access 5 "L");
                N_AccessNode (access 6 "flag")]
       | 21 => [N_AccessNode (access 7 "P")]
       | _ => []
       end;
     all_edges := fun st => match st with 20 | 21 => [flag_edge] | _ => [] end;
     scope_dict := fun _ _ => None;
     entry_node := fun _ _ => None;
     arrays_recursive_nested :=
       [ (0, "A", buffer StorageType.CPU_Heap AllocationLifetime.Scope);
         (1, "P", buffer StorageType.CPU_Heap AllocationLifetime.Persistent);
         (1, "T", buffer StorageType.CPU_ThreadLocal AllocationLifetime.Persistent);
         (1, "flag", buffer StorageType.CPU_Heap AllocationLifetime.Scope);
         (1, "K", buffer StorageType.CPU_Heap AllocationLifetime.Persistent);
         (1, "L", buffer StorageType.CPU_ThreadLocal AllocationLifetime.Persistent) ] |}.

(** Collaborators of a host-only program: everything can be allocated
    everywhere and no descriptor depends on a non-free symbol. *)
Definition host_collaborators : Collaborators :=
  {| can_allocate := fun _ _ => true;
     FPGA_STORAGES := [];
     GPU_STORAGES := [];
     is_devicelevel_fpga := fun _ _ _ => false;
     is_devicelevel_gpu := fun _ _ _ => false;
     common_parent_scope := fun _ scope _ => Ok (Some scope);
     is_nonfree_sym_dependent := fun _ _ _ _ => false;
     get_control_flow_block_dominators := fun _ => stuck_dominators;
     reachability := fun _ _ => [];
     as_arg := fun desc name => ctype (info_of (dtype desc)) ++ " *" ++ name;
     symbols_and_constants := fun _ => [];
     blockorder_topological_sort := fun g => match g with 0 => [10] | _ => [20; 21] end |}.

(** The plan of the sample program. *)
Definition sample_plan : Generator :=
  match determine_allocation_lifetime sample_program host_collaborators 0 5
          new_generator with
  | Ok final => final
  | _ => new_generator
  end.

Lemma sample_plan_returned :
  determine_allocation_lifetime sample_program host_collaborators 0 5 new_generator
  = Ok sample_plan.
Proof. reflexivity. Qed.

Lemma program_wide_buffers_are_allocated_at_top_sdfg_witness :
  dict_lookup buffer_eqb (where_allocated sample_plan) (1, "P") = Some (Some 0)
  /\ In (1, Some 20, Some (access 2 "P"), true, true, true)
        (dict_get scope_eqb (to_allocate sample_plan) (Some (OfSDFG 0))).
Proof.
  destruct (program_wide_buffers_are_allocated_at_top_sdfg
              sample_program host_collaborators 0 5 1 "P"
              (buffer StorageType.CPU_Heap AllocationLifetime.Persistent)
              (buffer StorageType.CPU_Heap AllocationLifetime.Persistent))
    as (_ & Hrun).
  - reflexivity.
  - reflexivity.
  - reflexivity.
  - left. reflexivity.
  - discriminate.
  - apply (Hrun new_generator sample_plan sample_plan_returned).
    simpl. auto.
Defined.

(** The constant [K] of the nested SDFG is transient, [Persistent] and
    accessed in state 20, and the planner records nothing for it. *)
Lemma constant_persistent_buffer_is_not_recorded :
  lookup_array sample_program 1 "K"
  = Some (buffer StorageType.CPU_Heap AllocationLifetime.Persistent)
  /\ access_instances sample_program host_collaborators 1 "K"
     = [(20, access 4 "K")]
  /\ determine_allocation_lifetime sample_program host_collaborators 0 5 new_generator
     = Ok sample_plan
  /\ dict_lookup buffer_eqb (where_allocated sample_plan) (1, "K") = None.
Proof. repeat split; reflexivity. Qed.

Lemma thread_local_buffer_gets_no_state_field_witness :
  exists self',
    plan_array sample_program host_collaborators 0 5 new_generator
      (1, "T", buffer StorageType.CPU_ThreadLocal AllocationLifetime.Persistent)
    = Ok self'
    /\ statestruct self' = []
    /\ dict_get scope_eqb (to_allocate self') (Some (OfSDFG 0))
       = [(1, Some 20, Some (access 3 "T"), true, true, true)]
    /\ dict_lookup buffer_eqb (where_allocated self') (1, "T") = Some (Some 0).
Proof.
  apply (thread_local_buffer_gets_no_state_field sample_program host_collaborators 0 5
           new_generator 1 "T"
           (buffer StorageType.CPU_ThreadLocal AllocationLifetime.Persistent)
           (buffer StorageType.CPU_ThreadLocal AllocationLifetime.Persistent)).
  - reflexivity.
  - reflexivity.
  - reflexivity.
  - left. reflexivity.
  - discriminate.
Defined.

(** The constant [L] of the nested SDFG is transient, [Persistent],
    thread-local and accessed in state 20; the loop body for it adds no
    action, and no action of the finished plan names it. *)
Lemma constant_thread_local_buffer_gets_no_action :
  lookup_array sample_program 1 "L"
  = Some (buffer StorageType.CPU_ThreadLocal AllocationLifetime.Persistent)
  /\ access_instances sample_program host_collaborators 1 "L"
     = [(20, access 5 "L")]
  /\ plan_array sample_program host_collaborators 0 5 new_generator
       (1, "L", buffer StorageType.CPU_ThreadLocal AllocationLifetime.Persistent)
     = Ok new_generator
  /\ dict_get scope_eqb (to_allocate sample_plan) (Some (OfSDFG 0))
     = [(1, Some 20, Some (access 2 "P"), true, true, true);
        (1, Some 20, Some (access 3 "T"), true, true, true)].
Proof. repeat split; reflexivity. Qed.

Lemma scope_buffer_named_in_control_flow_starts_at_its_sdfg_witness :
  exists alloc_state skip,
    candidate_scope sample_program host_collaborators 1 "flag"
      (buffer StorageType.CPU_Heap AllocationLifetime.Scope) AllocationLifetime.Scope
      (Some 20) (Some (access 6 "flag"))
    = Ok (Some (OfSDFG 1), alloc_state, skip)
    /\ (skip = true ->
        str_in "flag" (shared_transients sample_program 1) = true
        /\ Some (access 6 "flag") = None).
Proof.
  apply (scope_buffer_named_in_control_flow_starts_at_its_sdfg
           sample_program host_collaborators 1 "flag").
  left. exists flag_edge. split; simpl; auto.
Defined.

(** The generator after the loop body ran for the buffer [flag]. *)
Definition after_flag : Generator :=
  match plan_array sample_program host_collaborators 0 5 new_generator
          (1, "flag", buffer StorageType.CPU_Heap AllocationLifetime.Scope) with
  | Ok self' => self'
  | _ => new_generator
  end.

Lemma one_allocate_and_one_deallocate_per_planned_buffer_witness :
  allocations after_flag = allocations new_generator + 1
  /\ deallocations after_flag = deallocations new_generator + 1.
Proof.
  destruct (one_allocate_and_one_deallocate_per_planned_buffer
              sample_program host_collaborators 0 5 new_generator after_flag
              1 "flag" (buffer StorageType.CPU_Heap AllocationLifetime.Scope)
              (buffer StorageType.CPU_Heap AllocationLifetime.Scope)
              eq_refl eq_refl eq_refl eq_refl) as (Hused & _).
  destruct Hused as (k & Ha & Hd & [Hk|(_ & Hview & _)]).
  - discriminate.
  - exists (OfSDFG 1), (Some 20). reflexivity.
  - subst k. split; assumption.
  - discriminate Hview.
Defined.






(** *** More on the planner: where it ends, what it raises, what it records *)

Section PlannerScopes.

Variable G : Program.
Variable X : Collaborators.
Variable top_sdfg : SDFG.

(** X11. The loop that climbs the scope tree ends only at a scope in
    which the descriptor can be allocated, or with no scope left (the
    planner then falls back to the top-level SDFG): whenever it
    returns, [curscope] is [None] or [_can_allocate] holds for the
    [(cursdfg, curstate, curscope)] it returns. *)
Theorem climb_ends_where_the_buffer_can_be_allocated (desc : Data) :
  forall fuel cursdfg curstate curscope sdfg' state' scope',
    climb G X fuel desc cursdfg curstate curscope = Ok (sdfg', state', scope') ->
    scope' = None
    \/ exists fuel', fuel' <= fuel
                     /\ _can_allocate G X fuel' sdfg' state' desc scope' = Ok true.
Proof.
  induction fuel as [|fuel IH]; intros cursdfg curstate curscope sdfg' state' scope';
    simpl;
    destruct (_can_allocate G X _ cursdfg curstate desc curscope)
      as [[|]| |] eqn:Hcan; simpl; try discriminate.
  - intros H; inversion H; subst. right. exists 0. auto.
  - destruct curscope as [sc|]; [|intros H; inversion H; auto].
    destruct (climb_once G cursdfg curstate sc); simpl; discriminate.
  - intros H; inversion H; subst. right. exists (S fuel). auto.
  - destruct curscope as [sc|]; [|intros H; inversion H; auto].
    destruct (climb_once G cursdfg curstate sc) as [[[g s] c]| |]; simpl;
      try discriminate.
    intros H. destruct (IH _ _ _ _ _ _ H) as [Hnone|(fuel' & Hle & Hok)];
      [now left|].
    right. exists fuel'. split; [lia | assumption].
Qed.

(** The states of the SDFG that hold a data node of the buffer. *)
Definition states_holding (sdfg : SDFG) (name : string) : list SDFGState :=
  filter (fun state => existsb (fun n => String.eqb (data n) name) (data_nodes G state))
         (states G sdfg).

Lemma state_lifetime_loop_filter (name : string) (sts : list SDFGState) :
  forall cur,
    state_lifetime_loop G name sts cur =
    match cur,
          filter (fun state =>
                    existsb (fun n => String.eqb (data n) name) (data_nodes G state))
                 sts with
    | None, [] => (None, false)
    | None, [st] => (Some st, false)
    | None, st :: _ :: _ => (Some st, true)
    | Some c, [] => (Some c, false)
    | Some c, _ :: _ => (Some c, true)
    end.
Proof.
  induction sts as [|state rest IH]; intros cur; simpl.
  - destruct cur; reflexivity.
  - destruct (existsb (fun n => String.eqb (data n) name) (data_nodes G state)).
    + destruct cur as [c|]; [reflexivity|].
      rewrite IH. destruct (filter _ rest); reflexivity.
    + apply IH.
Qed.

(** X13. For a buffer of [State] lifetime that is not shared the
    starting scope is decided by the states of its SDFG that hold a
    data node of its name: none gives no scope (the buffer is passed
    over), exactly one gives that state as scope and as allocation
    state, two or more give the SDFG and no allocation state. *)
Theorem state_lifetime_buffer_starts_at_its_only_state
  (sdfg : SDFG) (name : string) (desc : Data)
  (first_state_instance : option SDFGState) (first_node_instance : option AccessNode) :
  str_in name (shared_transients G sdfg) = false ->
  candidate_scope G X sdfg name desc AllocationLifetime.State
    first_state_instance first_node_instance
  = Ok (match states_holding sdfg name with
        | [] => (None, None, false)
        | [state] => (Some (OfState state), Some state, false)
        | _ :: _ :: _ => (Some (OfSDFG sdfg), None, false)
        end).
Proof.
  intros Hshared. unfold candidate_scope, states_holding.
  rewrite Hshared. simpl orb. cbv iota.
  rewrite state_lifetime_loop_filter.
  destruct (filter _ (states G sdfg)) as [|st [|st' more]]; reflexivity.
Qed.

End PlannerScopes.

Section PlannerErrors.

Variable G : Program.
Variable X : Collaborators.
Variable top_sdfg : SDFG.

Lemma get_schedule_raises (fuel : nat) :
  forall scope e, _get_schedule G fuel scope = Raise e -> e = AttributeError.
Proof.
  induction fuel as [|fuel IH]; intros [[g|st|en]|] e; simpl; try discriminate;
    try (destruct (parent_nsdfg_node G _); try discriminate;
         destruct (parent G _); [|intros H; now inversion H]; try discriminate;
         destruct (entry_node G _ _); apply IH).
Qed.

Lemma can_allocate_raises (fuel : nat) sdfg state desc scope e :
  _can_allocate G X fuel sdfg state desc scope = Raise e -> e = AttributeError.
Proof.
  unfold _can_allocate.
  destruct (_get_schedule G fuel scope) as [sch| |] eqn:E; simpl; try discriminate.
  - destruct (can_allocate X (storage desc) sch); [discriminate|].
    destruct (storage_in _ _); [discriminate|].
    destruct (storage_in _ _); discriminate.
  - intros H; inversion H; subst. now apply (get_schedule_raises fuel scope).
Qed.

Lemma climb_once_raises cursdfg curstate curscope e :
  climb_once G cursdfg curstate curscope = Raise e -> e = AttributeError.
Proof.
  unfold climb_once. destruct curscope as [g|st|en].
  - destruct (parent_nsdfg_node G g); [|discriminate].
    destruct (parent G g); [discriminate|]. intros H; now inversion H.
  - destruct (parent_nsdfg_node G _); [|discriminate].
    destruct (parent G _); [discriminate|]. intros H; now inversion H.
  - destruct curstate as [cs|]; [|intros H; now inversion H].
    destruct (entry_node G cs _); discriminate.
Qed.

Lemma climb_raises (desc : Data) (fuel : nat) :
  forall cursdfg curstate curscope e,
    climb G X fuel desc cursdfg curstate curscope = Raise e -> e = AttributeError.
Proof.
  induction fuel as [|fuel IH]; intros cursdfg curstate curscope e; simpl;
    destruct (_can_allocate G X _ cursdfg curstate desc curscope)
      as [[|]| |] eqn:Hcan; simpl; try discriminate;
    try (intros H; inversion H; subst; now apply can_allocate_raises in Hcan);
    destruct curscope as [sc|]; try discriminate;
    destruct (climb_once G cursdfg curstate sc) as [[[g s] c]| |] eqn:Honce; simpl;
    try discriminate;
    try (intros H; inversion H; subst; now apply climb_once_raises in Honce).
  apply IH.
Qed.

Lemma common_ancestor_loop_raises imm sets occurrences msg (fuel : nat) :
  forall candidate e,
    common_ancestor_loop fuel imm sets occurrences msg candidate = Raise e ->
    e = KeyError \/ e = NotImplementedError msg.
Proof.
  induction fuel as [|fuel IH]; intros candidate e; simpl;
    destruct (existsb _ occurrences); try discriminate;
    (destruct (imm candidate) as [next|]; [|intros H; inversion H; now left]);
    (destruct (Nat.eqb next candidate); [intros H; inversion H; now right|]);
    [discriminate | apply IH].
Qed.

Lemma dominator_search_raises (fuel : nat) (D : Dominators)
  (first_state : SDFGState) (first_node : AccessNode)
  (rest : list (SDFGState * AccessNode)) (e : Exception) :
  _get_dominator_and_postdominator fuel D ((first_state, first_node) :: rest) = Raise e ->
  e = KeyError
  \/ e = NotImplementedError (dominator_message (data first_node))
  \/ e = NotImplementedError (postdominator_message (data first_node)).
Proof.
  unfold _get_dominator_and_postdominator.
  destruct (common_ancestor_loop fuel (idom D) _ _ _ first_state)
    as [s| |] eqn:Hs; simpl; try discriminate.
  - destruct (common_ancestor_loop fuel (ipostdom D) _ _ _ _)
      as [t| |] eqn:Ht; simpl; try discriminate.
    intros H; inversion H; subst.
    destruct (common_ancestor_loop_raises _ _ _ _ _ _ _ Ht); auto.
  - intros H; inversion H; subst.
    destruct (common_ancestor_loop_raises _ _ _ _ _ _ _ Hs); auto.
Qed.

Lemma instances_in_state_data (sdfg : SDFG) (name : string) (state st : SDFGState)
  (node : AccessNode) :
  In (st, node) (instances_in_state G sdfg name state) -> data node = name.
Proof.
  unfold instances_in_state. intros H. apply in_app_or in H as [H|H].
  - apply in_map_iff in H as (n & Heq & Hin). inversion Heq; subst.
    apply filter_In in Hin as (_ & Hn). apply andb_true_iff in Hn as (_ & Hn).
    now apply String.eqb_eq.
  - destruct (str_in name _ && str_in name _); [|destruct H].
    destruct H as [H|[]]. now inversion H.
Qed.

Lemma access_instances_data (sdfg : SDFG) (name : string) (st : SDFGState)
  (node : AccessNode) :
  In (st, node) (access_instances G X sdfg name) -> data node = name.
Proof.
  unfold access_instances. intros H. apply in_flat_map in H as (state & _ & H).
  now apply instances_in_state_data in H.
Qed.

Lemma first_instance_in (l : list (SDFGState * AccessNode)) st node :
  first_instance l = (Some st, Some node) -> In (st, node) l.
Proof.
  destruct l as [|[s n] rest]; simpl; [discriminate|].
  intros H; inversion H; subst. now left.
Qed.

Lemma record_actions_raises (fuel : nat) (self : Generator) (sdfg : SDFG)
  (name : string) (desc : Data) (cursdfg : option SDFG) (curscope : ScopeRef)
  (e : Exception) :
  record_actions X fuel self sdfg name desc (access_instances G X sdfg name)
    cursdfg curscope = Raise e ->
  e = KeyError
  \/ e = NotImplementedError (dominator_message name)
  \/ e = NotImplementedError (postdominator_message name).
Proof.
  unfold record_actions.
  destruct (access_instances G X sdfg name) as [|[fs fn] rest] eqn:Hinst.
  - simpl. destruct (negb (is_entry_scope curscope) && _); simpl; discriminate.
  - assert (Hdata : data fn = name).
    { apply (access_instances_data sdfg name fs). rewrite Hinst. now left. }
    change (first_instance ((fs, fn) :: rest)) with (Some fs, Some fn).
    destruct (last_instance ((fs, fn) :: rest)) as [ls ln].
    destruct (negb (is_entry_scope curscope) && _); [|discriminate].
    destruct (negb (state_eqb (Some fs) ls)); [|discriminate].
    destruct (is_View desc); [discriminate|].
    destruct (existsb _ ((fs, fn) :: rest)); [|discriminate].
    destruct (_get_dominator_and_postdominator fuel _ ((fs, fn) :: rest))
      as [[d pd]| |] eqn:Hdoms; simpl; try discriminate.
    intros H. inversion H as [He]. rewrite <- He, <- Hdata.
    exact (dominator_search_raises _ _ _ _ _ _ Hdoms).
Qed.

Definition unrecognized_lifetime_message (desc : Data) : string :=
  "Unrecognized allocation lifetime " ++ quote ++ lifetime_text (lifetime desc) ++ quote.

(** The exception came out of [sdscope.common_parent_scope]. *)
Definition raised_by_common_parent_scope (e : Exception) : Prop :=
  exists state a b, common_parent_scope X state a b = Raise e.

Lemma scope_nodes_loop_raises (name : string) (state : SDFGState) (ns : list Node)
  (e : Exception) :
  forall sc cs,
    scope_nodes_loop G X name state ns sc cs = Raise e ->
    raised_by_common_parent_scope e.
Proof.
  induction ns as [|n rest IH]; intros sc cs; simpl; [discriminate|].
  destruct n as [node|en|g]; try apply IH.
  destruct (negb (String.eqb (root_data node) name)); [apply IH|].
  destruct (match cs with Some c => negb (Nat.eqb c state) | None => false end);
    [discriminate|].
  assert (Hcall : forall a b,
    bind (common_parent_scope X state a b)
      (fun common => scope_nodes_loop G X name state rest common (Some state))
    = Raise e -> raised_by_common_parent_scope e).
  { intros a b. destruct (common_parent_scope X state a b) as [common| |] eqn:Hc;
      simpl; [apply IH | | discriminate].
    intros H. inversion H; subst. now exists state, a, b. }
  destruct sc as [[g|cur|cur]|];
    destruct (scope_dict G state (N_AccessNode node)) as [en|];
    try apply IH; try apply Hcall.
  destruct (existsb (node_is_entry en) (nodes G cur)); [apply IH | apply Hcall].
Qed.

Lemma scope_states_loop_raises (name : string) (sts : list SDFGState) (e : Exception) :
  forall sc cs,
    scope_states_loop G X name sts sc cs = Raise e ->
    raised_by_common_parent_scope e.
Proof.
  induction sts as [|state rest IH]; intros sc cs; simpl; [discriminate|].
  destruct (scope_nodes_loop G X name state (nodes G state) sc cs)
    as [[[sc' cs'] m]| |] eqn:Hnodes; simpl; [| |discriminate].
  - destruct m; [discriminate | apply IH].
  - intros H. inversion H; subst.
    exact (scope_nodes_loop_raises _ _ _ _ _ _ Hnodes).
Qed.

Lemma candidate_scope_raises (sdfg : SDFG) (name : string) (desc : Data)
  (top_lifetime : AllocationLifetime.t) fs fn (e : Exception) :
  candidate_scope G X sdfg name desc top_lifetime fs fn = Raise e ->
  raised_by_common_parent_scope e
  \/ (e = TypeError (unrecognized_lifetime_message desc)
      /\ str_in name (shared_transients G sdfg) = false
      /\ (top_lifetime = AllocationLifetime.Global
          \/ top_lifetime = AllocationLifetime.Persistent
          \/ top_lifetime = AllocationLifetime.External
          \/ exists other, top_lifetime = AllocationLifetime.Other other)).
Proof.
  unfold candidate_scope, unrecognized_lifetime_message.
  destruct (str_in name (shared_transients G sdfg)); simpl; [discriminate|].
  destruct top_lifetime; simpl;
    try solve [intros H; inversion H; right; repeat split; eauto 10].
  - destruct (named_in_control_flow G sdfg name); simpl; [discriminate|].
    destruct (scope_states_loop G X name (states G sdfg) None None)
      as [[[c s] m]| |] eqn:Hloop; simpl; try discriminate.
    + destruct m; discriminate.
    + intros H. inversion H; subst. left.
      exact (scope_states_loop_raises _ _ _ _ _ Hloop).
  - destruct (state_lifetime_loop G name (states G sdfg) None) as [c []]; discriminate.
Qed.

Lemma plan_array_raises
  (fuel : nat) (self : Generator) (sdfg : SDFG) (name : string) (desc : Data)
  (e : Exception) :
  plan_array G X top_sdfg fuel self (sdfg, name, desc) = Raise e ->
  raised_by_common_parent_scope e
  \/ ((e = KeyError
       \/ e = AttributeError
       \/ e = NotImplementedError (dominator_message name)
       \/ e = NotImplementedError (postdominator_message name)
       \/ e = TypeError (unrecognized_lifetime_message desc))
      /\ (forall msg, e = TypeError msg ->
            msg = unrecognized_lifetime_message desc
            /\ str_in name (shared_transients G sdfg) = false
            /\ exists top_desc other,
                 lookup_array G sdfg (before_dot name) = Some top_desc
                 /\ lifetime top_desc = AllocationLifetime.Other other)).
Proof.
  unfold plan_array. simpl fst; simpl snd.
  destruct (lookup_array G sdfg (before_dot name)) as [top_desc|];
    [|intros H; inversion H; right; split; [auto | discriminate]].
  destruct (negb (transient top_desc)); [discriminate|].
  destruct (str_in name (constants_prop G sdfg)); [discriminate|].
  destruct (first_instance (access_instances G X sdfg name)) as [fs fn].
  assert (Hrest : forall l,
    bind (candidate_scope G X sdfg name desc l fs fn)
      (fun cand =>
         match cand with
         | (_, _, true) => Ok self
         | (None, _, false) => Ok self
         | (Some alloc_scope, alloc_state, false) =>
             bind (climb G X fuel desc (Some sdfg) alloc_state (Some alloc_scope))
               (fun reached =>
                  record_actions X fuel self sdfg name desc
                    (access_instances G X sdfg name) (fst (fst reached))
                    (match snd reached with
                     | None => OfSDFG top_sdfg
                     | Some sc => sc
                     end))
         end) = Raise e ->
    raised_by_common_parent_scope e
    \/ ((e = KeyError
         \/ e = AttributeError
         \/ e = NotImplementedError (dominator_message name)
         \/ e = NotImplementedError (postdominator_message name)
         \/ e = TypeError (unrecognized_lifetime_message desc))
        /\ (forall msg, e = TypeError msg ->
              msg = unrecognized_lifetime_message desc
              /\ str_in name (shared_transients G sdfg) = false
              /\ (l = AllocationLifetime.Global \/ l = AllocationLifetime.Persistent
                  \/ l = AllocationLifetime.External
                  \/ exists other, l = AllocationLifetime.Other other)))).
  { intros l.
    destruct (candidate_scope G X sdfg name desc l fs fn)
      as [[[alloc_scope alloc_state] skip]| |] eqn:Hcand; simpl; try discriminate.
    - destruct alloc_scope as [alloc_scope|], skip; try discriminate.
      destruct (climb G X fuel desc (Some sdfg) alloc_state (Some alloc_scope))
        as [reached| |] eqn:Hclimb; simpl; try discriminate.
      + intros H. apply record_actions_raises in H. right.
        split; [tauto|]. intros msg Hmsg. subst e.
        destruct H as [H|[H|H]]; discriminate.
      + intros H; inversion H; subst e0. apply climb_raises in Hclimb. subst e.
        right. split; [auto | discriminate].
    - intros H; inversion H; subst e0.
      apply candidate_scope_raises in Hcand as [Hout|(-> & Hshared & Hl)];
        [now left|].
      right. split; [tauto|]. intros msg Hmsg. inversion Hmsg; subst. auto. }
  destruct (lifetime top_desc) eqn:Hlife;
    try (destruct fn; discriminate).
  - intros H. destruct (Hrest _ H) as [Hout|(A & B)]; [now left|].
    right. split; [assumption|]. intros msg Hmsg.
    destruct (B msg Hmsg) as (B1 & B2 & [C|[C|[C|(o & C)]]]); discriminate.
  - intros H. destruct (Hrest _ H) as [Hout|(A & B)]; [now left|].
    right. split; [assumption|]. intros msg Hmsg.
    destruct (B msg Hmsg) as (B1 & B2 & [C|[C|[C|(o & C)]]]); discriminate.
  - intros H. destruct (Hrest _ H) as [Hout|(A & B)]; [now left|].
    right. split; [assumption|]. intros msg Hmsg.
    destruct (B msg Hmsg) as (B1 & B2 & [C|[C|[C|(o & C)]]]); discriminate.
  - intros H. destruct (Hrest _ H) as [Hout|(A & B)]; [now left|].
    right. split; [assumption|]. intros msg Hmsg.
    destruct (B msg Hmsg) as (B1 & B2 & _).
    split; [assumption|]. split; [assumption|]. now exists top_desc, name0.
Qed.

(** X12. The loop body of the planner raises nothing but an exception
    that came out of [sdscope.common_parent_scope] and its own errors:
    [KeyError] (an array or an immediate dominator is missing),
    [AttributeError] (an SDFG or scope without the parent it is asked
    for), the [NotImplementedError] of the dominator search, naming the
    buffer being planned, and [TypeError] for an unrecognized lifetime.
    The planner's own [TypeError] is raised exactly for a transient,
    non-constant buffer that is not shared and whose top-level
    descriptor has a lifetime outside the six known ones; its message
    quotes the lifetime of the descriptor at hand.  (The other
    functions of other modules the loop body calls are taken to
    return.) *)
Theorem planner_raises_only_its_own_errors
  (fuel : nat) (self : Generator) (sdfg : SDFG) (name : string) (desc : Data) :
  (forall e,
      plan_array G X top_sdfg fuel self (sdfg, name, desc) = Raise e ->
      raised_by_common_parent_scope e
      \/ ((e = KeyError
           \/ e = AttributeError
           \/ e = NotImplementedError (dominator_message name)
           \/ e = NotImplementedError (postdominator_message name)
           \/ e = TypeError (unrecognized_lifetime_message desc))
          /\ (forall msg, e = TypeError msg ->
                msg = unrecognized_lifetime_message desc
                /\ str_in name (shared_transients G sdfg) = false
                /\ exists top_desc other,
                     lookup_array G sdfg (before_dot name) = Some top_desc
                     /\ lifetime top_desc = AllocationLifetime.Other other)))
  /\ (forall top_desc other,
        lookup_array G sdfg (before_dot name) = Some top_desc ->
        transient top_desc = true ->
        str_in name (constants_prop G sdfg) = false ->
        lifetime top_desc = AllocationLifetime.Other other ->
        str_in name (shared_transients G sdfg) = false ->
        plan_array G X top_sdfg fuel self (sdfg, name, desc)
        = Raise (TypeError ("Unrecognized allocation lifetime "
                              ++ quote ++ lifetime_text (lifetime desc) ++ quote))).
Proof.
  split; [intros e; apply plan_array_raises|].
  intros top_desc other Hlook Htr Hconst Hlife Hshared.
  unfold plan_array. simpl fst; simpl snd.
  rewrite Hlook, Htr, Hconst, Hlife. simpl negb. cbv iota.
  destruct (first_instance (access_instances G X sdfg name)) as [fs fn].
  unfold candidate_scope. rewrite Hshared. reflexivity.
Qed.

(** **** Only planned buffers get on record *)

(** The buffer is one the loop plans: listed, transient, and not a
    constant. *)
Definition is_planned (sdfg : SDFG) (name : string) : Prop :=
  exists desc top_desc,
    In (sdfg, name, desc) (arrays_recursive_nested G)
    /\ lookup_array G sdfg (before_dot name) = Some top_desc
    /\ transient top_desc = true
    /\ str_in name (constants_prop G sdfg) = false.

(** The action is one of the buffer: it carries the buffer's SDFG and,
    when it has an access node, a node of the buffer's name. *)
Definition action_names (act : Action) (sdfg : SDFG) (name : string) : Prop :=
  match act with
  | (g, _, node, _, _, _) =>
      g = sdfg /\ match node with Some n => data n = name | None => True end
  end.

(** Every entry of [where_allocated], every action of [to_allocate]
    and every field of [statestruct] belongs to a planned buffer. *)
Record only_planned (self : Generator) : Prop := {
  planned_where : forall sdfg name w,
    dict_lookup buffer_eqb (where_allocated self) (sdfg, name) = Some w ->
    is_planned sdfg name;
  planned_actions : forall scope act,
    In act (dict_get scope_eqb (to_allocate self) scope) ->
    exists sdfg name, action_names act sdfg name /\ is_planned sdfg name;
  planned_fields : forall field,
    In field (statestruct self) ->
    exists sdfg name desc,
      field = field_definition X sdfg name desc /\ is_planned sdfg name
}.

Lemma only_planned_add_action (self : Generator) (k : option ScopeRef) (a : Action)
  (sdfg : SDFG) (name : string) :
  only_planned self -> action_names a sdfg name -> is_planned sdfg name ->
  only_planned (add_action self k a).
Proof.
  intros [Hw Ha Hf] Hnames Hp. split; [exact Hw | | exact Hf].
  intros scope act. rewrite get_after_add_action.
  destruct (scope_eqb scope k); [|apply Ha].
  intros Hin. apply in_app_or in Hin as [Hin|[<-|[]]]; [now apply (Ha scope)|].
  now exists sdfg, name.
Qed.

Lemma only_planned_set_where (self : Generator) (sdfg : SDFG) (name : string)
  (w : option SDFG) :
  only_planned self -> is_planned sdfg name ->
  only_planned (set_where self sdfg name w).
Proof.
  intros [Hw Ha Hf] Hp. split; [| exact Ha | exact Hf].
  intros g n w'. rewrite lookup_after_set_where.
  destruct (buffer_eqb (g, n) (sdfg, name)) eqn:E; [|apply Hw].
  apply buffer_eqb_eq in E. inversion E; subst. auto.
Qed.

Lemma only_planned_add_field (self : Generator) (sdfg : SDFG) (name : string)
  (desc : Data) :
  only_planned self -> is_planned sdfg name ->
  only_planned (add_field self (field_definition X sdfg name desc)).
Proof.
  intros [Hw Ha Hf] Hp. split; [exact Hw | exact Ha |].
  intros field Hin. simpl in Hin. apply in_app_or in Hin as [Hin|[<-|[]]];
    [now apply Hf|]. now exists sdfg, name, desc.
Qed.

Lemma only_planned_view (sdfg : SDFG) (name : string)
  (instances : list (SDFGState * AccessNode)) :
  is_planned sdfg name ->
  (forall st node, In (st, node) instances -> data node = name) ->
  forall self, only_planned self ->
    only_planned (allocate_view_everywhere self sdfg instances).
Proof.
  intros Hp. unfold allocate_view_everywhere.
  induction instances as [|[st node] rest IH]; intros Hdata self Hself; simpl;
    [assumption|].
  apply IH; [intros s n Hin; apply (Hdata s n); now right|].
  assert (Hn : data node = name) by (apply (Hdata st node); now left).
  apply (only_planned_add_action _ _ _ sdfg name); [|now split|assumption].
  apply (only_planned_add_action _ _ _ sdfg name); [assumption|now split|assumption].
Qed.

Lemma first_instance_data (sdfg : SDFG) (name : string) fs fn :
  first_instance (access_instances G X sdfg name) = (fs, fn) ->
  match fn with Some n => data n = name | None => True end.
Proof.
  destruct (access_instances G X sdfg name) as [|[st node] rest] eqn:E; simpl;
    intros H; inversion H; subst; [exact I|].
  apply (access_instances_data sdfg name st). rewrite E. now left.
Qed.

Lemma last_instance_data (sdfg : SDFG) (name : string) ls ln :
  last_instance (access_instances G X sdfg name) = (ls, ln) ->
  match ln with Some n => data n = name | None => True end.
Proof.
  unfold last_instance.
  destruct (rev (access_instances G X sdfg name)) as [|[st node] rest] eqn:E; simpl;
    intros H; inversion H; subst; [exact I|].
  apply (access_instances_data sdfg name st). apply in_rev. rewrite E. now left.
Qed.

Lemma record_actions_only_planned (fuel : nat) (self self' : Generator) (sdfg : SDFG)
  (name : string) (desc : Data) (cursdfg : option SDFG) (curscope : ScopeRef) :
  is_planned sdfg name -> only_planned self ->
  record_actions X fuel self sdfg name desc (access_instances G X sdfg name)
    cursdfg curscope = Ok self' ->
  only_planned self'.
Proof.
  intros Hp Hself. unfold record_actions.
  pose proof (first_instance_data sdfg name) as Hfirst.
  pose proof (last_instance_data sdfg name) as Hlast.
  destruct (first_instance (access_instances G X sdfg name)) as [fs fn].
  destruct (last_instance (access_instances G X sdfg name)) as [ls ln].
  specialize (Hfirst fs fn eq_refl). specialize (Hlast ls ln eq_refl).
  assert (Hadd : forall g k st flags1 flags2 flags3,
            only_planned g ->
            only_planned (add_action g k (sdfg, st, fn, flags1, flags2, flags3)))
    by (intros; apply (only_planned_add_action _ _ _ sdfg name); [|split|]; auto).
  assert (Hadd' : forall g k st flags1 flags2 flags3,
            only_planned g ->
            only_planned (add_action g k (sdfg, st, ln, flags1, flags2, flags3)))
    by (intros; apply (only_planned_add_action _ _ _ sdfg name); [|split|]; auto).
  destruct (negb (is_entry_scope curscope) && _).
  - destruct (negb (state_eqb fs ls)).
    + destruct (is_View desc).
      * intros H; inversion H; subst. apply only_planned_set_where; [|assumption].
        apply (only_planned_view sdfg name); [assumption | | assumption].
        intros st node. apply access_instances_data.
      * destruct (existsb _ (access_instances G X sdfg name)).
        -- destruct (_get_dominator_and_postdominator fuel _ _) as [[d pd]| |];
             simpl; intros H; inversion H; subst.
           apply only_planned_set_where; [|assumption].
           apply Hadd', Hadd.
           apply (only_planned_add_action _ _ _ sdfg name); [|split|]; auto.
        -- simpl. intros H; inversion H; subst.
           apply only_planned_set_where; [|assumption]. apply Hadd', Hadd, Hadd.
           assumption.
    + intros H; inversion H; subst.
      apply only_planned_set_where; [|assumption]. now apply Hadd.
  - intros H; inversion H; subst.
    apply only_planned_set_where; [|assumption]. now apply Hadd.
Qed.

Lemma plan_array_only_planned (fuel : nat) (self self' : Generator)
  (entry : SDFG * string * Data) :
  In entry (arrays_recursive_nested G) -> only_planned self ->
  plan_array G X top_sdfg fuel self entry = Ok self' ->
  only_planned self'.
Proof.
  destruct entry as [[sdfg name] desc]. intros Hin Hself.
  unfold plan_array. simpl fst; simpl snd.
  destruct (lookup_array G sdfg (before_dot name)) as [top_desc|] eqn:Hlook;
    [|discriminate].
  destruct (transient top_desc) eqn:Htr; simpl negb; cbv iota;
    [|intros H; now inversion H; subst].
  destruct (str_in name (constants_prop G sdfg)) eqn:Hconst;
    [intros H; now inversion H; subst|].
  assert (Hp : is_planned sdfg name) by (exists desc, top_desc; auto).
  pose proof (first_instance_data sdfg name) as Hfirst.
  destruct (first_instance (access_instances G X sdfg name)) as [fs fn].
  specialize (Hfirst fs fn eq_refl).
  assert (Hrest : forall l,
    bind (candidate_scope G X sdfg name desc l fs fn)
      (fun cand =>
         match cand with
         | (_, _, true) => Ok self
         | (None, _, false) => Ok self
         | (Some alloc_scope, alloc_state, false) =>
             bind (climb G X fuel desc (Some sdfg) alloc_state (Some alloc_scope))
               (fun reached =>
                  record_actions X fuel self sdfg name desc
                    (access_instances G X sdfg name) (fst (fst reached))
                    (match snd reached with
                     | None => OfSDFG top_sdfg
                     | Some sc => sc
                     end))
         end) = Ok self' ->
    only_planned self').
  { intros l. destruct (candidate_scope G X sdfg name desc l fs fn)
      as [[[alloc_scope alloc_state] skip]| |]; simpl; try discriminate.
    destruct alloc_scope as [alloc_scope|], skip;
      try (intros H; now inversion H; subst).
    destruct (climb G X fuel desc (Some sdfg) alloc_state (Some alloc_scope))
      as [reached| |]; simpl; try discriminate.
    now apply record_actions_only_planned. }
  assert (Hwide : forall g : Generator,
            only_planned g ->
            only_planned
              (set_where
                 (add_action g (Some (OfSDFG top_sdfg))
                    (sdfg, fs, fn, true, true, true))
                 sdfg name (Some top_sdfg))).
  { intros g Hg. apply only_planned_set_where; [|assumption].
    apply (only_planned_add_action _ _ _ sdfg name); [|split|]; auto. }
  destruct (lifetime top_desc); try apply Hrest.
  - destruct fn as [node|]; intros H; inversion H; subst; [|assumption].
    apply Hwide. now apply only_planned_add_field.
  - destruct fn as [node|]; intros H; inversion H; subst; [|assumption].
    apply Hwide.
    destruct (negb (StorageType.eqb (storage top_desc) StorageType.CPU_ThreadLocal));
      [now apply only_planned_add_field | assumption].
  - destruct fn as [node|]; intros H; inversion H; subst; [|assumption].
    apply Hwide.
    destruct (negb (StorageType.eqb (storage top_desc) StorageType.CPU_ThreadLocal));
      [now apply only_planned_add_field | assumption].
Qed.

(** X14. The planner puts nothing on record for a buffer it does not
    plan: after [determine_allocation_lifetime] on a fresh generator,
    every key of [where_allocated], every action of [to_allocate] (by
    its SDFG and the name of its access node) and every field of
    [statestruct] belongs to a buffer of the list that is transient
    and not a constant. *)
Theorem planner_records_only_planned_buffers (fuel : nat) (final : Generator) :
  determine_allocation_lifetime G X top_sdfg fuel new_generator = Ok final ->
  (forall sdfg name w,
      dict_lookup buffer_eqb (where_allocated final) (sdfg, name) = Some w ->
      is_planned sdfg name)
  /\ (forall scope act,
        In act (dict_get scope_eqb (to_allocate final) scope) ->
        exists sdfg name, action_names act sdfg name /\ is_planned sdfg name)
  /\ (forall field,
        In field (statestruct final) ->
        exists sdfg name desc,
          field = field_definition X sdfg name desc /\ is_planned sdfg name).
Proof.
  unfold determine_allocation_lifetime. intros Hrun.
  assert (Hall : forall entries self final',
    (forall entry, In entry entries -> In entry (arrays_recursive_nested G)) ->
    only_planned self ->
    plan_arrays G X top_sdfg fuel self entries = Ok final' ->
    only_planned final').
  { induction entries as [|entry rest IH]; intros self final' Hsub Hself Hplan;
      simpl in Hplan.
    - now inversion Hplan; subst.
    - destruct (plan_array G X top_sdfg fuel self entry) as [self1| |] eqn:E;
        simpl in Hplan; try discriminate.
      apply (IH self1 final'); [intros e He; apply Hsub; now right | | assumption].
      apply (plan_array_only_planned fuel self self1 entry);
        [apply Hsub; now left | assumption | assumption]. }
  assert (H0 : only_planned new_generator).
  { split; simpl; [discriminate | intros scope act [] | intros field []]. }
  destruct (Hall _ _ _ (fun entry H => H) H0 Hrun) as [Hw Ha Hf].
  auto.
Qed.

End PlannerErrors.

(** *** [allocate_arrays_in_scope] and [deallocate_arrays_in_scope] *)

(** A control-flow region, named by identity. *)
Definition ControlFlowRegion := nat.

(** A call the two functions make on the dispatcher, with the arguments
    they compute (the two streams are passed through). *)
Inductive DispatcherCall :=
| dispatch_allocate (sdfg : SDFG) (cfg : ControlFlowRegion) (state : option SDFGState)
    (state_id : Z) (node : AccessNode) (desc : Data) (declare allocate : bool)
| dispatch_deallocate (sdfg : SDFG) (cfg : ControlFlowRegion) (state : SDFGState)
    (state_id : Z) (node : AccessNode) (desc : Data).

Section Dispatch.

(** [state.block_id], [state.parent_graph] and [node.desc(sdfg)]. *)
Variable block_id : SDFGState -> Z.
Variable parent_graph : SDFGState -> ControlFlowRegion.
Variable desc_of : AccessNode -> SDFG -> Data.

(** The loop of [allocate_arrays_in_scope] over the actions of a
    scope: the calls made, in order. *)
Fixpoint allocate_each (cfg : ControlFlowRegion) (actions : list Action)
  : Result (list DispatcherCall) :=
  match actions with
  | [] => Ok []
  | (tsdfg, state, node, declare, allocate, _) :: rest =>
      let state_id := match state with
                      | Some st => block_id st
                      | None => (-1)%Z
                      end in
      match node with
      | None => Raise AttributeError
      | Some n =>
          let call :=
            dispatch_allocate tsdfg
              (match state with None => cfg | Some st => parent_graph st end)
              state state_id n (desc_of n tsdfg) declare allocate in
          calls <- allocate_each cfg rest ;;
          Ok (call :: calls)
      end
  end.

(** The loop of [deallocate_arrays_in_scope]. *)
Fixpoint deallocate_each (actions : list Action) : Result (list DispatcherCall) :=
  match actions with
  | [] => Ok []
  | (tsdfg, state, node, _, _, deallocate) :: rest =>
      if negb deallocate then deallocate_each rest
      else
        match node, state with
        | None, _ => Raise AttributeError
        | Some _, None => Raise AttributeError
        | Some n, Some st =>
            let call :=
              dispatch_deallocate tsdfg (parent_graph st) st (block_id st) n
                (desc_of n tsdfg) in
            calls <- deallocate_each rest ;;
            Ok (call :: calls)
        end
  end.

(** [allocate_arrays_in_scope(sdfg, cfg, scope, ...)]. *)
Definition allocate_arrays_in_scope (self : Generator) (cfg : ControlFlowRegion)
  (scope : ScopeRef) : Result (list DispatcherCall) :=
  allocate_each cfg (dict_get scope_eqb (to_allocate self) (Some scope)).

(** [deallocate_arrays_in_scope(sdfg, cfg, scope, ...)]. *)
Definition deallocate_arrays_in_scope (self : Generator) (scope : ScopeRef)
  : Result (list DispatcherCall) :=
  deallocate_each (dict_get scope_eqb (to_allocate self) (Some scope)).

(** An action the two loops can dispatch: it has an access node, and a
    state when it deallocates. *)
Definition dispatchable (act : Action) : Prop :=
  match act with
  | (_, state, node, _, _, deallocate) =>
      node <> None /\ (deallocate = true -> state <> None)
  end.

(** The flags [(declare, allocate)] an allocation call carries. *)
Definition allocation_flags (call : DispatcherCall) : option (bool * bool) :=
  match call with
  | dispatch_allocate _ _ _ _ _ _ declare allocate => Some (declare, allocate)
  | dispatch_deallocate _ _ _ _ _ _ => None
  end.

Lemma allocate_each_dispatchable (cfg : ControlFlowRegion) (actions : list Action) :
  Forall dispatchable actions ->
  exists calls,
    allocate_each cfg actions = Ok calls
    /\ map allocation_flags calls
       = map (fun act => Some (declare_flag act, allocate_flag act)) actions.
Proof.
  induction 1 as [|[[[[[tsdfg state] node] declare] allocate] deallocate] rest
                    (Hnode & _) _ (calls & Hcalls & Hflags)]; simpl.
  - now exists [].
  - destruct node as [n|]; [|congruence].
    rewrite Hcalls. simpl. eexists. split; [reflexivity|].
    simpl. now rewrite Hflags.
Qed.

Lemma deallocate_each_dispatchable (actions : list Action) :
  Forall dispatchable actions ->
  exists calls,
    deallocate_each actions = Ok calls
    /\ List.length calls = List.length (filter deallocate_flag actions).
Proof.
  induction 1 as [|[[[[[tsdfg state] node] declare] allocate] deallocate] rest
                    (Hnode & Hstate) _ (calls & Hcalls & Hlen)]; simpl.
  - now exists [].
  - destruct deallocate; simpl; [|now exists calls].
    destruct node as [n|]; [|congruence].
    destruct state as [st|]; [|exfalso; now apply Hstate].
    rewrite Hcalls. simpl. eexists. split; [reflexivity|]. simpl. now rewrite Hlen.
Qed.

(** The access node and the state of an action. *)
Definition action_node (act : Action) : option AccessNode :=
  match act with (_, _, node, _, _, _) => node end.

Definition action_state (act : Action) : option SDFGState :=
  match act with (_, state, _, _, _, _) => state end.

(** X16. [allocate_arrays_in_scope] returns exactly when every action
    of the scope has an access node, and [deallocate_arrays_in_scope]
    exactly when every action with the deallocate flag has an access
    node and a state; otherwise they raise [AttributeError] (from
    [node.desc] or [state.parent_graph] on [None]).  An action without
    the deallocate flag is never looked at by the second. *)
Theorem dispatch_needs_a_node_and_a_state :
  (forall cfg actions,
      (exists calls,
          allocate_each cfg actions = Ok calls)
      <-> Forall (fun act => action_node act <> None) actions)
  /\ (forall actions,
        (exists calls,
            deallocate_each actions = Ok calls)
        <-> Forall (fun act => deallocate_flag act = true ->
                               action_node act <> None /\ action_state act <> None)
                   actions)
  /\ (forall cfg actions,
        (exists calls,
            allocate_each cfg actions = Ok calls)
        \/ allocate_each cfg actions
           = Raise AttributeError)
  /\ (forall actions,
        (exists calls,
            deallocate_each actions = Ok calls)
        \/ deallocate_each actions
           = Raise AttributeError).
Proof.
  assert (Halloc : forall cfg actions,
    (Forall (fun act => action_node act <> None) actions
     /\ exists calls,
          allocate_each cfg actions = Ok calls)
    \/ (~ Forall (fun act => action_node act <> None) actions
        /\ allocate_each cfg actions
           = Raise AttributeError)).
  { intros cfg.
    induction actions
      as [|[[[[[tsdfg state] node] declare] allocate] deallocate] rest IH]; simpl.
    - left. split; [constructor | now exists []].
    - destruct node as [n|].
      + destruct IH as [(Hall & calls & ->)|(Hnot & ->)]; simpl.
        * left. split; [constructor; [discriminate | assumption] | eauto].
        * right. split; [|reflexivity]. intros H. inversion H; subst. auto.
      + right. split; [|reflexivity]. intros H. inversion H; subst. simpl in *.
        congruence. }
  assert (Hdealloc : forall actions,
    (Forall (fun act => deallocate_flag act = true ->
                        action_node act <> None /\ action_state act <> None) actions
     /\ exists calls,
          deallocate_each actions = Ok calls)
    \/ (~ Forall (fun act => deallocate_flag act = true ->
                             action_node act <> None /\ action_state act <> None)
                 actions
        /\ deallocate_each actions
           = Raise AttributeError)).
  { induction actions
      as [|[[[[[tsdfg state] node] declare] allocate] deallocate] rest IH]; simpl.
    - left. split; [constructor | now exists []].
    - destruct deallocate; simpl.
      + destruct node as [n|], state as [st|];
          try (right; split; [|reflexivity]; intros H; inversion H as [|? ? Hh Ht];
               subst; simpl in Hh; destruct (Hh eq_refl); congruence).
        destruct IH as [(Hall & calls & ->)|(Hnot & ->)]; simpl.
        * left. split; [|eauto]. constructor; [|assumption].
          simpl. intros _. split; discriminate.
        * right. split; [|reflexivity]. intros H. inversion H; subst. auto.
      + destruct IH as [(Hall & calls & Hc)|(Hnot & Hc)].
        * left. split; [|eauto]. constructor; [|assumption]. simpl. discriminate.
        * right. split; [|assumption]. intros H. inversion H; subst. auto. }
  split; [|split; [|split]].
  - intros cfg actions. destruct (Halloc cfg actions) as [(Hall & Hok)|(Hnot & Hr)].
    + tauto.
    + split; [|tauto]. intros (calls & Hc). congruence.
  - intros actions. destruct (Hdealloc actions) as [(Hall & Hok)|(Hnot & Hr)].
    + tauto.
    + split; [|tauto]. intros (calls & Hc). congruence.
  - intros cfg actions. destruct (Halloc cfg actions) as [(_ & Hok)|(_ & Hr)]; auto.
  - intros actions. destruct (Hdealloc actions) as [(_ & Hok)|(_ & Hr)]; auto.
Qed.

End Dispatch.

Section PlannedDispatch.

Variable G : Program.
Variable X : Collaborators.
Variable top_sdfg : SDFG.

(** Every action on record can be dispatched. *)
Definition plan_dispatchable (self : Generator) : Prop :=
  forall scope act,
    In act (dict_get scope_eqb (to_allocate self) scope) -> dispatchable act.

Lemma plan_dispatchable_add_action (self : Generator) (k : option ScopeRef)
  (a : Action) :
  plan_dispatchable self -> dispatchable a -> plan_dispatchable (add_action self k a).
Proof.
  intros Hself Ha scope act. rewrite get_after_add_action.
  destruct (scope_eqb scope k); [|apply Hself].
  intros Hin. apply in_app_or in Hin as [Hin|[<-|[]]]; [now apply (Hself scope)|].
  assumption.
Qed.

Lemma plan_dispatchable_view (sdfg : SDFG) (instances : list (SDFGState * AccessNode)) :
  forall self, plan_dispatchable self ->
    plan_dispatchable (allocate_view_everywhere self sdfg instances).
Proof.
  unfold allocate_view_everywhere.
  induction instances as [|[st node] rest IH]; intros self Hself; simpl;
    [assumption|].
  apply IH. repeat apply plan_dispatchable_add_action; try assumption;
    simpl; split; congruence.
Qed.

Lemma last_instance_some (l : list (SDFGState * AccessNode)) :
  l <> [] -> exists st node, last_instance l = (Some st, Some node).
Proof.
  intros Hne. unfold last_instance. apply first_instance_some.
  intros Hrev. apply Hne. rewrite <- (rev_involutive l), Hrev. reflexivity.
Qed.

Lemma record_actions_dispatchable (fuel : nat) (self self' : Generator) (sdfg : SDFG)
  (name : string) (desc : Data) (instances : list (SDFGState * AccessNode))
  (cursdfg : option SDFG) (curscope : ScopeRef) :
  instances <> [] -> plan_dispatchable self ->
  record_actions X fuel self sdfg name desc instances cursdfg curscope = Ok self' ->
  plan_dispatchable self'.
Proof.
  intros Hne Hself. unfold record_actions.
  destruct (first_instance_some _ Hne) as (fs & fn & ->).
  destruct (last_instance_some _ Hne) as (ls & ln & ->).
  assert (Hadd : forall g k st n d a de,
            plan_dispatchable g ->
            plan_dispatchable (add_action g k (sdfg, Some st, Some n, d, a, de)))
    by (intros; apply plan_dispatchable_add_action;
        [assumption | simpl; split; congruence]).
  destruct (negb (is_entry_scope curscope) && _).
  - destruct (negb (state_eqb (Some fs) (Some ls))).
    + destruct (is_View desc).
      * intros H; inversion H; subst. intros scope act.
        change (to_allocate (set_where ?g _ _ _)) with (to_allocate g).
        now apply plan_dispatchable_view.
      * destruct (existsb _ instances).
        -- destruct (_get_dominator_and_postdominator fuel _ instances)
             as [[d pd]| |]; simpl; intros H; inversion H; subst.
           intros scope act.
           change (to_allocate (set_where ?g _ _ _)) with (to_allocate g).
           revert scope act. apply Hadd, Hadd.
           apply plan_dispatchable_add_action; [assumption|].
           simpl. split; congruence.
        -- simpl. intros H; inversion H; subst. intros scope act.
           change (to_allocate (set_where ?g _ _ _)) with (to_allocate g).
           revert scope act. now apply Hadd, Hadd, Hadd.
    + intros H; inversion H; subst. intros scope act.
      change (to_allocate (set_where ?g _ _ _)) with (to_allocate g).
      revert scope act. now apply Hadd.
  - intros H; inversion H; subst. intros scope act.
    change (to_allocate (set_where ?g _ _ _)) with (to_allocate g).
    revert scope act. now apply Hadd.
Qed.

(** A buffer that nothing refers to leaves the generator as it is. *)
Lemma plan_array_unreferenced (fuel : nat) (self self' : Generator) (sdfg : SDFG)
  (name : string) (desc : Data) :
  never_accessed G X sdfg name ->
  plan_array G X top_sdfg fuel self (sdfg, name, desc) = Ok self' ->
  self' = self.
Proof.
  intros (Hinst & Hdata & Hnodes & Hsym).
  unfold plan_array. simpl fst; simpl snd.
  destruct (lookup_array G sdfg (before_dot name)) as [top_desc|]; [|discriminate].
  destruct (negb (transient top_desc)); [intros H; now inversion H|].
  destruct (str_in name (constants_prop G sdfg)); [intros H; now inversion H|].
  rewrite Hinst. simpl.
  assert (Hnamed : named_in_control_flow G sdfg name = false).
  { destruct (named_in_control_flow G sdfg name) eqn:E; [|reflexivity].
    exfalso. apply Hsym. now apply named_in_control_flow_iff. }
  unfold candidate_scope.
  destruct (lifetime top_desc); simpl;
    try (intros H; inversion H; reflexivity);
    destruct (str_in name (shared_transients G sdfg)); simpl;
    try (intros H; inversion H; reflexivity).
  - rewrite Hnamed.
    rewrite (scope_states_loop_none G X name (states G sdfg) Hnodes).
    simpl. intros H; now inversion H.
  - rewrite (state_lifetime_loop_none G name (states G sdfg) Hdata).
    simpl. intros H; now inversion H.
Qed.

Lemma plan_array_dispatchable (fuel : nat) (self self' : Generator) (sdfg : SDFG)
  (name : string) (desc : Data) :
  access_instances G X sdfg name <> [] \/ never_accessed G X sdfg name ->
  plan_dispatchable self ->
  plan_array G X top_sdfg fuel self (sdfg, name, desc) = Ok self' ->
  plan_dispatchable self'.
Proof.
  intros [Hused|Hnever] Hself Hplan;
    [|now rewrite (plan_array_unreferenced fuel self self' sdfg name desc Hnever Hplan)].
  revert Hplan. unfold plan_array. simpl fst; simpl snd.
  destruct (lookup_array G sdfg (before_dot name)) as [top_desc|]; [|discriminate].
  destruct (negb (transient top_desc)); [intros H; now inversion H; subst|].
  destruct (str_in name (constants_prop G sdfg)); [intros H; now inversion H; subst|].
  destruct (first_instance_some _ Hused) as (fs & fn & ->).
  assert (Hrest : forall l,
    bind (candidate_scope G X sdfg name desc l (Some fs) (Some fn))
      (fun cand =>
         match cand with
         | (_, _, true) => Ok self
         | (None, _, false) => Ok self
         | (Some alloc_scope, alloc_state, false) =>
             bind (climb G X fuel desc (Some sdfg) alloc_state (Some alloc_scope))
               (fun reached =>
                  record_actions X fuel self sdfg name desc
                    (access_instances G X sdfg name) (fst (fst reached))
                    (match snd reached with
                     | None => OfSDFG top_sdfg
                     | Some sc => sc
                     end))
         end) = Ok self' ->
    plan_dispatchable self').
  { intros l. destruct (candidate_scope G X sdfg name desc l (Some fs) (Some fn))
      as [[[alloc_scope alloc_state] skip]| |]; simpl; try discriminate.
    destruct alloc_scope as [alloc_scope|], skip;
      try (intros H; now inversion H; subst).
    destruct (climb G X fuel desc (Some sdfg) alloc_state (Some alloc_scope))
      as [reached| |]; simpl; try discriminate.
    now apply record_actions_dispatchable. }
  assert (Hwide : forall g : Generator,
            plan_dispatchable g ->
            plan_dispatchable
              (set_where
                 (add_action g (Some (OfSDFG top_sdfg))
                    (sdfg, Some fs, Some fn, true, true, true))
                 sdfg name (Some top_sdfg))).
  { intros g Hg scope act.
    change (to_allocate (set_where ?g _ _ _)) with (to_allocate g).
    revert scope act. apply plan_dispatchable_add_action; [assumption|].
    simpl. split; congruence. }
  destruct (lifetime top_desc); try apply Hrest.
  all: cbv beta iota; intros H; injection H as <-; apply Hwide.
  all: try destruct (negb (StorageType.eqb (storage top_desc)
                             StorageType.CPU_ThreadLocal)).
  all: first [assumption | intros scope act; exact (Hself scope act)].
Qed.

(** X15. The plan the planner makes can be carried out.  On a program
    in which every listed buffer is either accessed under its own name
    or not referred to at all, [allocate_arrays_in_scope] and
    [deallocate_arrays_in_scope] return for every scope of the plan:
    the first dispatches one allocation call per action, in order,
    with the action's declare and allocate flags, the second one
    deallocation call per action with the deallocate flag. *)
Theorem planned_actions_can_be_dispatched (fuel : nat) (final : Generator) :
  (forall sdfg name desc,
      In (sdfg, name, desc) (arrays_recursive_nested G) ->
      access_instances G X sdfg name <> [] \/ never_accessed G X sdfg name) ->
  determine_allocation_lifetime G X top_sdfg fuel new_generator = Ok final ->
  forall block_id parent_graph desc_of cfg scope,
    let actions := dict_get scope_eqb (to_allocate final) (Some scope) in
    (exists calls,
        allocate_arrays_in_scope block_id parent_graph desc_of final cfg scope
        = Ok calls
        /\ map allocation_flags calls
           = map (fun act => Some (declare_flag act, allocate_flag act)) actions)
    /\ (exists calls,
          deallocate_arrays_in_scope block_id parent_graph desc_of final scope
          = Ok calls
          /\ List.length calls = List.length (filter deallocate_flag actions)).
Proof.
  unfold determine_allocation_lifetime. intros Hrefs Hrun.
  assert (Hall : forall entries self final',
    (forall entry, In entry entries -> In entry (arrays_recursive_nested G)) ->
    plan_dispatchable self ->
    plan_arrays G X top_sdfg fuel self entries = Ok final' ->
    plan_dispatchable final').
  { induction entries as [|[[sdfg name] desc] rest IH];
      intros self final' Hsub Hself Hplan; simpl in Hplan.
    - now inversion Hplan; subst.
    - destruct (plan_array G X top_sdfg fuel self (sdfg, name, desc))
        as [self1| |] eqn:E; simpl in Hplan; try discriminate.
      apply (IH self1 final'); [intros e He; apply Hsub; now right | | assumption].
      apply (plan_array_dispatchable fuel self self1 sdfg name desc);
        [apply (Hrefs sdfg name desc), Hsub; now left | assumption | assumption]. }
  assert (H0 : plan_dispatchable new_generator) by (intros scope act []).
  pose proof (Hall _ _ _ (fun entry H => H) H0 Hrun) as Hfinal.
  intros block_id parent_graph desc_of cfg scope.
  set (actions := dict_get scope_eqb (to_allocate final) (Some scope)).
  assert (Hforall : Forall dispatchable actions)
    by (apply Forall_forall; intros act Hin; apply (Hfinal (Some scope) act Hin)).
  split.
  - apply allocate_each_dispatchable; assumption.
  - apply deallocate_each_dispatchable; assumption.
Qed.

End PlannedDispatch.

(** **** Sample runs *)

(** Collaborators for which only the sequential schedule can hold a
    buffer. *)
Definition sequential_only : Collaborators :=
  {| can_allocate := fun _ sch => String.eqb (ScheduleType.name sch) "Sequential";
     FPGA_STORAGES := [];
     GPU_STORAGES := [];
     is_devicelevel_fpga := fun _ _ _ => false;
     is_devicelevel_gpu := fun _ _ _ => false;
     common_parent_scope := fun _ scope _ => Ok (Some scope);
     is_nonfree_sym_dependent := fun _ _ _ _ => false;
     get_control_flow_block_dominators := fun _ => stuck_dominators;
     reachability := fun _ _ => [];
     as_arg := fun desc name => ctype (info_of (dtype desc)) ++ " *" ++ name;
     symbols_and_constants := fun _ => [];
     blockorder_topological_sort := fun g => match g with 0 => [10] | _ => [20; 21] end |}.

(** A map in state 10 scheduled on a device. *)
Definition device_map : EntryNode :=
  {| entry_guid := 11; schedule := {| ScheduleType.name := "GPU_Device" |} |}.

Lemma climb_ends_where_the_buffer_can_be_allocated_witness :
  exists fuel',
    fuel' <= 5
    /\ _can_allocate sample_program sequential_only fuel' (Some 0) (Some 10)
         (buffer StorageType.CPU_Heap AllocationLifetime.Scope) (Some (OfState 10))
       = Ok true.
Proof.
  destruct (climb_ends_where_the_buffer_can_be_allocated
              sample_program sequential_only
              (buffer StorageType.CPU_Heap AllocationLifetime.Scope)
              5 (Some 0) (Some 10) (Some (OfEntry device_map))
              (Some 0) (Some 10) (Some (OfState 10)) eq_refl) as [H|H].
  - discriminate H.
  - exact H.
Defined.

Lemma state_lifetime_buffer_starts_at_its_only_state_witness :
  candidate_scope sample_program host_collaborators 1 "T"
    (buffer StorageType.CPU_ThreadLocal AllocationLifetime.State)
    AllocationLifetime.State (Some 20) (Some (access 3 "T"))
  = Ok (Some (OfState 20), Some 20, false).
Proof.
  apply (state_lifetime_buffer_starts_at_its_only_state
           sample_program host_collaborators 1 "T"
           (buffer StorageType.CPU_ThreadLocal AllocationLifetime.State)
           (Some 20) (Some (access 3 "T")) eq_refl).
Defined.

Lemma planner_records_only_planned_buffers_witness :
  (forall sdfg name w,
      dict_lookup buffer_eqb (where_allocated sample_plan) (sdfg, name) = Some w ->
      is_planned sample_program sdfg name)
  /\ (forall scope act,
        In act (dict_get scope_eqb (to_allocate sample_plan) scope) ->
        exists sdfg name,
          action_names act sdfg name /\ is_planned sample_program sdfg name)
  /\ (forall field,
        In field (statestruct sample_plan) ->
        exists sdfg name desc,
          field = field_definition host_collaborators sdfg name desc
          /\ is_planned sample_program sdfg name).
Proof.
  apply (planner_records_only_planned_buffers sample_program host_collaborators 0 5
           sample_plan sample_plan_returned).
Defined.

Lemma planned_actions_can_be_dispatched_witness :
  exists calls,
    deallocate_arrays_in_scope (fun st => Z.of_nat st) (fun _ => 0)
      (fun _ _ => buffer StorageType.CPU_Heap AllocationLifetime.Scope)
      sample_plan (OfSDFG 0)
    = Ok calls
    /\ List.length calls
       = List.length (filter deallocate_flag
                        (dict_get scope_eqb (to_allocate sample_plan) (Some (OfSDFG 0)))).
Proof.
  apply (planned_actions_can_be_dispatched sample_program host_collaborators 0 5
           sample_plan).
  - intros sdfg name desc Hin. left. simpl in Hin.
    destruct Hin as [H|[H|[H|[H|[H|[H|[]]]]]]]; inversion H; subst;
      intros E; vm_compute in E; discriminate E.
  - exact sample_plan_returned.
  - exact 0.
Defined.

(** **** Every used buffer is allocated once and deallocated once *)
















Section UsedBuffers.

Variable G : Program.
Variable X : Collaborators.
Variable top_sdfg : SDFG.

(** What holds of the SDFG objects, whose classes are declared outside
    these sources: the states that are sorted are states of the SDFG,
    the data nodes of a state are among its nodes, a transient named on
    an edge around a state is a shared transient, and
    [common_parent_scope] hands back a scope when it returns. *)
Hypothesis sorted_states :
  forall sdfg state,
    In state (blockorder_topological_sort X sdfg) -> In state (states G sdfg).

Hypothesis data_nodes_are_nodes :
  forall state node,
    In node (data_nodes G state) -> In (N_AccessNode node) (nodes G state).

Hypothesis edge_symbols_are_shared :
  forall sdfg state name top_desc,
    In state (blockorder_topological_sort X sdfg) ->
    In name (flat_map edge_free_symbols (all_edges G state)) ->
    lookup_array G sdfg name = Some top_desc -> transient top_desc = true ->
    In name (shared_transients G sdfg).

Hypothesis common_scope_found :
  forall state a b, common_parent_scope X state a b <> Ok None.
























End UsedBuffers.




(** **** A stuck dominator search stops the planner *)

(** The search, started at [candidate], moves [steps] times to the
    immediate (post-)dominator and then stands at a block that some
    occurrence still lacks in its set and whose immediate
    (post-)dominator is the block itself. *)
Fixpoint gets_stuck (steps : nat)
  (imm : ControlFlowBlock -> option ControlFlowBlock)
  (sets : ControlFlowBlock -> list ControlFlowBlock)
  (occurrences : list ControlFlowBlock) (candidate : ControlFlowBlock) : Prop :=
  existsb (fun n => negb (block_in candidate (sets n))) occurrences = true
  /\ match steps with
     | O => imm candidate = Some candidate
     | S k =>
         exists next,
           imm candidate = Some next /\ next <> candidate
           /\ gets_stuck k imm sets occurrences next
     end.

Lemma common_ancestor_loop_stuck
  (imm : ControlFlowBlock -> option ControlFlowBlock)
  (sets : ControlFlowBlock -> list ControlFlowBlock)
  (occurrences : list ControlFlowBlock) (msg : string) :
  forall steps fuel candidate,
    gets_stuck steps imm sets occurrences candidate -> steps <= fuel ->
    common_ancestor_loop fuel imm sets occurrences msg candidate
    = Raise (NotImplementedError msg).
Proof.
  induction steps as [|k IH]; intros fuel candidate [Hlack Hstep] Hfuel.
  - destruct fuel; simpl; rewrite Hlack, Hstep, Nat.eqb_refl; reflexivity.
  - destruct Hstep as (next & Himm & Hne & Hrest).
    destruct fuel as [|fuel]; [lia|]. simpl. rewrite Hlack, Himm.
    destruct (Nat.eqb next candidate) eqn:E;
      [apply Nat.eqb_eq in E; contradiction|].
    apply IH; [assumption | lia].
Qed.

Section StuckSearch.

Variable G : Program.
Variable X : Collaborators.
Variable top_sdfg : SDFG.

(** The loop body gets to the dominator search for the buffer (line
    771): the buffer is transient, not a constant and not program-wide,
    the case analysis finds a scope, the climb ends at a scope that is
    no entry node, the descriptor depends on a non-free symbol, its
    first and last occurrence lie in different states, and it is no
    view. *)
Definition reaches_dominator_search (fuel : nat) (sdfg : SDFG) (name : string)
  (desc : Data) : Prop :=
  let instances := access_instances G X sdfg name in
  let first_state_instance := fst (first_instance instances) in
  let first_node_instance := snd (first_instance instances) in
  exists top_desc alloc_scope alloc_state reached,
    lookup_array G sdfg (before_dot name) = Some top_desc
    /\ transient top_desc = true
    /\ str_in name (constants_prop G sdfg) = false
    /\ ~ program_wide (lifetime top_desc)
    /\ candidate_scope G X sdfg name desc (lifetime top_desc)
         first_state_instance first_node_instance
       = Ok (Some alloc_scope, alloc_state, false)
    /\ climb G X fuel desc (Some sdfg) alloc_state (Some alloc_scope) = Ok reached
    /\ match snd reached with
       | Some (OfEntry _) => False
       | _ => True
       end
    /\ is_nonfree_sym_dependent X first_node_instance desc first_state_instance
         (symbols_and_constants X sdfg) = true
    /\ state_eqb first_state_instance (fst (last_instance instances)) = false
    /\ is_View desc = false.

Lemma plan_array_stuck (fuel : nat) (self : Generator) (sdfg : SDFG)
  (name : string) (desc : Data) (e : Exception) :
  reaches_dominator_search fuel sdfg name desc ->
  _get_dominator_and_postdominator fuel (get_control_flow_block_dominators X sdfg)
    (access_instances G X sdfg name) = Raise e ->
  plan_array G X top_sdfg fuel self (sdfg, name, desc) = Raise e.
Proof.
  unfold reaches_dominator_search.
  intros (top_desc & alloc_scope & alloc_state & reached & Hlook & Htr & Hconst
          & Hwide & Hcand & Hclimb & Hscope & Hnonfree & Hdiff & Hview) Hdoms.
  unfold plan_array. simpl fst; simpl snd.
  rewrite Hlook, Htr, Hconst. simpl negb. cbv iota.
  destruct (access_instances G X sdfg name) as [|[first_state first_node] rest]
    eqn:Hinst; [discriminate Hdiff|].
  change (first_instance ((first_state, first_node) :: rest))
    with (Some first_state, Some first_node) in *.
  simpl fst in *; simpl snd in *.
  assert (Hrun :
    bind (candidate_scope G X sdfg name desc (lifetime top_desc)
            (Some first_state) (Some first_node))
      (fun cand =>
         match cand with
         | (_, _, true) => Ok self
         | (None, _, false) => Ok self
         | (Some alloc_scope, alloc_state, false) =>
             bind (climb G X fuel desc (Some sdfg) alloc_state (Some alloc_scope))
               (fun reached =>
                  record_actions X fuel self sdfg name desc
                    ((first_state, first_node) :: rest) (fst (fst reached))
                    (match snd reached with
                     | None => OfSDFG top_sdfg
                     | Some sc => sc
                     end))
         end) = Raise e).
  { rewrite Hcand. simpl. rewrite Hclimb. simpl.
    apply record_actions_raise; try assumption.
    destruct (snd reached) as [[g|st|en]|]; simpl; auto; contradiction. }
  destruct (lifetime top_desc); try exact Hrun;
    exfalso; apply Hwide; unfold program_wide; auto.
Qed.

(** C3. When the loop body gets to the dominator search for a buffer
    and the search cannot converge (after some moves it stands at a
    candidate that an occurrence still lacks among its dominators and
    whose immediate dominator is the candidate itself; or, the common
    dominator found, the search for the post-dominator stands at such a
    candidate), the loop body raises the [NotImplementedError] whose
    message names the buffer, and so does
    [determine_allocation_lifetime] once the buffers listed before it
    are planned: it returns no plan, for every bound on the iterations
    that covers the moves made. *)
Theorem planner_fails_when_the_dominator_search_is_stuck
  (fuel steps : nat) (self self1 : Generator)
  (before after : list (SDFG * string * Data))
  (sdfg : SDFG) (name : string) (desc : Data) :
  arrays_recursive_nested G = (before ++ (sdfg, name, desc) :: after)%list ->
  plan_arrays G X top_sdfg fuel self before = Ok self1 ->
  reaches_dominator_search fuel sdfg name desc ->
  steps <= fuel ->
  let D := get_control_flow_block_dominators X sdfg in
  let occurrences := map fst (access_instances G X sdfg name) in
  let doms := with_self occurrences (alldoms D) in
  let postdoms := with_self occurrences (allpostdoms D) in
  (forall first_state,
      hd_error occurrences = Some first_state ->
      gets_stuck steps (idom D) doms occurrences first_state ->
      plan_array G X top_sdfg fuel self1 (sdfg, name, desc)
      = Raise (NotImplementedError
                 ("Could not find an appropriate dominator for allocation of "
                    ++ quote ++ name ++ quote))
      /\ determine_allocation_lifetime G X top_sdfg fuel self
         = Raise (NotImplementedError
                    ("Could not find an appropriate dominator for allocation of "
                       ++ quote ++ name ++ quote)))
  /\ (forall first_state start_state,
        hd_error occurrences = Some first_state ->
        common_ancestor_loop fuel (idom D) doms occurrences
          (dominator_message name) first_state = Ok start_state ->
        gets_stuck steps (ipostdom D) postdoms occurrences
          (last occurrences first_state) ->
        plan_array G X top_sdfg fuel self1 (sdfg, name, desc)
        = Raise (NotImplementedError
                   ("Could not find an appropriate post-dominator for deallocation of "
                      ++ quote ++ name ++ quote))
        /\ determine_allocation_lifetime G X top_sdfg fuel self
           = Raise (NotImplementedError
                      ("Could not find an appropriate post-dominator for deallocation of "
                         ++ quote ++ name ++ quote))).
Proof.
  intros Hlist Hbefore Hreach Hfuel D occurrences doms postdoms.
  assert (Hwhole : forall e,
    plan_array G X top_sdfg fuel self1 (sdfg, name, desc) = Raise e ->
    plan_array G X top_sdfg fuel self1 (sdfg, name, desc) = Raise e
    /\ determine_allocation_lifetime G X top_sdfg fuel self = Raise e).
  { intros e He. split; [exact He|].
    unfold determine_allocation_lifetime. rewrite Hlist.
    now apply plan_arrays_raise with self1. }
  assert (Hname : forall first_state first_node rest,
    access_instances G X sdfg name = (first_state, first_node) :: rest ->
    data first_node = name).
  { intros first_state first_node rest Hinst.
    apply (access_instances_data G X sdfg name first_state). rewrite Hinst. now left. }
  split.
  - intros first_state Hfirst Hstuck. apply Hwhole.
    apply plan_array_stuck; [assumption|].
    subst doms postdoms occurrences D. clear Hwhole.
    destruct (access_instances G X sdfg name) as [|[fs fn] rest] eqn:Hinst;
      [discriminate|].
    simpl in Hfirst. inversion Hfirst; subst fs.
    unfold _get_dominator_and_postdominator.
    rewrite (Hname _ _ _ eq_refl).
    rewrite (common_ancestor_loop_stuck _ _ _ _ steps fuel first_state Hstuck Hfuel).
    reflexivity.
  - intros first_state start_state Hfirst Hdom Hstuck. apply Hwhole.
    apply plan_array_stuck; [assumption|].
    subst doms postdoms occurrences D. clear Hwhole.
    destruct (access_instances G X sdfg name) as [|[fs fn] rest] eqn:Hinst;
      [discriminate|].
    simpl in Hfirst. inversion Hfirst; subst fs.
    unfold _get_dominator_and_postdominator.
    rewrite (Hname _ _ _ eq_refl). rewrite Hdom. cbv beta iota delta [bind].
    rewrite (common_ancestor_loop_stuck _ _ _ _ steps fuel _ Hstuck Hfuel).
    reflexivity.
Qed.

End StuckSearch.

(** A program with the two branch states 1 and 2, each reading the
    shared transient [y], whose size depends on a symbol that is not
    free; the graph analysis gives every state itself as its immediate
    dominator. *)
Definition branch_program : Program :=
  {| arrays := fun _ => [("y", buffer StorageType.CPU_Heap AllocationLifetime.Scope)];
     constants_prop := fun _ => [];
     states := fun _ => [1; 2];
     all_interstate_edges := fun _ => [];
     region_used_symbols := fun _ => [];
     shared_transients := fun _ => ["y"];
     parent_nsdfg_node := fun _ => None;
     parent := fun _ => None;
     parent_sdfg := fun _ => None;
     state_parent := fun _ => 0;
     data_nodes := fun st =>
       match st with
       | 1 => [{| guid := Some 7; data := "y" |}]
       | 2 => [{| guid := Some 8; data := "y" |}]
       | _ => []
       end;
     nodes := fun st =>
       match st with
       | 1 => [N_AccessNode {| guid := Some 7; data := "y" |}]
       | 2 => [N_AccessNode {| guid := Some 8; data := "y" |}]
       | _ => []
       end;
     all_edges := fun _ => [];
     scope_dict := fun _ _ => None;
     entry_node := fun _ _ => None;
     arrays_recursive_nested :=
       [(0, "y", buffer StorageType.CPU_Heap AllocationLifetime.Scope)] |}.

Definition branch_collaborators : Collaborators :=
  {| can_allocate := fun _ _ => true;
     FPGA_STORAGES := [];
     GPU_STORAGES := [];
     is_devicelevel_fpga := fun _ _ _ => false;
     is_devicelevel_gpu := fun _ _ _ => false;
     common_parent_scope := fun _ scope _ => Ok (Some scope);
     is_nonfree_sym_dependent := fun _ _ _ _ => true;
     get_control_flow_block_dominators := fun _ => stuck_dominators;
     reachability := fun _ _ => [];
     as_arg := fun desc name => ctype (info_of (dtype desc)) ++ " *" ++ name;
     symbols_and_constants := fun _ => [];
     blockorder_topological_sort := fun _ => [1; 2] |}.

Lemma planner_fails_when_the_dominator_search_is_stuck_witness :
  access_instances branch_program branch_collaborators 0 "y" = branch_accesses
  /\ determine_allocation_lifetime branch_program branch_collaborators 0 5 new_generator
     = Raise (NotImplementedError
                ("Could not find an appropriate dominator for allocation of "
                   ++ quote ++ "y" ++ quote)).
Proof.
  split; [reflexivity|].
  assert (Hreach : reaches_dominator_search branch_program branch_collaborators
                     5 0 "y" (buffer StorageType.CPU_Heap AllocationLifetime.Scope)).
  { exists (buffer StorageType.CPU_Heap AllocationLifetime.Scope), (OfSDFG 0), (Some 1),
           (Some 0, Some 1, Some (OfSDFG 0)).
    repeat split; try reflexivity. intros [H|[H|H]]; discriminate. }
  destruct (planner_fails_when_the_dominator_search_is_stuck
              branch_program branch_collaborators 0 5 0 new_generator new_generator
              [] [] 0 "y" (buffer StorageType.CPU_Heap AllocationLifetime.Scope)
              eq_refl eq_refl Hreach (Nat.le_0_l 5)) as (Hdom & _).
  apply (Hdom 1 eq_refl). split; reflexivity.
Defined.

(** **** The planner ends *)

Section PlannerEnds.

Variable G : Program.
Variable X : Collaborators.
Variable top_sdfg : SDFG.

(** How deep an SDFG is nested, and a rank of the scopes that every
    step of the climb lowers. *)
Variable depth : SDFG -> nat.
Variable rank : option SDFGState -> ScopeRef -> nat.

Definition scope_depth (scope : option ScopeRef) : nat :=
  match scope with
  | Some (OfSDFG g) => depth g
  | Some (OfState st) => depth (state_parent G st)
  | _ => 0
  end.

Hypothesis nested_deeper :
  forall g node pstate,
    parent_nsdfg_node G g = Some node -> parent G g = Some pstate ->
    depth (state_parent G pstate) < depth g.

Hypothesis climb_lowers_rank :
  forall cursdfg curstate sc sdfg' state' sc',
    climb_once G cursdfg curstate sc = Ok (sdfg', state', Some sc') ->
    rank state' sc' < rank curstate sc.

Hypothesis rank_bounds_depth :
  forall curstate sc, scope_depth (Some sc) <= rank curstate sc.

Lemma get_schedule_ends :
  forall fuel scope, scope_depth scope <= fuel -> _get_schedule G fuel scope <> Diverge.
Proof.
  assert (Hup : forall fuel,
    (forall scope, scope_depth scope <= fuel -> _get_schedule G fuel scope <> Diverge) ->
    forall g, depth g <= S fuel ->
      match parent_nsdfg_node G g with
      | None => Ok TOP_SCHEDULE
      | Some nsdfg_node =>
          match parent G g with
          | None => Raise AttributeError
          | Some pstate =>
              match entry_node G pstate nsdfg_node with
              | Some pscope => _get_schedule G fuel (Some (OfEntry pscope))
              | None => _get_schedule G fuel (Some (OfState pstate))
              end
          end
      end <> Diverge).
  { intros fuel IH g Hg.
    destruct (parent_nsdfg_node G g) as [node|] eqn:Hnode; [|discriminate].
    destruct (parent G g) as [pstate|] eqn:Hparent; [|discriminate].
    pose proof (nested_deeper g node pstate Hnode Hparent).
    destruct (entry_node G pstate node); apply IH; simpl; lia. }
  induction fuel as [|fuel IH]; intros [[g|st|e]|] Hle; simpl in *; try discriminate.
  - destruct (parent_nsdfg_node G g) as [node|] eqn:Hnode; [|discriminate].
    destruct (parent G g) as [pstate|] eqn:Hparent; [|discriminate].
    pose proof (nested_deeper g node pstate Hnode Hparent). lia.
  - destruct (parent_nsdfg_node G (state_parent G st)) as [node|] eqn:Hnode;
      [|discriminate].
    destruct (parent G (state_parent G st)) as [pstate|] eqn:Hparent; [|discriminate].
    pose proof (nested_deeper _ node pstate Hnode Hparent). lia.
  - now apply Hup.
  - now apply Hup.
Qed.

Lemma can_allocate_ends (fuel : nat) sdfg state desc scope :
  scope_depth scope <= fuel -> _can_allocate G X fuel sdfg state desc scope <> Diverge.
Proof.
  intros Hle. unfold _can_allocate.
  pose proof (get_schedule_ends fuel scope Hle) as Hs.
  destruct (_get_schedule G fuel scope) as [sch| |]; simpl; try discriminate;
    [|congruence].
  destruct (can_allocate X (storage desc) sch); [discriminate|].
  destruct (storage_in _ _); [discriminate|].
  destruct (storage_in _ _); discriminate.
Qed.

Lemma climb_once_ends cursdfg curstate sc :
  climb_once G cursdfg curstate sc <> Diverge.
Proof.
  unfold climb_once. destruct sc as [g|st|e].
  - destruct (parent_nsdfg_node G g); [|discriminate].
    destruct (parent G g); discriminate.
  - destruct (parent_nsdfg_node G _); [|discriminate].
    destruct (parent G _); discriminate.
  - destruct curstate as [cs|]; [|discriminate].
    destruct (entry_node G cs _); discriminate.
Qed.

Lemma climb_ends (desc : Data) :
  forall fuel cursdfg curstate curscope,
    match curscope with Some sc => rank curstate sc < fuel | None => True end ->
    climb G X fuel desc cursdfg curstate curscope <> Diverge.
Proof.
  induction fuel as [|fuel IH]; intros cursdfg curstate curscope Hle.
  - destruct curscope as [sc|]; [lia|].
    pose proof (can_allocate_ends 0 cursdfg curstate desc None (Nat.le_refl 0)) as Hc.
    simpl. destruct (_can_allocate G X 0 cursdfg curstate desc None) as [[|]| |];
      simpl; try discriminate. congruence.
  - assert (Hd : scope_depth curscope <= S fuel).
    { destruct curscope as [sc|]; [|simpl; lia].
      pose proof (rank_bounds_depth curstate sc). lia. }
    pose proof (can_allocate_ends (S fuel) cursdfg curstate desc curscope Hd) as Hc.
    change (climb G X (S fuel) desc cursdfg curstate curscope)
      with (bind (_can_allocate G X (S fuel) cursdfg curstate desc curscope)
              (fun allocatable =>
                 if allocatable then Ok (cursdfg, curstate, curscope)
                 else
                   match curscope with
                   | None => Ok (cursdfg, curstate, curscope)
                   | Some sc =>
                       bind (climb_once G cursdfg curstate sc)
                         (fun next =>
                            climb G X fuel desc (fst (fst next)) (snd (fst next))
                              (snd next))
                   end)).
    destruct (_can_allocate G X (S fuel) cursdfg curstate desc curscope) as [[|]| |];
      simpl; try discriminate; [|congruence].
    destruct curscope as [sc|]; [|discriminate].
    pose proof (climb_once_ends cursdfg curstate sc) as Hstep.
    destruct (climb_once G cursdfg curstate sc) as [[[g s] c]| |] eqn:Honce;
      simpl; try discriminate; [|congruence].
    apply IH. destruct c as [sc'|]; [|exact I].
    pose proof (climb_lowers_rank _ _ _ _ _ _ Honce). lia.
Qed.

(** The dominator information of every SDFG is a tree. *)
Variable domdepth postdepth : SDFG -> ControlFlowBlock -> nat.

Hypothesis dominators_rise :
  forall sdfg b next,
    idom (get_control_flow_block_dominators X sdfg) b = Some next -> next <> b ->
    domdepth sdfg next < domdepth sdfg b.

Hypothesis postdominators_rise :
  forall sdfg b next,
    ipostdom (get_control_flow_block_dominators X sdfg) b = Some next -> next <> b ->
    postdepth sdfg next < postdepth sdfg b.

Lemma record_actions_ends (fuel : nat) (self : Generator) (sdfg : SDFG)
  (name : string) (desc : Data) (instances : list (SDFGState * AccessNode))
  (cursdfg : option SDFG) (curscope : ScopeRef) :
  (forall b, domdepth sdfg b <= fuel /\ postdepth sdfg b <= fuel) ->
  record_actions X fuel self sdfg name desc instances cursdfg curscope <> Diverge.
Proof.
  intros Hfuel. unfold record_actions.
  destruct (first_instance instances) as [fs fn].
  destruct (last_instance instances) as [ls ln].
  destruct (negb (is_entry_scope curscope) && _); [|discriminate].
  destruct (negb (state_eqb fs ls)); [|discriminate].
  destruct (is_View desc); [discriminate|].
  destruct (existsb _ instances); [|discriminate].
  pose proof (dominator_search_ends fuel
                (get_control_flow_block_dominators X sdfg) instances
                (domdepth sdfg) (postdepth sdfg)
                (dominators_rise sdfg) (postdominators_rise sdfg)
                (fun access _ => Hfuel (fst access))) as Hd.
  destruct (_get_dominator_and_postdominator fuel _ instances) as [[d pd]| |];
    simpl; try discriminate. congruence.
Qed.

(** [sdscope.common_parent_scope] comes back, with a scope or with an
    exception. *)
Hypothesis common_parent_scope_ends :
  forall state a b, common_parent_scope X state a b <> Diverge.

Lemma scope_nodes_loop_ends (name : string) (state : SDFGState) (ns : list Node) :
  forall sc cs, scope_nodes_loop G X name state ns sc cs <> Diverge.
Proof.
  induction ns as [|n rest IH]; intros sc cs; simpl; [discriminate|].
  destruct n as [node|en|g]; try apply IH.
  destruct (negb (String.eqb (root_data node) name)); [apply IH|].
  destruct (match cs with Some c => negb (Nat.eqb c state) | None => false end);
    [discriminate|].
  assert (Hcall : forall a b,
    bind (common_parent_scope X state a b)
      (fun common => scope_nodes_loop G X name state rest common (Some state))
    <> Diverge).
  { intros a b. pose proof (common_parent_scope_ends state a b) as Hc.
    destruct (common_parent_scope X state a b) as [common| |]; simpl;
      [apply IH | discriminate | congruence]. }
  destruct sc as [[g|cur|cur]|];
    destruct (scope_dict G state (N_AccessNode node)) as [en|];
    try apply IH; try apply Hcall.
  destruct (existsb (node_is_entry en) (nodes G cur)); [apply IH | apply Hcall].
Qed.

Lemma scope_states_loop_ends (name : string) (sts : list SDFGState) :
  forall sc cs, scope_states_loop G X name sts sc cs <> Diverge.
Proof.
  induction sts as [|state rest IH]; intros sc cs; simpl; [discriminate|].
  pose proof (scope_nodes_loop_ends name state (nodes G state) sc cs) as Hnodes.
  destruct (scope_nodes_loop G X name state (nodes G state) sc cs)
    as [[[sc' cs'] m]| |]; simpl; [|discriminate|congruence].
  destruct m; [discriminate | apply IH].
Qed.

Lemma plan_array_ends (fuel : nat) (self : Generator) (entry : SDFG * string * Data) :
  (forall curstate sc, rank curstate sc < fuel) ->
  (forall sdfg b, domdepth sdfg b <= fuel /\ postdepth sdfg b <= fuel) ->
  plan_array G X top_sdfg fuel self entry <> Diverge.
Proof.
  intros Hrank Hdoms. destruct entry as [[sdfg name] desc].
  unfold plan_array. simpl fst; simpl snd.
  destruct (lookup_array G sdfg (before_dot name)) as [top_desc|]; [|discriminate].
  destruct (negb (transient top_desc)); [discriminate|].
  destruct (str_in name (constants_prop G sdfg)); [discriminate|].
  destruct (first_instance (access_instances G X sdfg name)) as [fs fn].
  assert (Hrest : forall l,
    bind (candidate_scope G X sdfg name desc l fs fn)
      (fun cand =>
         match cand with
         | (_, _, true) => Ok self
         | (None, _, false) => Ok self
         | (Some alloc_scope, alloc_state, false) =>
             bind (climb G X fuel desc (Some sdfg) alloc_state (Some alloc_scope))
               (fun reached =>
                  record_actions X fuel self sdfg name desc
                    (access_instances G X sdfg name) (fst (fst reached))
                    (match snd reached with
                     | None => OfSDFG top_sdfg
                     | Some sc => sc
                     end))
         end) <> Diverge).
  { intros l.
    assert (Hcand : candidate_scope G X sdfg name desc l fs fn <> Diverge).
    { unfold candidate_scope.
      destruct (str_in name (shared_transients G sdfg) || _); [discriminate|].
      destruct l; try discriminate.
      - destruct (named_in_control_flow G sdfg name); [discriminate|].
        pose proof (scope_states_loop_ends name (states G sdfg) None None) as Hloop.
        destruct (scope_states_loop G X name (states G sdfg) None None)
          as [[[c s] m]| |]; simpl; [|discriminate|congruence].
        destruct m; discriminate.
      - destruct (state_lifetime_loop G name (states G sdfg) None) as [c []];
          discriminate. }
    destruct (candidate_scope G X sdfg name desc l fs fn)
      as [[[alloc_scope alloc_state] skip]| |]; simpl; try discriminate;
      [|congruence].
    destruct alloc_scope as [alloc_scope|], skip; try discriminate.
    pose proof (climb_ends desc fuel (Some sdfg) alloc_state (Some alloc_scope)
                  (Hrank alloc_state alloc_scope)) as Hclimb.
    destruct (climb G X fuel desc (Some sdfg) alloc_state (Some alloc_scope))
      as [reached| |]; simpl; try discriminate; [|congruence].
    apply record_actions_ends. apply Hdoms. }
  destruct (lifetime top_desc); try apply Hrest; destruct fn; discriminate.
Qed.

(** X19. The planner's own loops end.  In a program whose nested SDFGs
    sit strictly deeper than the SDFG that holds them, whose scopes
    have a rank that every step of the climb lowers, and whose
    dominator and post-dominator information forms trees, and as long
    as every call of [sdscope.common_parent_scope] comes back (the
    other functions of other modules are taken to return),
    [determine_allocation_lifetime] run with a bound above every rank
    and depth returns or raises: no loop of its own (the schedule
    look-up, the climb to an allocatable scope, the search for a common
    dominator) goes on for ever. *)
Theorem planner_ends_on_a_well_nested_program (fuel : nat) (self : Generator) :
  (forall curstate sc, rank curstate sc < fuel) ->
  (forall sdfg b, domdepth sdfg b <= fuel /\ postdepth sdfg b <= fuel) ->
  determine_allocation_lifetime G X top_sdfg fuel self <> Diverge.
Proof.
  intros Hrank Hdoms. unfold determine_allocation_lifetime.
  generalize self. induction (arrays_recursive_nested G) as [|entry rest IH];
    intros g; simpl; [discriminate|].
  pose proof (plan_array_ends fuel g entry Hrank Hdoms) as Hentry.
  destruct (plan_array G X top_sdfg fuel g entry) as [g'| |]; simpl;
    try discriminate; [apply IH | congruence].
Qed.

End PlannerEnds.

(** The nesting depth and the scope rank of the sample program. *)
Definition sample_depth (g : SDFG) : nat := match g with 0 => 0 | _ => 1 end.

Definition sample_rank (curstate : option SDFGState) (sc : ScopeRef) : nat :=
  match sc with
  | OfEntry _ => 2
  | OfState st => sample_depth (state_parent sample_program st)
  | OfSDFG g => sample_depth g
  end.

Lemma planner_ends_on_a_well_nested_program_witness :
  determine_allocation_lifetime sample_program host_collaborators 0 5 new_generator
  <> Diverge.
Proof.
  apply (planner_ends_on_a_well_nested_program sample_program host_collaborators 0
           sample_depth sample_rank) with (domdepth := fun _ _ => 0)
                                          (postdepth := fun _ _ => 0).
  - intros [|g] node pstate Hn Hp; simpl in *; [discriminate|].
    inversion Hp; subst. simpl. lia.
  - intros cursdfg curstate [g|st|e] sdfg' state' sc'; unfold climb_once.
    + destruct g; simpl; discriminate.
    + generalize (state_parent sample_program st). intros [|g]; simpl; discriminate.
    + destruct curstate as [cs|]; [|discriminate].
      simpl. intros H; inversion H; subst. unfold sample_rank.
      generalize (state_parent sample_program cs). intros [|g]; simpl; lia.
  - intros curstate [g|st|e]; simpl; lia.
  - intros sdfg b next H Hne. simpl in H. inversion H; subst. congruence.
  - intros sdfg b next H Hne. simpl in H. inversion H; subst. congruence.
  - intros state a b. discriminate.
  - intros curstate [g|st|e]; unfold sample_rank.
    + destruct g; simpl; lia.
    + generalize (state_parent sample_program st). intros [|g]; simpl; lia.
    + lia.
  - intros sdfg b. simpl. lia.
Defined.

(** *** Properties of the text clean-up *)

(** C8 (the code departs from it).  The clean-up is meant to drop
    blank lines and lines holding a lone semicolon, and nothing else of
    the statements.  The test for the semicolon line only looks at the
    start of the line: every line that begins with a semicolon is
    dropped whatever follows on it, and so is any such line after
    leading white space.  On the two lines [int a = 0] and
    [; a = a + 1;] the second line disappears with its assignment. *)
Theorem clean_up_drops_any_line_starting_with_semicolon :
  (forall gotos st rest, clean_line gotos st (String ";" rest) = st)
  /\ (forall gotos st rest, clean_line gotos st (String " " (String ";" rest)) = st)
  /\ clean_up ("int a = 0" ++ newline ++ "; a = a + 1;" ++ newline)
     = "int a = 0" ++ newline.
Proof.
  split; [|split].
  - intros gotos [clean_code last_line] rest. reflexivity.
  - intros gotos [clean_code last_line] rest. reflexivity.
  - reflexivity.
Qed.

(** **** The clean-up loop as a filter of lines *)

(** The text made of the given lines, each followed by a line break. *)
Definition lines_text (lines : list string) : string :=
  fold_right (fun line text => line ++ newline ++ text) "" lines.

(** [kept] is [lines] with some of its members left out. *)
Inductive Subsequence {A : Type} : list A -> list A -> Prop :=
| Subsequence_nil : Subsequence [] []
| Subsequence_skip : forall x kept lines,
    Subsequence kept lines -> Subsequence kept (x :: lines)
| Subsequence_keep : forall x kept lines,
    Subsequence kept lines -> Subsequence (x :: kept) (x :: lines).

Lemma Subsequence_refl {A : Type} (l : list A) : Subsequence l l.
Proof. induction l; constructor; assumption. Qed.

Lemma Subsequence_nil_l {A : Type} (l : list A) : Subsequence [] l.
Proof. induction l; constructor; assumption. Qed.

Lemma Subsequence_app {A : Type} (k1 l1 k2 l2 : list A) :
  Subsequence k1 l1 -> Subsequence k2 l2 -> Subsequence (k1 ++ k2) (l1 ++ l2).
Proof.
  induction 1; intros H2; simpl;
    [assumption | apply Subsequence_skip; auto | apply Subsequence_keep; auto].
Qed.

Lemma Subsequence_trans {A : Type} (a b c : list A) :
  Subsequence a b -> Subsequence b c -> Subsequence a c.
Proof.
  intros Hab Hbc. revert a Hab.
  induction Hbc as [|x b c Hbc IH|x b c Hbc IH]; intros a Hab.
  - assumption.
  - constructor. now apply IH.
  - inversion Hab; subst.
    + apply Subsequence_skip. now apply IH.
    + apply Subsequence_keep. now apply IH.
Qed.

Lemma Subsequence_drop_last {A : Type} (k l : list A) (x : A) :
  Subsequence (k ++ [x]) l -> Subsequence k l.
Proof.
  intros H. apply Subsequence_trans with (k ++ [x])%list; [|assumption].
  rewrite <- (app_nil_r k) at 1.
  apply Subsequence_app; [apply Subsequence_refl | apply Subsequence_nil_l].
Qed.

(** Leaving out the last member of the longer list, when the shorter
    one does not hold it. *)
Lemma Subsequence_without_last {A : Type} (k l : list A) (x : A) :
  ~ In x k -> Subsequence k (l ++ [x]) -> Subsequence k l.
Proof.
  revert k. induction l as [|y l IH]; intros k Hnot H; simpl in H.
  - inversion H as [| ? ? ? H' | ? ? ? H']; subst.
    + inversion H'; subst. constructor.
    + exfalso. apply Hnot. now left.
  - inversion H as [| ? ? ? H' | ? k' ? H']; subst.
    + apply Subsequence_skip. now apply IH.
    + apply Subsequence_keep. apply IH; [|assumption].
      intros Hin. apply Hnot. now right.
Qed.

Lemma lines_text_app (a b : list string) :
  lines_text (a ++ b) = lines_text a ++ lines_text b.
Proof.
  induction a as [|x a IH]; simpl; [reflexivity|].
  rewrite IH. now rewrite !Treenodes.string_app_assoc.
Qed.

Lemma string_length_app (a b : string) :
  String.length (a ++ b) = String.length a + String.length b.
Proof. induction a as [|c a IH]; simpl; [reflexivity | now rewrite IH]. Qed.

Lemma substring_prefix (a b : string) :
  substring 0 (String.length a) (a ++ b) = a.
Proof.
  induction a as [|c a IH]; simpl.
  - destruct b; reflexivity.
  - now rewrite IH.
Qed.

(** [clean_code[:-len(last_line) - 1]] takes the last line off again. *)
Lemma drop_last_line (text line : string) :
  drop_last (String.length line + 1) (text ++ line ++ newline) = text.
Proof.
  unfold drop_last.
  rewrite !string_length_app. simpl String.length.
  replace (String.length text + (String.length line + 1) - (String.length line + 1))
    with (String.length text) by lia.
  apply substring_prefix.
Qed.

Lemma str_contains_nonempty (needle hay : string) :
  needle <> "" -> str_contains needle hay = true -> hay <> "".
Proof.
  intros Hn H ->. destruct needle; [congruence|]. discriminate.
Qed.

(** A line the loop neither skips as blank nor as a semicolon line. *)
Definition is_statement (line : string) : bool :=
  negb (strip_is_empty line) && negb (matches_semicolon line).

(** The loop state, read as a stack of kept lines (last one first). *)
Definition holds (stack : list string) (st : string * string) : Prop :=
  fst st = lines_text (rev stack)
  /\ (snd st = "" \/ exists below, stack = snd st :: below).

Lemma clean_line_stack (gotos : list string) (stack : list string)
  (st : string * string) (line : string) :
  holds stack st ->
  holds stack (clean_line gotos st line) /\
    (is_statement line = false
     \/ exists label, find_label line = Some label /\ str_in label gotos = false)
  \/ holds (line :: stack) (clean_line gotos st line) /\ is_statement line = true
     /\ (forall label, find_label line = Some label -> str_in label gotos = true)
  \/ exists below label,
       stack = snd st :: below
       /\ holds below (clean_line gotos st line)
       /\ find_label line = Some label
       /\ str_contains ("goto " ++ label ++ ";") (snd st) = true.
Proof.
  intros (Htext & Hlast). destruct st as [clean_code last_line].
  simpl in Htext, Hlast. unfold clean_line, is_statement.
  destruct (strip_is_empty line); [left; split; [split|]; auto|].
  destruct (matches_semicolon line); [left; split; [split|]; auto|].
  assert (Hkeep : holds (line :: stack) (clean_code ++ line ++ newline, line)).
  { split; simpl.
    - rewrite lines_text_app, Htext. simpl. reflexivity.
    - right. now exists stack. }
  destruct (find_label line) as [label|] eqn:Hlabel.
  - destruct (str_in label gotos) eqn:Hin;
      destruct (str_contains ("goto " ++ label ++ ";") last_line) eqn:Hgoto;
      destruct (Nat.eqb (counter gotos label) 1) eqn:Hctr;
      cbv beta iota delta [negb andb].
    all: try (left; split; [split; simpl; auto|]; right; now exists label).
    all: try (right; left; split; [assumption|]; split; [reflexivity|];
              intros l Hl; inversion Hl; subst; assumption).
    right. right.
    destruct Hlast as [->|(below & ->)]; [simpl in Hgoto; discriminate|].
    exists below, label. simpl. split; [reflexivity|].
    split; [|auto]. split; simpl; [|now left].
    rewrite Htext. simpl. rewrite lines_text_app. simpl.
    apply drop_last_line.
  - right. left. split; [assumption|]. split; [reflexivity|]. discriminate.
Qed.

Lemma strip_prefix_app (a b s : string) :
  strip_prefix (a ++ b) s <> None -> strip_prefix a s <> None.
Proof.
  revert s. induction a as [|c a IH]; intros s; simpl.
  - discriminate.
  - destruct s as [|d s]; [auto|]. destruct (Ascii.eqb c d); [apply IH | auto].
Qed.

Lemma str_contains_app (a b hay : string) :
  str_contains (a ++ b) hay = true -> str_contains a hay = true.
Proof.
  induction hay as [|d hay IH]; simpl.
  - destruct (strip_prefix (a ++ b) "") eqn:E; [|discriminate].
    intros _. destruct (strip_prefix a "") eqn:E'; [reflexivity|].
    exfalso. apply (strip_prefix_app a b ""); congruence.
  - destruct (strip_prefix (a ++ b) (String d hay)) eqn:E.
    + intros _. destruct (strip_prefix a (String d hay)) eqn:E'; [reflexivity|].
      exfalso. apply (strip_prefix_app a b (String d hay)); congruence.
    + intros H. destruct (strip_prefix a (String d hay)); [reflexivity | auto].
Qed.

(** A statement line that is no label line and holds no [goto]. *)
Definition is_plain_statement (line : string) : bool :=
  is_statement line
  && match find_label line with None => true | Some _ => false end
  && negb (str_contains "goto " line).

(** What a kept line satisfies. *)
Definition may_stay (gotos : list string) (line : string) : Prop :=
  strip_is_empty line = false /\ matches_semicolon line = false
  /\ forall label, find_label line = Some label -> str_in label gotos = true.

Record Cleaned (gotos : list string) (seen stack : list string)
  (st : string * string) : Prop := {
  cleaned_holds : holds stack st;
  cleaned_sub : Subsequence (rev stack) seen;
  cleaned_stay : Forall (may_stay gotos) stack;
  cleaned_plain : Subsequence (filter is_plain_statement seen) (rev stack)
}.

Lemma is_statement_true (line : string) :
  is_statement line = true ->
  strip_is_empty line = false /\ matches_semicolon line = false.
Proof.
  unfold is_statement. destruct (strip_is_empty line), (matches_semicolon line);
    simpl; intros H; try discriminate. auto.
Qed.

Lemma clean_line_cleaned (gotos seen stack : list string) (st : string * string)
  (line : string) :
  Cleaned gotos seen stack st ->
  exists stack', Cleaned gotos (seen ++ [line]) stack' (clean_line gotos st line).
Proof.
  intros [Hholds Hsub Hstay Hplain].
  destruct (clean_line_stack gotos stack st line Hholds)
    as [(Hh & Hwhy)|[(Hh & Hst & Hlab)|(below & label & Hstack & Hh & Hlab & Hgoto)]].
  - exists stack. split; [assumption | | assumption |].
    + rewrite <- (app_nil_r (rev stack)).
      apply Subsequence_app; [assumption | apply Subsequence_nil_l].
    + rewrite filter_app. simpl.
      replace (is_plain_statement line) with false; [now rewrite app_nil_r|].
      unfold is_plain_statement.
      destruct Hwhy as [->|(label & -> & _)]; [reflexivity|].
      now rewrite andb_false_r.
  - exists (line :: stack). split; [assumption | | |].
    + simpl. apply Subsequence_app; [assumption | apply Subsequence_refl].
    + constructor; [|assumption].
      destruct (is_statement_true line Hst) as (A & B). now split.
    + rewrite filter_app. simpl.
      apply Subsequence_app; [assumption|].
      destruct (is_plain_statement line);
        [apply Subsequence_refl | apply Subsequence_nil_l].
  - subst stack. exists below. split; [assumption | | |].
    + simpl in Hsub. apply Subsequence_drop_last in Hsub.
      rewrite <- (app_nil_r (rev below)).
      apply Subsequence_app; [assumption | apply Subsequence_nil_l].
    + now inversion Hstay.
    + rewrite filter_app. simpl.
      replace (is_plain_statement line) with false
        by (unfold is_plain_statement; rewrite Hlab; now rewrite andb_false_r).
      rewrite app_nil_r. simpl in Hplain.
      apply (Subsequence_without_last _ _ (snd st)); [|assumption].
      intros Hin. apply filter_In in Hin as (_ & Hp).
      unfold is_plain_statement in Hp.
      change ("goto " ++ label ++ ";") with (("goto ") ++ (label ++ ";")) in Hgoto.
      rewrite (str_contains_app "goto " (label ++ ";") (snd st) Hgoto) in Hp.
      now rewrite andb_false_r in Hp.
Qed.

Lemma clean_lines_cleaned (gotos lines : list string) :
  forall seen stack st,
    Cleaned gotos seen stack st ->
    exists stack',
      Cleaned gotos (seen ++ lines) stack' (fold_left (clean_line gotos) lines st).
Proof.
  induction lines as [|line rest IH]; intros seen stack st H; simpl.
  - exists stack. now rewrite app_nil_r.
  - destruct (clean_line_cleaned gotos seen stack st line H) as (stack1 & H1).
    destruct (IH _ _ _ H1) as (stack2 & H2).
    exists stack2. now rewrite <- app_assoc in H2.
Qed.

Lemma clean_up_cleaned (generated_code : string) :
  exists kept,
    clean_up generated_code = lines_text kept
    /\ Subsequence kept (split_lines generated_code)
    /\ Forall (may_stay (findall_goto 0 generated_code)) kept
    /\ Subsequence (filter is_plain_statement (split_lines generated_code)) kept.
Proof.
  assert (H0 : Cleaned (findall_goto 0 generated_code) [] [] ("", "")).
  { split; [split; simpl; auto | constructor | constructor | constructor]. }
  destruct (clean_lines_cleaned (findall_goto 0 generated_code)
              (split_lines generated_code) [] [] ("", "") H0)
    as (stack & [(Htext & _) Hsub Hstay Hplain]).
  exists (rev stack). unfold clean_up. simpl in *.
  repeat split; try assumption.
  apply Forall_forall. intros x Hx. apply in_rev in Hx.
  rewrite Forall_forall in Hstay. now apply Hstay.
Qed.

(** X6. The clean-up only leaves lines out: the clean code is made of
    lines of the generated code, in their order, each followed by one
    line break.  No kept line is blank, none starts (after white space)
    with a semicolon, and every kept label line carries a label that
    some [goto] of the generated code names. *)
Theorem clean_up_only_leaves_lines_out (generated_code : string) :
  exists kept,
    clean_up generated_code = lines_text kept
    /\ Subsequence kept (split_lines generated_code)
    /\ Forall (fun line =>
                 strip_is_empty line = false
                 /\ matches_semicolon line = false
                 /\ forall label, find_label line = Some label ->
                      str_in label (findall_goto 0 generated_code) = true)
              kept.
Proof.
  destruct (clean_up_cleaned generated_code) as (kept & Htext & Hsub & Hstay & _).
  exists kept. auto.
Qed.

Lemma filter_all {A : Type} (f g : A -> bool) (l : list A) :
  (forall x, In x l -> f x = g x) -> filter f l = filter g l.
Proof.
  induction l as [|x l IH]; intros H; simpl; [reflexivity|].
  rewrite (H x) by now left. rewrite IH; [reflexivity|].
  intros y Hy. apply H. now right.
Qed.

Lemma clean_lines_without_labels (gotos lines : list string) :
  (forall line, In line lines -> find_label line = None) ->
  forall clean_code last_line,
    fst (fold_left (clean_line gotos) lines (clean_code, last_line))
    = clean_code ++ lines_text (filter is_statement lines).
Proof.
  induction lines as [|line rest IH]; intros Hnone clean_code last_line.
  - simpl. clear. induction clean_code; simpl; congruence.
  - assert (Hrest : forall l, In l rest -> find_label l = None)
      by (intros l Hl; apply Hnone; now right).
    assert (Hstep : clean_line gotos (clean_code, last_line) line
                    = if is_statement line
                      then (clean_code ++ line ++ newline, line)
                      else (clean_code, last_line)).
    { unfold clean_line, is_statement. rewrite (Hnone line) by now left.
      destruct (strip_is_empty line), (matches_semicolon line); reflexivity. }
    change (fold_left (clean_line gotos) (line :: rest) (clean_code, last_line))
      with (fold_left (clean_line gotos) rest
              (clean_line gotos (clean_code, last_line) line)).
    rewrite Hstep. cbn [filter].
    destruct (is_statement line); rewrite (IH Hrest); [|reflexivity].
    cbn [lines_text fold_right]. now rewrite !Treenodes.string_app_assoc.
Qed.

(** X7. The clean-up keeps every statement that is neither a label
    line nor holds a [goto]: the lines that are not blank, do not start
    with a semicolon, match no label pattern and contain no [goto] all
    appear in the clean code, in their order.  When no line of the
    generated code matches the label pattern, the clean code is exactly
    the lines that are neither blank nor start with a semicolon. *)
Theorem clean_up_keeps_every_statement_without_goto (generated_code : string) :
  (exists kept,
      clean_up generated_code = lines_text kept
      /\ Subsequence (filter is_plain_statement (split_lines generated_code)) kept)
  /\ ((forall line, In line (split_lines generated_code) -> find_label line = None) ->
      clean_up generated_code
      = lines_text (filter is_statement (split_lines generated_code))).
Proof.
  split.
  - destruct (clean_up_cleaned generated_code) as (kept & Htext & _ & _ & Hplain).
    exists kept. auto.
  - intros Hnone. unfold clean_up.
    now rewrite (clean_lines_without_labels _ _ Hnone).
Qed.

Lemma find_label_is_statement (line label : string) :
  find_label line = Some label -> is_statement line = true.
Proof.
  unfold find_label, is_statement, strip_is_empty, matches_semicolon.
  destruct (skip_spaces line) as [|c rest]; [discriminate|].
  destruct (is_ident_start c) eqn:E; [|discriminate]. intros _.
  cbv beta iota. destruct (is_char ";" c) eqn:E'; [|reflexivity].
  unfold is_char in E'. apply Ascii.eqb_eq in E'. subst c. discriminate.
Qed.

Lemma counter_pos_in (l : list string) (x : string) :
  counter l x = 1 -> str_in x l = true.
Proof.
  unfold counter, str_in. induction l as [|y l IH]; simpl; [discriminate|].
  destruct (String.eqb x y); simpl; auto.
Qed.

(** X8. A statement line holding [goto L;] that is directly followed
    by the label line of [L], when the generated code holds exactly one
    [goto L;], leaves no trace: after the two lines the clean code is
    what it was before them and [last_line] is empty, so the clean-up
    of the whole code is that of the lines before followed by that of
    the lines after. *)
Theorem goto_followed_by_its_only_label_is_removed
  (generated_code : string) (before after : list string)
  (goto_line label_line label : string) :
  split_lines generated_code = (before ++ goto_line :: label_line :: after)%list ->
  is_statement goto_line = true ->
  find_label goto_line = None ->
  find_label label_line = Some label ->
  str_contains ("goto " ++ label ++ ";") goto_line = true ->
  counter (findall_goto 0 generated_code) label = 1 ->
  let gotos := findall_goto 0 generated_code in
  let clean_before := fst (fold_left (clean_line gotos) before ("", "")) in
  fold_left (clean_line gotos) (before ++ [goto_line; label_line]) ("", "")
  = (clean_before, "")
  /\ clean_up generated_code
     = fst (fold_left (clean_line gotos) after (clean_before, "")).
Proof.
  intros Hlines Hst Hnolabel Hlabel Hgoto Hctr gotos clean_before.
  assert (Hpair :
    fold_left (clean_line gotos) (before ++ [goto_line; label_line]) ("", "")
    = (clean_before, "")).
  { rewrite fold_left_app. unfold clean_before.
    destruct (fold_left (clean_line gotos) before ("", "")) as [clean_code last_line].
    destruct (is_statement_true _ Hst) as (A & B).
    destruct (is_statement_true _ (find_label_is_statement _ _ Hlabel)) as (C & D).
    assert (Hfirst : clean_line gotos (clean_code, last_line) goto_line
                     = (clean_code ++ goto_line ++ newline, goto_line)).
    { unfold clean_line. now rewrite A, B, Hnolabel. }
    assert (Hsecond : clean_line gotos (clean_code ++ goto_line ++ newline, goto_line)
                        label_line
                      = (clean_code, "")).
    { unfold clean_line. rewrite C, D, Hlabel.
      fold gotos in Hctr. rewrite (counter_pos_in _ _ Hctr), Hgoto, Hctr.
      cbv beta iota delta [negb andb].
      now rewrite drop_last_line. }
    cbn [fold_left fst]. now rewrite Hfirst, Hsecond. }
  split; [assumption|].
  unfold clean_up. fold gotos. rewrite Hlines.
  change (goto_line :: label_line :: after)
    with ([goto_line; label_line] ++ after)%list.
  rewrite app_assoc, fold_left_app, Hpair. reflexivity.
Qed.

(** A jump to [done] right before the label [done], and a statement. *)
Definition jump_to_next_line : string :=
  "goto done;" ++ newline ++ "done:; ////" ++ newline ++ "return;" ++ newline.

Lemma goto_followed_by_its_only_label_is_removed_witness :
  clean_up jump_to_next_line = "return;" ++ newline.
Proof.
  destruct (goto_followed_by_its_only_label_is_removed jump_to_next_line
              [] ["return;"; ""] "goto done;" "done:; ////" "done"
              eq_refl eq_refl eq_refl eq_refl eq_refl eq_refl) as (_ & H).
  rewrite H. reflexivity.
Defined.

(** *** Properties of the external-memory entry points *)



Section DictFacts.

Context {V : Type}.





End DictFacts.













(** **** The bound ranges do not overlap *)







(** *** The declarations of the inter-state symbols ([generate_code]) *)

(** A symbol table: a dictionary from names to types in insertion
    order.  The type [None] is an inference that gave nothing. *)
Definition SymbolTable := list (string * option typeclass).

(** [k in d]. *)
Definition has_key (d : SymbolTable) (k : string) : bool :=
  match dict_lookup String.eqb d k with
  | Some _ => true
  | None => false
  end.

(** [d.update(other)]. *)
Definition dict_update (d other : SymbolTable) : SymbolTable :=
  fold_left (fun acc kv => dict_set String.eqb acc (fst kv) (snd kv)) other d.

(** What the symbol section reads of the program and of other modules
    (whose functions are taken to return).  [opencl_vendor] is the text
    [config.Config.get('compiler', 'fpga', 'vendor').lower()]. *)
Record SymbolSources := {
  (** [sdfg.symbols], [sdfg.all_control_flow_regions()], the keys of
      [sdfg.arglist()]. *)
  sdfg_symbols : SDFG -> SymbolTable;
  all_control_flow_regions : SDFG -> list ControlFlowRegion;
  sdfg_arglist : SDFG -> list string;
  (** [isinstance(cfr, LoopRegion)], [cfr.loop_variable],
      [cfr.init_statement is not None], [cfr.dfs_edges(cfr.start_block)]. *)
  is_LoopRegion : ControlFlowRegion -> bool;
  loop_variable : ControlFlowRegion -> option string;
  has_init_statement : ControlFlowRegion -> bool;
  dfs_edges : ControlFlowRegion -> list InterstateEdge;
  (** [dtypes.result_type_of] of the inferred types of the loop's start,
      stride and end, under the symbol table given. *)
  loop_symbol_type : ControlFlowRegion -> SymbolTable -> option typeclass;
  (** [e.data.new_symbols(sdfg, global_symbols)]. *)
  new_symbols : SDFG -> InterstateEdge -> SymbolTable -> SymbolTable;
  (** The keys of [node.symbol_mapping]. *)
  symbol_mapping : Node -> list string;
  (** [data.Scalar(dtype)] and [dtype.ocltype]. *)
  Scalar : typeclass -> Data;
  ocltype : typeclass -> string;
  opencl_vendor : string
}.

(** What the section writes to [callsite_stream], and its calls of
    [self.dispatcher.defined_vars.add(name, DefinedType.Scalar, ctype)]. *)
Inductive Declaration :=
| Written (text : string)
| DefinedScalar (name : string) (ctype : string).

Section InterstateSymbols.

Variable G : Program.
Variable X : Collaborators.
Variable S : SymbolSources.

(** [global_symbols] before the loop over the regions: a copy of
    [sdfg.symbols] updated with the element type of every array. *)
Definition initial_symbols (sdfg : SDFG) : SymbolTable :=
  dict_update (sdfg_symbols S sdfg)
              (map (fun a => (fst a, Some (dtype (snd a)))) (arrays G sdfg)).

(** The loop variable of a loop region with an init statement; the
    tables are [(global_symbols, interstate_symbols)]. *)
Definition loop_variable_step (cfr : ControlFlowRegion)
  (tables : SymbolTable * SymbolTable) : Result (SymbolTable * SymbolTable) :=
  let (global_symbols, interstate_symbols) := tables in
  match is_LoopRegion S cfr, loop_variable S cfr, has_init_statement S cfr with
  | true, Some v, true =>
      let interstate_symbols :=
        if negb (has_key interstate_symbols v) then
          match dict_lookup String.eqb global_symbols v with
          | Some t => dict_set String.eqb interstate_symbols v t
          | None =>
              dict_set String.eqb interstate_symbols v
                       (loop_symbol_type S cfr global_symbols)
          end
        else interstate_symbols in
      if negb (has_key global_symbols v) then
        match dict_lookup String.eqb interstate_symbols v with
        | Some t => Ok (dict_set String.eqb global_symbols v t, interstate_symbols)
        | None => Raise KeyError
        end
      else Ok (global_symbols, interstate_symbols)
  | _, _, _ => Ok tables
  end.

(** The symbols an edge assigns: an inferred type is kept only where
    [global_symbols] has no type for the name. *)
Definition preferred_types (global_symbols symbols : SymbolTable) : SymbolTable :=
  map (fun kv =>
         (fst kv,
          match dict_lookup String.eqb global_symbols (fst kv) with
          | Some (Some t) => Some t
          | _ => snd kv
          end))
      symbols.

Definition edge_step (sdfg : SDFG) (tables : SymbolTable * SymbolTable)
  (e : InterstateEdge) : SymbolTable * SymbolTable :=
  let (global_symbols, interstate_symbols) := tables in
  let symbols := new_symbols S sdfg e global_symbols in
  let symbols := preferred_types global_symbols symbols in
  (dict_update global_symbols symbols, dict_update interstate_symbols symbols).

(** The loop over [sdfg.all_control_flow_regions()]. *)
Fixpoint collect_symbols (sdfg : SDFG) (regions : list ControlFlowRegion)
  (tables : SymbolTable * SymbolTable) : Result (SymbolTable * SymbolTable) :=
  match regions with
  | [] => Ok tables
  | cfr :: rest =>
      tables <- loop_variable_step cfr tables ;;
      collect_symbols sdfg rest (fold_left (edge_step sdfg) (dfs_edges S cfr) tables)
  end.

Definition is_top_level (sdfg : SDFG) : bool :=
  match parent G sdfg with
  | None => true
  | Some _ => false
  end.

Definition outside_symbols (sdfg : SDFG) : list string :=
  if is_top_level sdfg then sdfg_arglist S sdfg else [].

(** [schedule in (FPGA_Device, FPGA_Multi_Pumped)] and the vendor is
    [intel_fpga]. *)
Definition opencl_types (schedule : option ScheduleType.t) : bool :=
  match schedule with
  | Some s =>
      (String.eqb (ScheduleType.name s) "FPGA_Device"
       || String.eqb (ScheduleType.name s) "FPGA_Multi_Pumped")
      && String.eqb (opencl_vendor S) "intel_fpga"
  | None => false
  end.

(** One round of the loop over [interstate_symbols.items()]. *)
Definition declare_symbol (sdfg : SDFG) (schedule : option ScheduleType.t)
  (out : list Declaration) (item : string * option typeclass)
  : Result (list Declaration) :=
  let (isvarName, isvarType) := item in
  match isvarType with
  | None => Raise (TypeError ("Type inference failed for symbol " ++ isvarName))
  | Some t =>
      mapped <- (if negb (is_top_level sdfg) then
                   match parent_nsdfg_node G sdfg with
                   | None => Raise AttributeError
                   | Some node => Ok (str_in isvarName (symbol_mapping S node))
                   end
                 else Ok false) ;;
      if mapped then Ok out
      else
        let isvar := Scalar S t in
        if opencl_types schedule then
          Ok (out ++ [Written (ocltype S t ++ " " ++ isvarName ++ ";" ++ newline);
                      DefinedScalar isvarName (ctype (info_of t))])%list
        else if negb (str_in isvarName (outside_symbols sdfg)) then
          Ok (out ++ [Written (as_arg X isvar isvarName ++ ";" ++ newline);
                      DefinedScalar isvarName (ctype (info_of t))])%list
        else Ok out
  end.

Fixpoint declare_symbols (sdfg : SDFG) (schedule : option ScheduleType.t)
  (items : SymbolTable) (out : list Declaration) : Result (list Declaration) :=
  match items with
  | [] => Ok out
  | item :: rest =>
      out <- declare_symbol sdfg schedule out item ;;
      declare_symbols sdfg schedule rest out
  end.

(** The section "Allocate inter-state variables" of [generate_code]. *)
Definition declare_interstate_symbols (sdfg : SDFG)
  (schedule : option ScheduleType.t) : Result (list Declaration) :=
  tables <- collect_symbols sdfg (all_control_flow_regions S sdfg)
                            (initial_symbols sdfg, []) ;;
  out <- declare_symbols sdfg schedule (snd tables) [] ;;
  Ok (out ++ [Written newline])%list.

(** The names passed to [defined_vars.add]. *)
Fixpoint defined_names (out : list Declaration) : list string :=
  match out with
  | [] => []
  | DefinedScalar name _ :: rest => name :: defined_names rest
  | Written _ :: rest => defined_names rest
  end.


(** **** Facts about symbol tables *)

Lemma str_lookup_after_set (d : SymbolTable) (k k' : string) (v : option typeclass) :
  dict_lookup String.eqb (dict_set String.eqb d k v) k' =
  if String.eqb k' k then Some v else dict_lookup String.eqb d k'.
Proof.
  apply dict_lookup_after_set.
  - intros a b H. rewrite String.eqb_sym. exact H.
  - intros a b c H1 H2. apply String.eqb_eq in H1, H2. subst. apply String.eqb_refl.
Qed.

Lemma has_key_In (d : SymbolTable) (k : string) :
  has_key d k = true <-> In k (map fst d).
Proof.
  unfold has_key. induction d as [|[k0 v0] rest IH]; simpl.
  - split; [discriminate | tauto].
  - destruct (String.eqb k k0) eqn:E.
    + apply String.eqb_eq in E. subst. split; auto.
    + rewrite IH. split; [auto|]. intros [H|H]; [|exact H].
      subst. rewrite String.eqb_refl in E. discriminate.
Qed.

Lemma keys_after_set (d : SymbolTable) (k : string) (v : option typeclass) :
  map fst (dict_set String.eqb d k v)
  = if has_key d k then map fst d else (map fst d ++ [k])%list.
Proof.
  unfold has_key. induction d as [|[k0 v0] rest IH]; simpl; [reflexivity|].
  destruct (String.eqb k k0) eqn:E; simpl; [reflexivity|].
  rewrite IH. destruct (dict_lookup String.eqb rest k); reflexivity.
Qed.

Lemma NoDup_after_set (d : SymbolTable) (k : string) (v : option typeclass) :
  NoDup (map fst d) -> NoDup (map fst (dict_set String.eqb d k v)).
Proof.
  induction d as [|[k0 v0] rest IH]; simpl; intros H.
  - constructor; [tauto | constructor].
  - inversion H as [|? ? Hnotin Hrest]; subst.
    destruct (String.eqb k k0) eqn:E; simpl; [exact H|].
    constructor; [|now apply IH].
    rewrite keys_after_set. destruct (has_key rest k); [exact Hnotin|].
    intros Hin. apply in_app_or in Hin. destruct Hin as [Hin|[Hin|[]]]; [auto|].
    subst. rewrite String.eqb_refl in E. discriminate.
Qed.

Lemma NoDup_after_update (d other : SymbolTable) :
  NoDup (map fst d) -> NoDup (map fst (dict_update d other)).
Proof.
  unfold dict_update. revert d. induction other as [|[k v] rest IH]; intros d H; simpl.
  - exact H.
  - apply IH. now apply NoDup_after_set.
Qed.

Lemma lookup_of_In (d : SymbolTable) (k : string) (v : option typeclass) :
  NoDup (map fst d) -> In (k, v) d -> dict_lookup String.eqb d k = Some v.
Proof.
  induction d as [|[k0 v0] rest IH]; simpl; intros Hnd Hin; [tauto|].
  inversion Hnd as [|? ? Hnotin Hrest]; subst.
  destruct Hin as [Heq|Hin].
  - inversion Heq; subst. now rewrite String.eqb_refl.
  - destruct (String.eqb k k0) eqn:E; [|now apply IH].
    apply String.eqb_eq in E. subst. exfalso. apply Hnotin.
    apply in_map_iff. now exists (k0, v).
Qed.

(** Every entry of [i] is an entry of [g]. *)
Definition agree (g i : SymbolTable) : Prop :=
  forall k t, dict_lookup String.eqb i k = Some t -> dict_lookup String.eqb g k = Some t.

(** Every name with a type in [g] has that type in [g']. *)
Definition keeps (g g' : SymbolTable) : Prop :=
  forall k t, dict_lookup String.eqb g k = Some (Some t) ->
              dict_lookup String.eqb g' k = Some (Some t).

Lemma keeps_refl (g : SymbolTable) : keeps g g.
Proof. intros k t H. exact H. Qed.

Lemma keeps_trans (a b c : SymbolTable) : keeps a b -> keeps b c -> keeps a c.
Proof. intros H1 H2 k t H. apply H2, H1, H. Qed.

Lemma agree_after_update (other g i : SymbolTable) :
  agree g i -> agree (dict_update g other) (dict_update i other).
Proof.
  unfold dict_update. revert g i.
  induction other as [|[k v] rest IH]; intros g i H; simpl; [exact H|].
  apply IH. intros k' t. rewrite !str_lookup_after_set.
  destruct (String.eqb k' k); [auto | apply H].
Qed.

Lemma keeps_after_update (g other g' : SymbolTable) :
  (forall k v t, In (k, v) other -> dict_lookup String.eqb g k = Some (Some t) ->
                 v = Some t) ->
  keeps g g' -> keeps g (dict_update g' other).
Proof.
  unfold dict_update. revert g'.
  induction other as [|[k v] rest IH]; intros g' Hother H; simpl; [exact H|].
  apply IH.
  - intros k' v' t Hin. apply Hother. now right.
  - intros k' t Hk. rewrite str_lookup_after_set.
    destruct (String.eqb k' k) eqn:E; [|now apply H].
    apply String.eqb_eq in E. subst.
    now rewrite (Hother k v t (or_introl eq_refl) Hk).
Qed.

Lemma preferred_types_known (g symbols : SymbolTable) (k : string)
  (v : option typeclass) (t : typeclass) :
  In (k, v) (preferred_types g symbols) ->
  dict_lookup String.eqb g k = Some (Some t) -> v = Some t.
Proof.
  unfold preferred_types. intros Hin Hk. apply in_map_iff in Hin.
  destruct Hin as [[k0 v0] [Heq _]]. simpl in Heq. inversion Heq; subst.
  now rewrite Hk.
Qed.

(** **** What the loop over the regions keeps *)

(** The state of the tables after any number of rounds, [g0] being the
    first [global_symbols]. *)
Record Collected (g0 : SymbolTable) (tables : SymbolTable * SymbolTable) : Prop := {
  collected_once : NoDup (map fst (snd tables));
  collected_agree : agree (fst tables) (snd tables);
  collected_keeps : keeps g0 (fst tables)
}.

Lemma edge_step_collected (sdfg : SDFG) (g0 : SymbolTable) tables (e : InterstateEdge) :
  Collected g0 tables -> Collected g0 (edge_step sdfg tables e).
Proof.
  destruct tables as [g i]. intros [Honce Hagree Hkeeps]. simpl in *.
  split; simpl.
  - now apply NoDup_after_update.
  - now apply agree_after_update.
  - apply keeps_trans with g; [exact Hkeeps|].
    apply keeps_after_update; [|apply keeps_refl].
    intros k v t. apply preferred_types_known.
Qed.

Lemma edges_collected (sdfg : SDFG) (g0 : SymbolTable) (edges : list InterstateEdge) :
  forall tables, Collected g0 tables ->
                 Collected g0 (fold_left (edge_step sdfg) edges tables).
Proof.
  induction edges as [|e rest IH]; intros tables H; simpl; [exact H|].
  apply IH. now apply edge_step_collected.
Qed.

Lemma loop_variable_step_collected (g0 : SymbolTable) (cfr : ControlFlowRegion) tables :
  Collected g0 tables ->
  exists tables', loop_variable_step cfr tables = Ok tables' /\ Collected g0 tables'.
Proof.
  destruct tables as [g i]. intros H. pose proof H as [Honce Hagree Hkeeps].
  simpl in Honce, Hagree, Hkeeps. unfold loop_variable_step.
  destruct (is_LoopRegion S cfr); [|now exists (g, i)].
  destruct (loop_variable S cfr) as [v|]; [|now exists (g, i)].
  destruct (has_init_statement S cfr); [|now exists (g, i)].
  destruct (has_key i v) eqn:Hi; simpl.
  - unfold has_key in Hi.
    destruct (dict_lookup String.eqb i v) as [t|] eqn:Hiv; [|discriminate].
    unfold has_key. rewrite (Hagree v t Hiv). simpl. now exists (g, i).
  - unfold has_key at 1.
    destruct (dict_lookup String.eqb g v) as [t|] eqn:Hgv; simpl.
    + exists (g, dict_set String.eqb i v t). split; [reflexivity|].
      split; simpl; [now apply NoDup_after_set| |exact Hkeeps].
      intros k t'. rewrite str_lookup_after_set.
      destruct (String.eqb k v) eqn:E; [|apply Hagree].
      apply String.eqb_eq in E. subst. intros Heq. now rewrite Hgv.
    + rewrite str_lookup_after_set, String.eqb_refl.
      eexists. split; [reflexivity|].
      split; simpl; [now apply NoDup_after_set| |].
      * intros k t'. rewrite !str_lookup_after_set.
        destruct (String.eqb k v); [auto | apply Hagree].
      * apply keeps_trans with g; [exact Hkeeps|].
        intros k t Hk. rewrite str_lookup_after_set.
        destruct (String.eqb k v) eqn:E; [|exact Hk].
        apply String.eqb_eq in E. subst. rewrite Hgv in Hk. discriminate.
Qed.

Lemma collect_symbols_collected (sdfg : SDFG) (g0 : SymbolTable)
  (regions : list ControlFlowRegion) :
  forall tables, Collected g0 tables ->
    exists tables', collect_symbols sdfg regions tables = Ok tables'
                    /\ Collected g0 tables'.
Proof.
  induction regions as [|cfr rest IH]; intros tables H; simpl.
  - now exists tables.
  - destruct (loop_variable_step_collected g0 cfr tables H) as [t1 [Hstep H1]].
    rewrite Hstep. simpl. apply IH. now apply edges_collected.
Qed.

Lemma collected_at_start (sdfg : SDFG) :
  Collected (initial_symbols sdfg) (initial_symbols sdfg, []).
Proof.
  split; simpl; [constructor | intros k t H; discriminate | apply keeps_refl].
Qed.


(** **** What the loop over the collected symbols does *)

(** A name the section may declare: not a key of the symbol mapping of
    the nested-SDFG node, and not an argument of a top-level SDFG
    unless OpenCL types are written. *)
Definition declarable (sdfg : SDFG) (schedule : option ScheduleType.t)
  (name : string) : Prop :=
  (forall node, parent G sdfg <> None -> parent_nsdfg_node G sdfg = Some node ->
                ~ In name (symbol_mapping S node))
  /\ (parent G sdfg = None -> opencl_types schedule = false ->
      ~ In name (sdfg_arglist S sdfg)).

(** The first collected symbol without a type. *)
Fixpoint first_untyped (items : SymbolTable) : option string :=
  match items with
  | [] => None
  | (name, None) :: _ => Some name
  | (_, Some _) :: rest => first_untyped rest
  end.

Lemma defined_names_app (a b : list Declaration) :
  defined_names (a ++ b) = (defined_names a ++ defined_names b)%list.
Proof.
  induction a as [|[text|name c] rest IH]; simpl; [reflexivity|exact IH|].
  now rewrite IH.
Qed.

Lemma defined_names_In (out : list Declaration) (name : string) :
  In name (defined_names out) <-> exists c, In (DefinedScalar name c) out.
Proof.
  induction out as [|[text|n c] rest IH]; simpl.
  - split; [tauto | intros [c []]].
  - rewrite IH. split; intros [c H]; exists c; [now right|].
    destruct H as [H|H]; [discriminate | exact H].
  - rewrite IH. split.
    + intros [H|[c' H]]; [subst; exists c; now left | exists c'; now right].
    + intros [c' [H|H]]; [inversion H; now left | right; now exists c'].
Qed.

Lemma str_in_false (x : string) (l : list string) : str_in x l = false -> ~ In x l.
Proof.
  intros H Hin. apply str_in_In in Hin. rewrite Hin in H. discriminate.
Qed.

Lemma declare_symbol_ok (sdfg : SDFG) (schedule : option ScheduleType.t)
  (out out' : list Declaration) (k : string) (ty : option typeclass) :
  declare_symbol sdfg schedule out (k, ty) = Ok out' ->
  exists t, ty = Some t
    /\ (out' = out
        \/ (exists text,
              out' = (out ++ [Written text; DefinedScalar k (ctype (info_of t))])%list)
           /\ declarable sdfg schedule k).
Proof.
  unfold declare_symbol, declarable, outside_symbols, is_top_level.
  destruct ty as [t|]; [|discriminate]. intros H. exists t. split; [reflexivity|].
  destruct (parent G sdfg) as [pstate|] eqn:Hparent; simpl in H.
  - destruct (parent_nsdfg_node G sdfg) as [node|] eqn:Hnode; simpl in H;
      [|discriminate].
    destruct (str_in k (symbol_mapping S node)) eqn:Hmapped.
    + left. now inversion H.
    + right. split.
      * destruct (opencl_types schedule); inversion H; eexists; reflexivity.
      * split; [|discriminate].
        intros node' _ Heq. inversion Heq; subst. now apply str_in_false.
  - destruct (opencl_types schedule) eqn:Hocl.
    + right. split; [inversion H; eexists; reflexivity|].
      split; [congruence | discriminate].
    + destruct (str_in k (sdfg_arglist S sdfg)) eqn:Harg; simpl in H.
      * left. now inversion H.
      * right. split; [inversion H; eexists; reflexivity|].
        split; [congruence|]. intros _ _. now apply str_in_false.
Qed.

Lemma declare_symbols_ok (sdfg : SDFG) (schedule : option ScheduleType.t)
  (items : SymbolTable) :
  forall out out',
    declare_symbols sdfg schedule items out = Ok out' ->
    exists extra,
      out' = (out ++ extra)%list
      /\ (forall n, In n (defined_names extra) -> In n (map fst items))
      /\ (NoDup (map fst items) -> NoDup (defined_names extra))
      /\ (forall k c, In (DefinedScalar k c) extra ->
            declarable sdfg schedule k
            /\ exists t, In (k, Some t) items /\ c = ctype (info_of t)).
Proof.
  induction items as [|[k ty] rest IH]; intros out out' H;
    cbn [declare_symbols] in H.
  - inversion H; subst. exists []. rewrite app_nil_r.
    split; [reflexivity|]. split; [simpl; tauto|].
    split; [intros _; constructor | intros k c []].
  - destruct (declare_symbol sdfg schedule out (k, ty)) as [out1| |] eqn:Hone;
      simpl in H; try discriminate.
    apply declare_symbol_ok in Hone. destruct Hone as [t [-> Hone]].
    destruct (IH _ _ H) as [extra [-> [Hnames [Honce Hdecl]]]].
    destruct Hone as [->|[[text ->] Hk]].
    + exists extra. split; [reflexivity|]. split; [|split].
      * intros n Hn. right. now apply Hnames.
      * intros Hnd. inversion Hnd; subst. now apply Honce.
      * intros k' c Hin. destruct (Hdecl k' c Hin) as [Hd [t' [Hin' Hc]]].
        split; [exact Hd|]. exists t'. split; [now right | exact Hc].
    + exists ([Written text; DefinedScalar k (ctype (info_of t))] ++ extra)%list.
      split; [now rewrite <- app_assoc|]. split; [|split].
      * simpl. intros n [Hn|Hn]; [now left | right; now apply Hnames].
      * simpl. intros Hnd. inversion Hnd as [|? ? Hnotin Hrest]; subst.
        constructor; [|now apply Honce]. intros Hin. apply Hnotin, Hnames, Hin.
      * simpl. intros k' c [Hin|[Hin|Hin]]; [discriminate| |].
        -- inversion Hin; subst. split; [exact Hk|]. exists t. split; [now left|reflexivity].
        -- destruct (Hdecl k' c Hin) as [Hd [t' [Hin' Hc]]].
           split; [exact Hd|]. exists t'. split; [now right | exact Hc].
Qed.

Lemma declare_symbol_typed (sdfg : SDFG) (schedule : option ScheduleType.t)
  (out : list Declaration) (k : string) (t : typeclass) :
  parent G sdfg = None \/ parent_nsdfg_node G sdfg <> None ->
  exists out1, declare_symbol sdfg schedule out (k, Some t) = Ok out1.
Proof.
  intros Hnode. unfold declare_symbol, is_top_level.
  destruct (parent G sdfg) as [pstate|] eqn:Hparent; simpl.
  - destruct (parent_nsdfg_node G sdfg) as [node|]; simpl;
      [|destruct Hnode; congruence].
    destruct (str_in k (symbol_mapping S node)); [now eexists|].
    destruct (opencl_types schedule); [now eexists|].
    destruct (negb _); now eexists.
  - destruct (opencl_types schedule); [now eexists|].
    destruct (negb _); now eexists.
Qed.

Lemma declare_symbols_outcome (sdfg : SDFG) (schedule : option ScheduleType.t) :
  parent G sdfg = None \/ parent_nsdfg_node G sdfg <> None ->
  forall items out,
    match first_untyped items with
    | Some name =>
        declare_symbols sdfg schedule items out
        = Raise (TypeError ("Type inference failed for symbol " ++ name))
    | None => exists out', declare_symbols sdfg schedule items out = Ok out'
    end.
Proof.
  intros Hnode. induction items as [|[k [t|]] rest IH]; intros out;
    cbn [declare_symbols first_untyped].
  - now exists out.
  - destruct (declare_symbol_typed sdfg schedule out k t Hnode) as [out1 ->].
    apply IH.
  - reflexivity.
Qed.

(** X20. No inter-state symbol is declared twice: the names the
    section passes to [defined_vars.add] are pairwise different,
    whatever the regions, their edges and the symbols inferred on
    them. *)
Theorem interstate_symbols_are_declared_once (sdfg : SDFG)
  (schedule : option ScheduleType.t) (out : list Declaration) :
  declare_interstate_symbols sdfg schedule = Ok out ->
  NoDup (defined_names out).
Proof.
  unfold declare_interstate_symbols. intros H.
  destruct (collect_symbols_collected sdfg _ (all_control_flow_regions S sdfg) _
              (collected_at_start sdfg)) as [tables [Hcollect Hinv]].
  rewrite Hcollect in H. simpl in H.
  destruct (declare_symbols sdfg schedule (snd tables) []) as [out1| |] eqn:Hdecl;
    simpl in H; try discriminate.
  inversion H; subst. apply declare_symbols_ok in Hdecl.
  destruct Hdecl as [extra [-> [_ [Honce _]]]]. simpl.
  rewrite defined_names_app. simpl. rewrite app_nil_r.
  apply Honce, Hinv.
Qed.

(** X21. A known type wins over an inferred one: a name to which
    [sdfg.symbols], or an array of [sdfg.arrays] through its element
    type, gives a type other than [None] is declared, when it is
    declared, with the C type of that type. *)
Theorem known_type_of_the_sdfg_is_declared (sdfg : SDFG)
  (schedule : option ScheduleType.t) (out : list Declaration)
  (name c : string) (t : typeclass) :
  dict_lookup String.eqb (initial_symbols sdfg) name = Some (Some t) ->
  declare_interstate_symbols sdfg schedule = Ok out ->
  In (DefinedScalar name c) out ->
  c = ctype (info_of t).
Proof.
  unfold declare_interstate_symbols. intros Hknown H Hin.
  destruct (collect_symbols_collected sdfg _ (all_control_flow_regions S sdfg) _
              (collected_at_start sdfg)) as [tables [Hcollect Hinv]].
  rewrite Hcollect in H. simpl in H.
  destruct (declare_symbols sdfg schedule (snd tables) []) as [out1| |] eqn:Hdecl;
    simpl in H; try discriminate.
  inversion H; subst. apply declare_symbols_ok in Hdecl.
  destruct Hdecl as [extra [-> [_ [_ Hdecl]]]]. simpl in Hin.
  apply in_app_or in Hin. destruct Hin as [Hin|[Hin|[]]]; [|discriminate].
  destruct (Hdecl name c Hin) as [_ [t' [Hitem ->]]].
  destruct Hinv as [Honce Hagree Hkeeps].
  apply (lookup_of_In _ _ _ Honce) in Hitem.
  apply Hagree in Hitem. apply Hkeeps in Hknown.
  rewrite Hknown in Hitem. now inversion Hitem.
Qed.

(** X22. The section never declares a key of the symbol mapping of
    the node that nests the SDFG, nor, for a top-level SDFG when no
    OpenCL types are written, an argument of the SDFG. *)
Theorem mapped_symbols_and_arguments_are_not_declared (sdfg : SDFG)
  (schedule : option ScheduleType.t) (out : list Declaration) (name : string) :
  declare_interstate_symbols sdfg schedule = Ok out ->
  In name (defined_names out) ->
  (forall node, parent G sdfg <> None -> parent_nsdfg_node G sdfg = Some node ->
                ~ In name (symbol_mapping S node))
  /\ (parent G sdfg = None -> opencl_types schedule = false ->
      ~ In name (sdfg_arglist S sdfg)).
Proof.
  unfold declare_interstate_symbols. intros H Hin.
  destruct (collect_symbols sdfg (all_control_flow_regions S sdfg)
              (initial_symbols sdfg, [])) as [tables| |]; simpl in H;
    try discriminate.
  destruct (declare_symbols sdfg schedule (snd tables) []) as [out1| |] eqn:Hdecl;
    simpl in H; try discriminate.
  inversion H; subst. apply declare_symbols_ok in Hdecl.
  destruct Hdecl as [extra [-> [_ [_ Hdecl]]]]. simpl in Hin.
  rewrite defined_names_app in Hin. simpl in Hin. rewrite app_nil_r in Hin.
  apply defined_names_In in Hin. destruct Hin as [c Hin].
  exact (proj1 (Hdecl name c Hin)).
Qed.

(** X23. For an SDFG that is top-level or has the node that nests it,
    collecting the symbols never fails (the look-up
    [interstate_symbols[cfr.loop_variable]] finds its key), and the
    section raises exactly when a collected symbol has the type [None]:
    the [TypeError] names the first such symbol in insertion order;
    otherwise the section returns. *)
Theorem interstate_symbols_fail_only_for_a_symbol_without_type (sdfg : SDFG)
  (schedule : option ScheduleType.t) :
  parent G sdfg = None \/ parent_nsdfg_node G sdfg <> None ->
  exists tables,
    collect_symbols sdfg (all_control_flow_regions S sdfg) (initial_symbols sdfg, [])
    = Ok tables
    /\ match first_untyped (snd tables) with
       | Some name =>
           declare_interstate_symbols sdfg schedule
           = Raise (TypeError ("Type inference failed for symbol " ++ name))
       | None => exists out, declare_interstate_symbols sdfg schedule = Ok out
       end.
Proof.
  intros Hnode.
  destruct (collect_symbols_collected sdfg _ (all_control_flow_regions S sdfg) _
              (collected_at_start sdfg)) as [tables [Hcollect _]].
  exists tables. split; [exact Hcollect|].
  unfold declare_interstate_symbols. rewrite Hcollect. simpl.
  pose proof (declare_symbols_outcome sdfg schedule Hnode (snd tables) []) as Hout.
  destruct (first_untyped (snd tables)) as [name|].
  - now rewrite Hout.
  - destruct Hout as [out' ->]. simpl. now eexists.
Qed.

End InterstateSymbols.

(** A top-level SDFG with one counting loop: the loop variable [i], the
    symbols [j], [k] and [N] assigned on its edge, of which [k] and [N]
    are symbols of the SDFG and [N] is an argument. *)
Definition int32 : typeclass :=
  plain {| ctype := "int"; bytes := 4; emit_definition := None |}.

Definition int64 : typeclass :=
  plain {| ctype := "long long"; bytes := 8; emit_definition := None |}.

Definition counting_loop : SymbolSources :=
  {| sdfg_symbols := fun _ => [("N", Some int32); ("k", Some int32)];
     all_control_flow_regions := fun _ => [1];
     sdfg_arglist := fun _ => ["A"; "N"];
     is_LoopRegion := fun _ => true;
     loop_variable := fun _ => Some "i";
     has_init_statement := fun _ => true;
     dfs_edges := fun _ => [flag_edge];
     loop_symbol_type := fun _ _ => Some int64;
     new_symbols := fun _ _ _ =>
       [("j", Some int64); ("k", Some int64); ("N", Some int64)];
     symbol_mapping := fun _ => ["j"];
     Scalar := fun t =>
       {| transient := false; storage := {| StorageType.name := "Default" |};
          lifetime := AllocationLifetime.Scope; dtype := t; total_size := 1;
          is_View := false |};
     ocltype := fun t => ctype (info_of t);
     opencl_vendor := "xilinx" |}.

Definition counting_loop_declarations : list Declaration :=
  [ Written ("long long *i;" ++ newline); DefinedScalar "i" "long long";
    Written ("long long *j;" ++ newline); DefinedScalar "j" "long long";
    Written ("int *k;" ++ newline); DefinedScalar "k" "int";
    Written newline ].

Lemma counting_loop_declared :
  declare_interstate_symbols sample_program host_collaborators counting_loop 0 None
  = Ok counting_loop_declarations.
Proof. reflexivity. Qed.

Lemma interstate_symbols_are_declared_once_witness :
  NoDup (defined_names counting_loop_declarations).
Proof.
  apply (interstate_symbols_are_declared_once sample_program host_collaborators
           counting_loop 0 None).
  reflexivity.
Defined.

Lemma known_type_of_the_sdfg_is_declared_witness :
  In (DefinedScalar "k" "int") counting_loop_declarations
  /\ "int" = ctype (info_of int32).
Proof.
  split; [simpl; tauto|].
  apply (known_type_of_the_sdfg_is_declared sample_program host_collaborators
           counting_loop 0 None counting_loop_declarations "k").
  - reflexivity.
  - reflexivity.
  - simpl. tauto.
Defined.

Lemma mapped_symbols_and_arguments_are_not_declared_witness :
  (forall node, parent sample_program 0 <> None ->
                parent_nsdfg_node sample_program 0 = Some node ->
                ~ In "i" (symbol_mapping counting_loop node))
  /\ (parent sample_program 0 = None -> opencl_types counting_loop None = false ->
      ~ In "i" (sdfg_arglist counting_loop 0)).
Proof.
  apply (mapped_symbols_and_arguments_are_not_declared sample_program
           host_collaborators counting_loop 0 None counting_loop_declarations).
  - reflexivity.
  - simpl. tauto.
Defined.

Lemma interstate_symbols_fail_only_for_a_symbol_without_type_witness :
  exists tables,
    collect_symbols counting_loop 0 (all_control_flow_regions counting_loop 0)
                    (initial_symbols sample_program counting_loop 0, [])
    = Ok tables
    /\ match first_untyped (snd tables) with
       | Some name =>
           declare_interstate_symbols sample_program host_collaborators
                                      counting_loop 0 None
           = Raise (TypeError ("Type inference failed for symbol " ++ name))
       | None =>
           exists out,
             declare_interstate_symbols sample_program host_collaborators
                                        counting_loop 0 None = Ok out
       end.
Proof.
  apply (interstate_symbols_fail_only_for_a_symbol_without_type sample_program
           host_collaborators counting_loop 0 None).
  left. reflexivity.
Defined.

(** *** The symbols and constants of every SDFG ([__init__]) *)

(** A node met by [sdfg.all_nodes_recursive()]: a nested-SDFG node,
    with the SDFG it nests ([nested.sdfg]) and, for every edge of
    [state.in_edges(nested)], the data its memlet names
    ([edge.data.data], possibly [None]) and the connector it enters
    ([edge.dst_conn]); or any other node. *)
Inductive Visited :=
| visited_nested (nsdfg : SDFG) (in_edges : list (option string * string))
| visited_other.

(** [self._symbols_and_constants]: a set of names for every [cfg_id]. *)
Definition SymbolSets := list (SDFG * list string).

Section SymbolsAndConstants.

Variable G : Program.

(** [sdfg.free_symbols]. *)
Variable sdfg_free_symbols : SDFG -> list string.

(** The connectors of the edges that carry a constant of the parent. *)
Definition constant_inputs (parent_constants : list string)
  (in_edges : list (option string * string)) (result : list string) : list string :=
  fold_left
    (fun result edge =>
       match fst edge with
       | Some d =>
           if str_in d parent_constants then (result ++ [snd edge])%list else result
       | None => result
       end)
    in_edges result.

(** One round of the loop for a nested-SDFG node. *)
Definition resolve_nested (table : SymbolSets) (nsdfg : SDFG)
  (in_edges : list (option string * string)) : Result SymbolSets :=
  let result := (sdfg_free_symbols nsdfg ++ constants_prop G nsdfg)%list in
  match parent_sdfg G nsdfg with
  | None => Raise AttributeError
  | Some parent =>
      match dict_lookup Nat.eqb table parent with
      | None => Raise KeyError
      | Some parent_constants =>
          let result := (result ++ parent_constants)%list in
          let result := constant_inputs parent_constants in_edges result in
          Ok (dict_set Nat.eqb table nsdfg result)
      end
  end.

Fixpoint resolve_all (walk : list Visited) (table : SymbolSets) : Result SymbolSets :=
  match walk with
  | [] => Ok table
  | visited_nested nsdfg in_edges :: rest =>
      table <- resolve_nested table nsdfg in_edges ;;
      resolve_all rest table
  | visited_other :: rest => resolve_all rest table
  end.

(** The part of [__init__] that fills [self._symbols_and_constants],
    [walk] being [sdfg.all_nodes_recursive()]. *)
Definition resolve_symbols_and_constants (sdfg : SDFG) (walk : list Visited)
  : Result SymbolSets :=
  resolve_all walk [(sdfg, (sdfg_free_symbols sdfg ++ constants_prop G sdfg)%list)].

(** The nested SDFGs of a walk, in its order. *)
Fixpoint nested_sdfgs (walk : list Visited) : list SDFG :=
  match walk with
  | [] => []
  | visited_nested nsdfg _ :: rest => nsdfg :: nested_sdfgs rest
  | visited_other :: rest => nested_sdfgs rest
  end.

(** Every nested SDFG is met after its parent SDFG, [known] being the
    SDFGs resolved so far. *)
Fixpoint parents_first (walk : list Visited) (known : list SDFG) : Prop :=
  match walk with
  | [] => True
  | visited_nested nsdfg _ :: rest =>
      (exists parent, parent_sdfg G nsdfg = Some parent /\ In parent known)
      /\ parents_first rest (nsdfg :: known)
  | visited_other :: rest => parents_first rest known
  end.

(** **** Facts about the table *)

Lemma nat_lookup_after_set (d : SymbolSets) (k k' : SDFG) (v : list string) :
  dict_lookup Nat.eqb (dict_set Nat.eqb d k v) k' =
  if Nat.eqb k' k then Some v else dict_lookup Nat.eqb d k'.
Proof.
  apply dict_lookup_after_set.
  - intros a b H. rewrite Nat.eqb_sym. exact H.
  - intros a b c H1 H2. apply Nat.eqb_eq in H1, H2. subst. apply Nat.eqb_refl.
Qed.

Lemma nat_lookup_In (d : SymbolSets) (k : SDFG) (v : list string) :
  dict_lookup Nat.eqb d k = Some v -> In (k, v) d.
Proof.
  induction d as [|[k0 v0] rest IH]; simpl; [discriminate|].
  destruct (Nat.eqb k k0) eqn:E.
  - apply Nat.eqb_eq in E. subst. intros H. inversion H. now left.
  - intros H. right. now apply IH.
Qed.

Lemma nat_lookup_some (d : SymbolSets) (k : SDFG) :
  In k (map fst d) -> exists v, dict_lookup Nat.eqb d k = Some v.
Proof.
  induction d as [|[k0 v0] rest IH]; simpl; [tauto|].
  destruct (Nat.eqb k k0) eqn:E; [now eexists|].
  intros [H|H]; [|now apply IH].
  subst. rewrite Nat.eqb_refl in E. discriminate.
Qed.

Lemma nat_set_In (d : SymbolSets) (k g : SDFG) (v s : list string) :
  In (g, s) (dict_set Nat.eqb d k v) -> In (g, s) d \/ (g = k /\ s = v).
Proof.
  induction d as [|[k0 v0] rest IH]; simpl.
  - intros [H|[]]. inversion H. now right.
  - destruct (Nat.eqb k k0) eqn:E; simpl.
    + apply Nat.eqb_eq in E. subst. intros [H|H]; [|now left; right].
      inversion H. now right.
    + intros [H|H]; [now left; left|].
      destruct (IH H) as [H'|H']; [left; now right | now right].
Qed.

Lemma nat_keys_after_set (d : SymbolSets) (k g : SDFG) (v : list string) :
  In g (map fst (dict_set Nat.eqb d k v)) <-> In g (map fst d) \/ g = k.
Proof.
  induction d as [|[k0 v0] rest IH]; simpl.
  - split; [intros [H|[]]; now right | intros [[]|H]; now left].
  - destruct (Nat.eqb k k0) eqn:E; simpl.
    + apply Nat.eqb_eq in E. subst. split; [tauto|]. intros [H|H]; [exact H|now left].
    + rewrite IH. tauto.
Qed.

Lemma constant_inputs_In (parent_constants : list string)
  (in_edges : list (option string * string)) :
  forall result x,
    In x (constant_inputs parent_constants in_edges result)
    <-> In x result
        \/ exists d, In (Some d, x) in_edges /\ In d parent_constants.
Proof.
  unfold constant_inputs.
  induction in_edges as [|[d conn] rest IH]; intros result x; simpl.
  - split; [now left | intros [H|[d [[] _]]]; exact H].
  - rewrite IH. destruct d as [d|]; simpl.
    + destruct (str_in d parent_constants) eqn:Hd.
      * rewrite in_app_iff. simpl. split.
        -- intros [[H|[H|[]]]|[d' [Hin Hd']]].
           ++ now left.
           ++ subst. right. exists d. split; [now left | now apply str_in_In].
           ++ right. exists d'. split; [now right | exact Hd'].
        -- intros [H|[d' [[Heq|Hin] Hd']]].
           ++ left. now left.
           ++ inversion Heq; subst. left. right. now left.
           ++ right. now exists d'.
      * split.
        -- intros [H|[d' [Hin Hd']]]; [now left|].
           right. exists d'. split; [now right | exact Hd'].
        -- intros [H|[d' [[Heq|Hin] Hd']]]; [now left| |].
           ++ inversion Heq; subst. apply str_in_In in Hd'. congruence.
           ++ right. now exists d'.
    + split.
      * intros [H|[d' [Hin Hd']]]; [now left|].
        right. exists d'. split; [now right | exact Hd'].
      * intros [H|[d' [[Heq|Hin] Hd']]]; [now left|discriminate|].
        right. now exists d'.
Qed.


Lemma nat_lookup_key (d : SymbolSets) (k : SDFG) (v : list string) :
  dict_lookup Nat.eqb d k = Some v -> In k (map fst d).
Proof.
  intros H. apply nat_lookup_In in H. apply in_map_iff. now exists (k, v).
Qed.

Lemma resolve_nested_ok (table t1 : SymbolSets) (nsdfg : SDFG)
  (in_edges : list (option string * string)) :
  resolve_nested table nsdfg in_edges = Ok t1 ->
  exists parent parent_constants,
    parent_sdfg G nsdfg = Some parent
    /\ dict_lookup Nat.eqb table parent = Some parent_constants
    /\ t1 = dict_set Nat.eqb table nsdfg
              (constant_inputs parent_constants in_edges
                 ((sdfg_free_symbols nsdfg ++ constants_prop G nsdfg)
                  ++ parent_constants)%list).
Proof.
  unfold resolve_nested. intros H.
  destruct (parent_sdfg G nsdfg) as [p|]; [|discriminate].
  destruct (dict_lookup Nat.eqb table p) as [pc|] eqn:Hpc; [|discriminate].
  inversion H. exists p, pc. split; [reflexivity|]. split; [exact Hpc | reflexivity].
Qed.

Lemma resolve_all_superset (names : list string) (walk : list Visited) :
  forall table final,
    (forall g s, In (g, s) table -> incl names s) ->
    resolve_all walk table = Ok final ->
    forall g s, In (g, s) final -> incl names s.
Proof.
  induction walk as [|[n e|] rest IH]; intros table final Hall H;
    cbn [resolve_all] in H.
  - inversion H; subst. exact Hall.
  - destruct (resolve_nested table n e) as [t1| |] eqn:Hone; simpl in H;
      try discriminate.
    apply (IH t1 final); [|exact H].
    apply resolve_nested_ok in Hone. destruct Hone as [p [pc [_ [Hpc ->]]]].
    intros g s Hin. apply nat_set_In in Hin. destruct Hin as [Hin|[_ ->]].
    + now apply (Hall g).
    + intros x Hx. apply constant_inputs_In. left. apply in_or_app. right.
      apply (Hall p pc); [now apply nat_lookup_In | exact Hx].
  - now apply (IH table final).
Qed.

(** What the table holds for a nested SDFG met with the entering edges
    [in_edges]: its own symbols and constants, the set of its parent
    SDFG, and the connectors of the edges carrying a name of that
    set. *)
Definition inherits (table : SymbolSets) (nsdfg : SDFG)
  (in_edges : list (option string * string)) : Prop :=
  exists parent parent_constants names,
    parent_sdfg G nsdfg = Some parent
    /\ dict_lookup Nat.eqb table parent = Some parent_constants
    /\ dict_lookup Nat.eqb table nsdfg = Some names
    /\ forall x,
         In x names
         <-> In x (sdfg_free_symbols nsdfg) \/ In x (constants_prop G nsdfg)
             \/ In x parent_constants
             \/ exists d, In (Some d, x) in_edges /\ In d parent_constants.

Lemma resolve_all_final (walk : list Visited) :
  forall table final,
    resolve_all walk table = Ok final ->
    NoDup (nested_sdfgs walk) ->
    (forall n, In n (nested_sdfgs walk) -> ~ In n (map fst table)) ->
    (forall k, In k (map fst table) ->
               dict_lookup Nat.eqb final k = dict_lookup Nat.eqb table k)
    /\ (forall n e, In (visited_nested n e) walk -> inherits final n e).
Proof.
  induction walk as [|[n e|] rest IH]; intros table final H Hnd Hfresh;
    cbn [resolve_all nested_sdfgs] in *.
  - inversion H; subst. split; [reflexivity | intros n e []].
  - destruct (resolve_nested table n e) as [t1| |] eqn:Hone; simpl in H;
      try discriminate.
    apply resolve_nested_ok in Hone. destruct Hone as [p [pc [Hp [Hpc Ht1]]]].
    pose proof (NoDup_cons_iff n (nested_sdfgs rest)) as Hsplit.
    apply Hsplit in Hnd. destruct Hnd as [Hnotin Hrest].
    assert (Hn : ~ In n (map fst table)) by (apply Hfresh; now left).
    assert (Hfresh1 : forall m, In m (nested_sdfgs rest) -> ~ In m (map fst t1)).
    { intros m Hm Hin. rewrite Ht1 in Hin. apply nat_keys_after_set in Hin.
      destruct Hin as [Hin| ->]; [|now apply Hnotin].
      apply (Hfresh m); [now right | exact Hin]. }
    destruct (IH t1 final H Hrest Hfresh1) as [Hsame Hrestok].
    assert (Hkeep : forall k, In k (map fst table) ->
              dict_lookup Nat.eqb final k = dict_lookup Nat.eqb table k).
    { intros k Hk. rewrite Hsame.
      - rewrite Ht1, nat_lookup_after_set.
        destruct (Nat.eqb k n) eqn:E; [|reflexivity].
        apply Nat.eqb_eq in E. subst. contradiction.
      - rewrite Ht1. apply nat_keys_after_set. now left. }
    split; [exact Hkeep|].
    intros n' e' [Heq|Hin]; [|now apply Hrestok].
    inversion Heq; subst n' e'.
    exists p, pc. eexists. split; [exact Hp|]. split; [|split].
    + rewrite Hkeep; [exact Hpc | now apply nat_lookup_key with pc].
    + rewrite Hsame.
      * rewrite Ht1, nat_lookup_after_set, Nat.eqb_refl. reflexivity.
      * rewrite Ht1. apply nat_keys_after_set. now right.
    + intros x. rewrite constant_inputs_In, !in_app_iff. tauto.
  - destruct (IH table final H Hnd Hfresh) as [Hsame Hrestok].
    split; [exact Hsame|]. intros n e [Heq|Hin]; [discriminate | now apply Hrestok].
Qed.

Lemma parents_first_ext (walk : list Visited) :
  forall a b, (forall k, In k a <-> In k b) ->
              parents_first walk a -> parents_first walk b.
Proof.
  induction walk as [|[n e|] rest IH]; intros a b Hab; simpl; [tauto| |now apply IH].
  intros [[p [Hp Hin]] Hrest]. split.
  - exists p. split; [exact Hp | now apply Hab].
  - apply (IH (n :: a)); [|exact Hrest]. intros k. simpl. now rewrite Hab.
Qed.

Lemma resolve_all_returns (walk : list Visited) :
  forall table,
    (exists final, resolve_all walk table = Ok final)
    <-> parents_first walk (map fst table).
Proof.
  induction walk as [|[n e|] rest IH]; intros table;
    cbn [resolve_all parents_first]; [split; [tauto | now eexists]| |apply IH].
  unfold resolve_nested. split.
  - intros [final H].
    destruct (parent_sdfg G n) as [p|]; [|discriminate].
    destruct (dict_lookup Nat.eqb table p) as [pc|] eqn:Hpc; [|discriminate].
    simpl in H. split.
    + exists p. split; [reflexivity | now apply nat_lookup_key with pc].
    + assert (Hex : exists final', resolve_all rest
                (dict_set Nat.eqb table n
                   (constant_inputs pc e
                      ((sdfg_free_symbols n ++ constants_prop G n) ++ pc)%list))
                = Ok final') by now exists final.
      apply IH in Hex. revert Hex. apply parents_first_ext.
      intros k. rewrite nat_keys_after_set. simpl. intuition.
  - intros [[p [Hp Hin]] Hrest]. rewrite Hp.
    destruct (nat_lookup_some table p Hin) as [pc Hpc]. rewrite Hpc. simpl.
    apply IH. revert Hrest. apply parents_first_ext.
    intros k. rewrite nat_keys_after_set. simpl. intuition.
Qed.

(** X24. Every free symbol and every constant of the top-level SDFG
    is in the set [__init__] records for any SDFG, however deep it is
    nested. *)
Theorem top_level_names_reach_every_sdfg (sdfg : SDFG) (walk : list Visited)
  (table : SymbolSets) (g : SDFG) (names : list string) (x : string) :
  resolve_symbols_and_constants sdfg walk = Ok table ->
  dict_lookup Nat.eqb table g = Some names ->
  In x (sdfg_free_symbols sdfg) \/ In x (constants_prop G sdfg) ->
  In x names.
Proof.
  unfold resolve_symbols_and_constants. intros H Hg Hx.
  apply nat_lookup_In in Hg.
  assert (Hall : incl (sdfg_free_symbols sdfg ++ constants_prop G sdfg)%list names).
  { refine (resolve_all_superset _ walk _ table _ H g names Hg).
    intros g' s [Heq|[]]. inversion Heq. apply incl_refl. }
  apply Hall. now apply in_or_app.
Qed.

(** X25. When the SDFGs met are pairwise different, the set recorded
    for a nested SDFG holds exactly its own free symbols and constants,
    the names of the set recorded for its parent SDFG, and the
    connectors of the entering edges that carry a name of that set. *)
Theorem nested_sdfg_inherits_from_its_parent (sdfg : SDFG) (walk : list Visited)
  (table : SymbolSets) (nsdfg : SDFG) (in_edges : list (option string * string)) :
  NoDup (sdfg :: nested_sdfgs walk) ->
  resolve_symbols_and_constants sdfg walk = Ok table ->
  In (visited_nested nsdfg in_edges) walk ->
  inherits table nsdfg in_edges.
Proof.
  unfold resolve_symbols_and_constants. intros Hnd H Hin.
  inversion Hnd as [|? ? Hroot Hrest]; subst.
  apply (resolve_all_final walk _ table H Hrest); [|exact Hin].
  intros n Hn [Heq|[]]. simpl in Heq. subst. contradiction.
Qed.

(** X26. Filling the table returns exactly when every nested SDFG is
    met after its parent SDFG (the top-level SDFG or a nested SDFG met
    earlier); it raises otherwise. *)
Theorem symbols_are_resolved_when_parents_come_first (sdfg : SDFG)
  (walk : list Visited) :
  (exists table, resolve_symbols_and_constants sdfg walk = Ok table)
  <-> parents_first walk [sdfg].
Proof.
  unfold resolve_symbols_and_constants. now rewrite resolve_all_returns.
Qed.

End SymbolsAndConstants.

(** The sample program met with one nested-SDFG node whose first edge
    carries the symbol [N] of the top-level SDFG. *)
Definition sample_free_symbols (g : SDFG) : list string :=
  match g with
  | 0 => ["N"]
  | _ => ["M"]
  end.

Definition sample_walk : list Visited :=
  [ visited_other;
    visited_nested 1 [(Some "N", "n_in"); (None, "x"); (Some "A", "a_in")] ].

Definition sample_symbol_sets : SymbolSets :=
  [ (0, ["N"]); (1, ["M"; "K"; "L"; "N"; "n_in"]) ].

Lemma sample_symbols_resolved :
  resolve_symbols_and_constants sample_program sample_free_symbols 0 sample_walk
  = Ok sample_symbol_sets.
Proof. reflexivity. Qed.

Lemma top_level_names_reach_every_sdfg_witness :
  In "N" ["M"; "K"; "L"; "N"; "n_in"].
Proof.
  apply (top_level_names_reach_every_sdfg sample_program sample_free_symbols 0
           sample_walk sample_symbol_sets 1).
  - reflexivity.
  - reflexivity.
  - left. simpl. tauto.
Defined.

Lemma nested_sdfg_inherits_from_its_parent_witness :
  inherits sample_program sample_free_symbols sample_symbol_sets 1
           [(Some "N", "n_in"); (None, "x"); (Some "A", "a_in")].
Proof.
  apply (nested_sdfg_inherits_from_its_parent sample_program sample_free_symbols 0
           sample_walk).
  - repeat constructor; simpl; intuition discriminate.
  - reflexivity.
  - simpl. tauto.
Defined.

End Framecode.
